(** * vim_engine: the editing-command interpreter, embedded and verified

    A shallow embedding of the buffer core (document, state, registers,
    undo), the keymap registry and resolver, the operator pipeline, the
    command-line mode and the mode manager of [vim_engine], with the
    properties of the specification stated over it.

    Conventions:
    - Python [int] is [Z] (unbounded, no wrap-around).
    - Python [str] used as buffer text is a list of Unicode code points
      ([str := list N]); strings used as identifiers (binding ids, mode
      names, key tokens, labels) are [string].
    - A [dict] is a [gmap]; a [set] is a [gset]; iteration over either is
      taken in the canonical order of [map_to_list] / [elements], where
      Python takes a dict in insertion order and leaves the order of a
      set unspecified: the properties below are stated of what the
      iterations reach, not of their order.
    - A call that may raise returns a [result]; a method of a mutable
      object is a function from the object to the result paired with the
      object as the call leaves it (also when it raises). *)

From Stdlib Require Import ZArith NArith Lia.
From stdpp Require Import base option list gmap strings.

Set Default Proof Using "Type".
Set Warnings "-clear-no-such-hyp".

(** ** Exceptions and results *)

Inductive exn : Type :=
| BufferValidationError (msg : string) (cursor : Z * Z)
| IndexError
| KeyError (msg : string)
| ValueError (msg : string)
| KeymapConflictError (binding : string) (conflicts : list string)
| RuntimeError (msg : string)
| OverflowError (msg : string).

Inductive result (A : Type) : Type :=
| Ok (a : A)
| Raise (e : exn).
Arguments Ok {A} a.
Arguments Raise {A} e.

(** State-and-exception monad of a mutable object of type [S]. *)
Definition M (S A : Type) : Type := S → result A * S.

#[export] Instance result_ret : MRet result := λ A a, Ok a.
#[export] Instance result_bind : MBind result := λ A B k r,
  match r with
  | Ok a => k a
  | Raise e => Raise e
  end.

#[export] Instance M_ret {S} : MRet (M S) := λ A a s, (Ok a, s).
#[export] Instance M_bind {S} : MBind (M S) := λ A B k c s,
  match c s with
  | (Ok a, s') => k a s'
  | (Raise e, s') => (Raise e, s')
  end.

Definition raise {S A} (e : exn) : M S A := λ s, (Raise e, s).
Definition get {S} : M S S := λ s, (Ok s, s).
Definition put {S} (s : S) : M S unit := λ _, (Ok tt, s).
Definition modify {S} (f : S → S) : M S unit := λ s, (Ok tt, f s).
Definition lift {S A} (r : result A) : M S A := λ s, (r, s).

(** ** Python sequences *)

Section py_seq.
Context {A : Type}.

Definition len (l : list A) : Z := Z.of_nat (length l).

(** [l[i]]: negative indices count from the end, out of range raises. *)
Definition py_index (l : list A) (i : Z) : result A :=
  let j := if (i <? 0)%Z then (len l + i)%Z else i in
  if (j <? 0)%Z then Raise IndexError
  else match l !! Z.to_nat j with
       | Some a => Ok a
       | None => Raise IndexError
       end.

(** A slice bound: negative bounds count from the end, then clamp. *)
Definition py_bound (l : list A) (i : Z) : nat :=
  if (i <? 0)%Z then Z.to_nat (Z.max 0 (len l + i))
  else Z.to_nat (Z.min i (len l)).

(** [l[:hi]], [l[lo:]] and [l[lo:hi]]. *)
Definition slice_to (l : list A) (hi : Z) : list A := take (py_bound l hi) l.
Definition slice_from (l : list A) (lo : Z) : list A := drop (py_bound l lo) l.
Definition slice (l : list A) (lo hi : Z) : list A :=
  take (py_bound l hi - py_bound l lo) (drop (py_bound l lo) l).

End py_seq.

(** ** Cursors *)

Abbreviation Cursor := (Z * Z)%type.
Abbreviation Selection := ((Z * Z) * (Z * Z))%type.

(** Tuple comparison [a > b] (lexicographic). *)
Definition cursor_gt (a b : Cursor) : bool :=
  (b.1 <? a.1)%Z || ((a.1 =? b.1)%Z && (b.2 <? a.2)%Z).

(** ** buffer/undo.py *)

Abbreviation str := (list N).

Record UndoEntry : Type := mkUndoEntry {
  label : string;
  before_text : str;
  after_text : str;
  cursor_before : Cursor;
  cursor_after : Cursor;
}.

Module UndoTimeline.

Record t : Type := mk {
  _entries : list UndoEntry;
  _index : Z;
}.

Definition init : t := {| _entries := []; _index := -1 |}.

Definition push (entry : UndoEntry) (self : t) : t :=
  let entries :=
    if (_index self <? len (_entries self) - 1)%Z
    then slice_to (_entries self) (_index self + 1)
    else _entries self in
  let entries := entries ++ [entry] in
  {| _entries := entries; _index := len entries - 1 |}.

Definition can_undo (self : t) : bool := (0 <=? _index self)%Z.

Definition can_redo (self : t) : bool :=
  (_index self <? len (_entries self) - 1)%Z.

Definition undo : M t (option UndoEntry) := λ self,
  if negb (can_undo self) then (Ok None, self)
  else match py_index (_entries self) (_index self) with
       | Raise e => (Raise e, self)
       | Ok entry =>
           (Ok (Some entry),
            {| _entries := _entries self; _index := _index self - 1 |})
       end.

Definition redo : M t (option UndoEntry) := λ self,
  if negb (can_redo self) then (Ok None, self)
  else
    let self := {| _entries := _entries self; _index := _index self + 1 |} in
    match py_index (_entries self) (_index self) with
    | Raise e => (Raise e, self)
    | Ok entry => (Ok (Some entry), self)
    end.

(** The index points at an entry, or is [-1] before the first one. *)
Definition wf (self : t) : Prop :=
  (-1 ≤ _index self < len (_entries self))%Z.

(** Timelines built through the public methods. *)
Inductive reachable : t → Prop :=
| reach_init : reachable init
| reach_push e s : reachable s → reachable (push e s)
| reach_undo s : reachable s → reachable (undo s).2
| reach_redo s : reachable s → reachable (redo s).2.

End UndoTimeline.

(** ** Python text: [str.splitlines], [str.join], [str.endswith] *)

Definition LF : N := 10%N.
Definition CR : N := 13%N.

(** The code points [str.splitlines] treats as line boundaries:
    LF, VT, FF, CR, FS, GS, RS, NEL, LS and PS. *)
Definition linebreaks : list N :=
  [10; 11; 12; 13; 28; 29; 30; 133; 8232; 8233]%N.

Definition is_linebreak (c : N) : bool := existsb (N.eqb c) linebreaks.

(** [text.splitlines()]: lines without their terminators; CR LF counts as
    one boundary; no empty last line after a final boundary. *)
Fixpoint splitlines (text : str) : list str :=
  match text with
  | [] => []
  | c :: rest =>
      if is_linebreak c then
        [] :: match rest with
              | c' :: rest' =>
                  if (c =? CR)%N && (c' =? LF)%N then splitlines rest'
                  else splitlines rest
              | [] => []
              end
      else
        match splitlines rest with
        | [] => [[c]]
        | line :: lines => (c :: line) :: lines
        end
  end.

(** [text.endswith("\n")]. *)
Definition endswith_LF (text : str) : bool :=
  match last text with
  | Some c => (c =? LF)%N
  | None => false
  end.

(** ["\n".join(lines)]. *)
Fixpoint _flatten_lines (lines : list str) : str :=
  match lines with
  | [] => []
  | [line] => line
  | line :: rest => line ++ LF :: _flatten_lines rest
  end.

(** ** buffer/document.py *)

Module BufferDocument.

Record t : Type := mk {
  _lines : list str;
  version : Z;
  dirty : bool;
}.

(** [BufferDocument()]: one empty line, version 0. *)
Definition default : t := {| _lines := [[]]; version := 0; dirty := false |}.

Definition from_text (text : str) : t :=
  let lines := splitlines text in
  let lines :=
    match lines with
    | [] => [[]]
    | _ => if endswith_LF text then lines ++ [[]] else lines
    end in
  {| _lines := lines; version := 0; dirty := false |}.

Definition snapshot (self : t) : list str := _lines self.

Definition replace (lines : list str) (dirty' : option bool) (self : t) : t :=
  {| _lines := lines;
     version := version self + 1;
     dirty := match dirty' with Some d => d | None => dirty self end |}.

Definition line_count (self : t) : Z := len (_lines self).

Definition get_line (index : Z) (self : t) : result str :=
  py_index (_lines self) index.

End BufferDocument.

(** The name of the unnamed register: one double-quote character. *)
Definition unnamed_register : string :=
  String (Ascii.ascii_of_nat 34) EmptyString.

(** ** buffer/state.py *)

Module BufferState.

Record t : Type := mk {
  cursor : Cursor;
  selection : option Selection;
  active_register : string;
  last_change_tick : Z;
}.

Definition default : t :=
  {| cursor := (0, 0)%Z; selection := None;
     active_register := unnamed_register; last_change_tick := 0 |}.

Definition set_cursor (row col : Z) (self : t) : t :=
  {| cursor := (row, col); selection := selection self;
     active_register := active_register self;
     last_change_tick := last_change_tick self |}.

Definition set_last_change_tick (tick : Z) (self : t) : t :=
  {| cursor := cursor self; selection := selection self;
     active_register := active_register self;
     last_change_tick := tick |}.

Definition clear_selection (self : t) : t :=
  {| cursor := cursor self; selection := None;
     active_register := active_register self;
     last_change_tick := last_change_tick self |}.

Definition set_selection (start end_ : Cursor) (self : t) : t :=
  {| cursor := cursor self; selection := Some (start, end_);
     active_register := active_register self;
     last_change_tick := last_change_tick self |}.

End BufferState.

(** ** buffer/registers.py *)

Record RegisterValue : Type := mkRegisterValue {
  rv_text : str;
  rv_type : string;
}.

Module RegisterBank.

Record t : Type := mk { _registers : gmap string RegisterValue }.

Definition init : t :=
  {| _registers := {[ unnamed_register := mkRegisterValue [] "character" ]} |}.

Definition get (name : string) (self : t) : RegisterValue :=
  default (mkRegisterValue [] "character") (_registers self !! name).

Definition set (name : string) (value : RegisterValue) (self : t) : t :=
  let regs := <[name := value]> (_registers self) in
  {| _registers :=
       if bool_decide (name ≠ unnamed_register) then <[unnamed_register := value]> regs
       else regs |}.

Definition append (name : string) (text : str) (self : t) : t :=
  let existing := get name self in
  set name (mkRegisterValue (rv_text existing ++ text) (rv_type existing)) self.

Definition yank_to (name : string) (text : str) (register_type : string)
    (self : t) : t :=
  set name (mkRegisterValue text register_type) self.

End RegisterBank.

(** ** buffer/validation.py *)

Definition ensure_cursor (document : BufferDocument.t) (cursor : Cursor)
    : result Cursor :=
  let '(row, col) := cursor in
  if (row <? 0)%Z || (BufferDocument.line_count document <=? row)%Z then
    Raise (BufferValidationError "Row out of range" cursor)
  else
    match BufferDocument.get_line row document with
    | Raise e => Raise e
    | Ok line =>
        if (col <? 0)%Z || (len line <? col)%Z then
          Raise (BufferValidationError "Column out of range" cursor)
        else Ok cursor
    end.

(** ** buffer/buffer.py *)

Record BufferView : Type := mkBufferView {
  view_version : Z;
  view_text : str;
  view_cursor : Cursor;
  view_selection : option Selection;
}.

Record BufferDelta : Type := mkBufferDelta {
  delta_version : Z;
  delta_text : str;
  delta_cursor : Cursor;
  delta_selection : option Selection;
  delta_label : string;
}.

(** The loop [for i in range(row): offset += len(lines[i]) + 1], at its
    [i]-th pass with [n] passes to go. *)
Fixpoint offset_rows (lines : list str) (i n : nat) (offset : Z) : result Z :=
  match n with
  | O => Ok offset
  | S n' =>
      line ← py_index lines (Z.of_nat i);
      offset_rows lines (S i) n' (offset + (len line + 1))
  end.

Definition _offset_for_cursor (document : BufferDocument.t) (cursor : Cursor)
    : result Z :=
  let lines := BufferDocument.snapshot document in
  let '(row, col) := cursor in
  offset ← offset_rows lines 0 (Z.to_nat row) 0;
  mret (offset + col)%Z.

(** The loop of [_cursor_from_offset] over [enumerate(lines)]; [None] when
    it falls through. *)
Fixpoint cursor_scan (lines : list str) (row running offset : Z)
    : option Cursor :=
  match lines with
  | [] => None
  | line :: rest =>
      let line_len := len line in
      if (offset <=? running + line_len)%Z then Some (row, offset - running)%Z
      else cursor_scan rest (row + 1)%Z (running + (line_len + 1))%Z offset
  end.

Definition _cursor_from_offset (document : BufferDocument.t) (offset : Z)
    : result Cursor :=
  let lines := BufferDocument.snapshot document in
  match cursor_scan lines 0 0 offset with
  | Some cursor => Ok cursor
  | None =>
      last_line ← py_index lines (-1);
      mret (len lines - 1, len last_line)%Z
  end.

Module Buffer.

Record t : Type := mk {
  name : string;
  document : BufferDocument.t;
  state : BufferState.t;
  registers : RegisterBank.t;
  undo : UndoTimeline.t;
}.

Definition set_document (d : BufferDocument.t) (self : t) : t :=
  {| name := name self; document := d; state := state self;
     registers := registers self; undo := undo self |}.

Definition set_state (st : BufferState.t) (self : t) : t :=
  {| name := name self; document := document self; state := st;
     registers := registers self; undo := undo self |}.

Definition set_undo (u : UndoTimeline.t) (self : t) : t :=
  {| name := name self; document := document self; state := state self;
     registers := registers self; undo := u |}.

(** [Buffer(name=...)] with every other argument left to its default. *)
Definition new (name : string) : t :=
  {| name := name; document := BufferDocument.default;
     state := BufferState.default; registers := RegisterBank.init;
     undo := UndoTimeline.init |}.

Definition from_text (text : str) (name : string) : t :=
  set_document (BufferDocument.from_text text) (new name).

Definition snapshot (self : t) : BufferView :=
  {| view_version := BufferDocument.version (document self);
     view_text := _flatten_lines (BufferDocument.snapshot (document self));
     view_cursor := BufferState.cursor (state self);
     view_selection := BufferState.selection (state self) |}.

(** [Transaction.commit]: push the undo entry of the edit. *)
Definition commit (label : string) (before_text after_text : str)
    (cursor_before cursor_after : Cursor) : M t unit :=
  modify (λ self,
    set_undo
      (UndoTimeline.push
         (mkUndoEntry label before_text after_text cursor_before cursor_after)
         (undo self))
      self).

(** The telemetry span the transaction opens and closes only logs; it is
    left out. *)
Definition replace_range (start end_ : Cursor) (text : str) (label : string)
    : M t BufferDelta :=
  self ← get;
  start ← lift (ensure_cursor (document self) start);
  end_ ← lift (ensure_cursor (document self) end_);
  let before_text := _flatten_lines (BufferDocument.snapshot (document self)) in
  start_offset ← lift (_offset_for_cursor (document self) start);
  end_offset ← lift (_offset_for_cursor (document self) end_);
  let new_text :=
    slice_to before_text start_offset ++ text
      ++ slice_from before_text end_offset in
  modify (set_document (BufferDocument.from_text new_text));;
  self ← get;
  '(row, col) ← lift (_cursor_from_offset (document self)
                        (start_offset + len text));
  modify (λ self, set_state (BufferState.set_cursor row col (state self)) self);;
  modify (λ self,
    set_state
      (BufferState.set_last_change_tick
         (BufferDocument.version (document self)) (state self))
      self);;
  let after_text := new_text in
  self ← get;
  commit label before_text after_text start (BufferState.cursor (state self));;
  self ← get;
  mret {| delta_version := BufferDocument.version (document self);
          delta_text := after_text;
          delta_cursor := BufferState.cursor (state self);
          delta_selection := BufferState.selection (state self);
          delta_label := label |}.

Definition insert_text (text : str) (cursor : option Cursor)
    : M t BufferDelta :=
  self ← get;
  let position := default (BufferState.cursor (state self)) cursor in
  replace_range position position text "insert_text".

Definition delete_range (start end_ : Cursor) : M t BufferDelta :=
  replace_range start end_ [] "delete_range".

Definition get_text_range (start end_ : Cursor) (self : t) : result str :=
  start ← ensure_cursor (document self) start;
  end_ ← ensure_cursor (document self) end_;
  let '(start, end_) :=
    if cursor_gt start end_ then (end_, start) else (start, end_) in
  let text := _flatten_lines (BufferDocument.snapshot (document self)) in
  start_offset ← _offset_for_cursor (document self) start;
  end_offset ← _offset_for_cursor (document self) end_;
  mret (slice text start_offset end_offset).

End Buffer.

(** ** keymaps/models.py

    The records stand for constructed objects: [__post_init__] has run,
    so the modifiers of a stroke are normalised and a sequence has at least
    one stroke. The fields [tags], [source], [telemetry_name] and
    [metadata], which no operation reads, are left out. *)

Module KeyStroke.

Record t : Type := mk {
  key : string;
  modifiers : list string;
  text : option string;
}.

Definition token (self : t) : string :=
  match modifiers self with
  | [] => key self
  | _ => String.concat "+" (modifiers self) +:+ "+" +:+ key self
  end.

End KeyStroke.

Module KeySequence.

Record t : Type := mk {
  strokes : list KeyStroke.t;
  timeout_ms : Z;
}.

Definition tokens (self : t) : list string := KeyStroke.token <$> strokes self.

(** [KeySequence.from_strings] on the given keys, with the default
    timeout, for keys of which one at least is not empty (the constructor
    raises [ValueError] on a sequence without strokes). *)
Definition from_strings (keys : list string) : t :=
  {| strokes := (λ k, KeyStroke.mk k [] None)
                  <$> filter (λ k, k ≠ EmptyString) keys;
     timeout_ms := 1000 |}.

End KeySequence.

Module WhenClause.

Record t : Type := mk {
  flag : string;
  expected : bool;
}.

(** [bool(context.get(self.flag, False)) is self.expected]. *)
Definition evaluate (context : gmap string bool) (self : t) : bool :=
  eqb (default false (context !! flag self)) (expected self).

End WhenClause.

Module ActionRef.

(** [handler] names the callable; the embedding never calls it. *)
Record t : Type := mk {
  id : string;
  handler : string;
  description : string;
}.

End ActionRef.

Module Binding.

Record t : Type := mk {
  id : string;
  mode : string;
  sequence : KeySequence.t;
  action_id : string;
  description : string;
  when : list WhenClause.t;
  priority : Z;
}.

(** The dict comprehension over [self.when]: a later clause on a flag
    overrides an earlier one. *)
Definition when_map (self : t) : gmap string bool :=
  foldl (λ m clause, <[WhenClause.flag clause := WhenClause.expected clause]> m)
        ∅ (when self).

Definition allows (context : gmap string bool) (self : t) : bool :=
  forallb (WhenClause.evaluate context) (when self).

Definition key_signature (self : t) : string :=
  String.concat " " (KeySequence.tokens (sequence self)).

(** The keyword arguments of [dataclasses.replace(binding, **changes)]. *)
Record changes : Type := mk_changes {
  new_id : option string;
  new_mode : option string;
  new_sequence : option KeySequence.t;
  new_action_id : option string;
  new_description : option string;
  new_when : option (list WhenClause.t);
  new_priority : option Z;
}.

Definition no_changes : changes :=
  mk_changes None None None None None None None.

(** [replace(current, **changes)]: the new binding, validated by
    [__post_init__]. *)
Definition replace (current : t) (ch : changes) : result t :=
  let updated :=
    {| id := default (id current) (new_id ch);
       mode := default (mode current) (new_mode ch);
       sequence := default (sequence current) (new_sequence ch);
       action_id := default (action_id current) (new_action_id ch);
       description := default (description current) (new_description ch);
       when := default (when current) (new_when ch);
       priority := default (priority current) (new_priority ch) |} in
  if bool_decide (id updated = EmptyString) then
    Raise (ValueError "binding id cannot be empty")
  else if bool_decide (mode updated = EmptyString) then
    Raise (ValueError "binding mode cannot be empty")
  else if bool_decide (action_id updated = EmptyString) then
    Raise (ValueError "binding action_id cannot be empty")
  else Ok updated.

End Binding.

(** ** keymaps/registry.py *)

(** One pass of a loop over a dict with the pairs
    [(flag, expected)] of [left]: does [right] hold the flag with another
    value? *)
Definition guards_differ (left right : gmap string bool) : bool :=
  existsb (λ '(flag, expected),
             match right !! flag with
             | Some v => negb (eqb v expected)
             | None => false
             end)
          (map_to_list left).

Definition _contexts_overlap (left right : Binding.t) : bool :=
  let left_map := Binding.when_map left in
  let right_map := Binding.when_map right in
  if bool_decide (Binding.when left = []) && bool_decide (Binding.when right = [])
  then true
  else if guards_differ left_map right_map then false
  else if guards_differ right_map left_map then false
  else if bool_decide (Binding.when left = [])
          || bool_decide (Binding.when right = [])
  then false
  else bool_decide (left_map = right_map).

Module KeymapRegistry.

Record t : Type := mk {
  _actions : gmap string ActionRef.t;
  _bindings : gmap string Binding.t;
  _mode_index : gmap string (gmap string (gset string));
  _revision : Z;
}.

Definition init : t :=
  {| _actions := ∅; _bindings := ∅; _mode_index := ∅; _revision := 0 |}.

Definition set_actions (a : gmap string ActionRef.t) (self : t) : t :=
  {| _actions := a; _bindings := _bindings self;
     _mode_index := _mode_index self; _revision := _revision self |}.

Definition set_bindings (b : gmap string Binding.t) (self : t) : t :=
  {| _actions := _actions self; _bindings := b;
     _mode_index := _mode_index self; _revision := _revision self |}.

Definition set_mode_index (i : gmap string (gmap string (gset string)))
    (self : t) : t :=
  {| _actions := _actions self; _bindings := _bindings self;
     _mode_index := i; _revision := _revision self |}.

Definition revision (self : t) : Z := _revision self.

Definition get_action (action_id : string) (self : t) : result ActionRef.t :=
  match _actions self !! action_id with
  | Some action => Ok action
  | None => Raise (KeyError action_id)
  end.

Definition get_binding (binding_id : string) (self : t) : result Binding.t :=
  match _bindings self !! binding_id with
  | Some binding => Ok binding
  | None => Raise (KeyError binding_id)
  end.

Definition register_action (action : ActionRef.t) (replace : bool)
    : M t ActionRef.t :=
  self ← get;
  if negb replace && bool_decide (is_Some (_actions self !! ActionRef.id action))
  then raise (ValueError (ActionRef.id action))
  else
    modify (λ self,
      set_actions (<[ActionRef.id action := action]> (_actions self)) self);;
    mret action.

(** [self._mode_index.get(mode, {}).get(signature, set())]. *)
Definition bucket_of (mode signature : string) (self : t) : gset string :=
  default ∅ (default ∅ (_mode_index self !! mode) !! signature).

(** The loop of [detect_conflicts] over the ids of the bucket. *)
Fixpoint conflicts_among (binding : Binding.t) (ignored : list string)
    (ids : list string) (self : t) : result (list Binding.t) :=
  match ids with
  | [] => Ok []
  | match_id :: rest =>
      if bool_decide (match_id ∈ ignored) then
        conflicts_among binding ignored rest self
      else
        match _bindings self !! match_id with
        | None => Raise (KeyError match_id)
        | Some existing =>
            conflicts ← conflicts_among binding ignored rest self;
            mret (if _contexts_overlap binding existing
                  then existing :: conflicts else conflicts)
        end
  end.

Definition detect_conflicts (binding : Binding.t) (ignore : list string)
    (self : t) : result (list Binding.t) :=
  conflicts_among binding ignore
    (elements (bucket_of (Binding.mode binding)
                 (Binding.key_signature binding) self))
    self.

Definition _index_binding (binding : Binding.t) (self : t) : t :=
  let by_signature := default ∅ (_mode_index self !! Binding.mode binding) in
  let bucket := default ∅ (by_signature !! Binding.key_signature binding) in
  set_mode_index
    (<[Binding.mode binding :=
         <[Binding.key_signature binding := {[Binding.id binding]} ∪ bucket]>
           by_signature]> (_mode_index self))
    self.

Definition _remove_binding (binding : Binding.t) (self : t) : t :=
  match _mode_index self !! Binding.mode binding with
  | None => self
  | Some mode_bucket =>
      if bool_decide (mode_bucket = ∅) then self
      else
        match mode_bucket !! Binding.key_signature binding with
        | None => self
        | Some signatures =>
            if bool_decide (signatures = ∅) then self
            else
              let signatures := signatures ∖ {[Binding.id binding]} in
              let mode_bucket :=
                if bool_decide (signatures = ∅)
                then delete (Binding.key_signature binding) mode_bucket
                else <[Binding.key_signature binding := signatures]>
                       mode_bucket in
              set_mode_index
                (if bool_decide (mode_bucket = ∅)
                 then delete (Binding.mode binding) (_mode_index self)
                 else <[Binding.mode binding := mode_bucket]>
                        (_mode_index self))
                self
        end
  end.

Definition _touch_bindings (self : t) : t :=
  {| _actions := _actions self; _bindings := _bindings self;
     _mode_index := _mode_index self; _revision := _revision self + 1 |}.

Definition _update_binding_in_place (current updated : Binding.t) (self : t)
    : t :=
  let self := _remove_binding current self in
  let self := set_bindings (<[Binding.id current := updated]> (_bindings self))
                self in
  _index_binding updated self.

(** [self._remove_binding(b); self._bindings.pop(b.id, None)]. *)
Definition drop_binding (b : Binding.t) (self : t) : t :=
  let self := _remove_binding b self in
  set_bindings (delete (Binding.id b) (_bindings self)) self.

Definition register_binding (binding : Binding.t) (replace : bool)
    : M t Binding.t :=
  self ← get;
  if bool_decide (_actions self !! Binding.action_id binding = None) then
    raise (KeyError (Binding.action_id binding))
  else
    conflicts ← lift (detect_conflicts binding [] self);
    if negb (bool_decide (conflicts = [])) && negb replace then
      raise (KeymapConflictError (Binding.id binding)
               (Binding.id <$> conflicts))
    else
      (if replace then
         modify (λ self, foldl (λ s conflict, drop_binding conflict s)
                           self conflicts);;
         self ← get;
         match _bindings self !! Binding.id binding with
         | Some existing => modify (drop_binding existing)
         | None => mret tt
         end
       else
         self ← get;
         if bool_decide (is_Some (_bindings self !! Binding.id binding))
         then raise (ValueError (Binding.id binding))
         else mret tt);;
      modify (λ self,
        set_bindings (<[Binding.id binding := binding]> (_bindings self)) self);;
      modify (_index_binding binding);;
      modify _touch_bindings;;
      mret binding.

Definition unregister_binding (binding_id : string)
    : M t (option Binding.t) :=
  self ← get;
  match _bindings self !! binding_id with
  | None => mret None
  | Some binding =>
      modify (λ self, set_bindings (delete binding_id (_bindings self)) self);;
      modify (_remove_binding binding);;
      modify _touch_bindings;;
      mret (Some binding)
  end.

Definition update_binding (binding_id : string) (changes : Binding.changes)
    : M t Binding.t :=
  self ← get;
  match _bindings self !! binding_id with
  | None => raise (KeyError binding_id)
  | Some current =>
      updated ← lift (Binding.replace current changes);
      if bool_decide (_actions self !! Binding.action_id updated = None) then
        raise (KeyError (Binding.action_id updated))
      else
        modify (_remove_binding current);;
        self ← get;
        conflicts ← lift (detect_conflicts updated [] self);
        if negb (bool_decide (conflicts = [])) then
          modify (_index_binding current);;
          raise (KeymapConflictError (Binding.id updated)
                   (Binding.id <$> conflicts))
        else
          modify (λ self,
            set_bindings (<[binding_id := updated]> (_bindings self)) self);;
          modify (_index_binding updated);;
          modify _touch_bindings;;
          mret updated
  end.

(** The loop of [iter_bindings(mode)] over the ids of one bucket. *)
Fixpoint bindings_of (ids : list string) (self : t) : result (list Binding.t) :=
  match ids with
  | [] => Ok []
  | binding_id :: rest =>
      match _bindings self !! binding_id with
      | None => Raise (KeyError binding_id)
      | Some binding =>
          bindings ← bindings_of rest self;
          mret (binding :: bindings)
      end
  end.

(** [iter_bindings], run to its end. *)
Definition iter_bindings (mode : option string) (self : t)
    : result (list Binding.t) :=
  match mode with
  | None => Ok (snd <$> map_to_list (_bindings self))
  | Some mode =>
      bindings_of
        (mjoin ((λ kv : string * gset string, elements kv.2)
                  <$> map_to_list (default ∅ (_mode_index self !! mode))))
        self
  end.

(** [[self.get_binding(binding_id) for binding_id in binding_ids]]. *)
Fixpoint get_bindings (binding_ids : list string) (self : t)
    : result (list Binding.t) :=
  match binding_ids with
  | [] => Ok []
  | binding_id :: rest =>
      binding ← get_binding binding_id self;
      bindings ← get_bindings rest self;
      mret (binding :: bindings)
  end.

Definition override_sequence_timeouts (timeout_ms : Z) (mode : option string)
    (binding_ids : option (list string)) : M t unit :=
  if (timeout_ms <=? 0)%Z then raise (ValueError "timeout_ms must be positive")
  else
    self ← get;
    targets ← lift (match binding_ids with
                    | Some binding_ids => get_bindings binding_ids self
                    | None => iter_bindings mode self
                    end);
    match targets with
    | [] => mret tt
    | _ =>
        modify (λ self,
          foldl (λ s binding,
                   let updated_sequence :=
                     KeySequence.mk
                       (KeySequence.strokes (Binding.sequence binding))
                       timeout_ms in
                   let updated :=
                     Binding.mk (Binding.id binding) (Binding.mode binding)
                       updated_sequence (Binding.action_id binding)
                       (Binding.description binding) (Binding.when binding)
                       (Binding.priority binding) in
                   _update_binding_in_place binding updated s)
                self targets);;
        modify _touch_bindings
    end.

End KeymapRegistry.

(** ** keymaps/resolver.py *)

(** [children] is the dict of the node, kept as the insertion-ordered
    list of its items (the keys are distinct). *)
#[warnings="-register-all"]
Inductive TrieNode : Type :=
| Node (bindings : list string) (children : list (string * TrieNode)).

Definition node_bindings (n : TrieNode) : list string :=
  match n with Node bs _ => bs end.

Definition node_children (n : TrieNode) : list (string * TrieNode) :=
  match n with Node _ cs => cs end.

(** [node.children.get(token)]. *)
Fixpoint children_get (token : string) (children : list (string * TrieNode))
    : option TrieNode :=
  match children with
  | [] => None
  | (k, n) :: rest =>
      if bool_decide (k = token) then Some n else children_get token rest
  end.

(** The child under [token] ([setdefault] creates it), replaced by [f] of
    it. *)
Fixpoint with_child (token : string) (f : TrieNode → TrieNode)
    (children : list (string * TrieNode)) : list (string * TrieNode) :=
  match children with
  | [] => [(token, f (Node [] []))]
  | (k, n) :: rest =>
      if bool_decide (k = token) then (k, f n) :: rest
      else (k, n) :: with_child token f rest
  end.

(** Insertion sort of strings, for [sorted]. *)
Fixpoint insert_sorted (x : string) (l : list string) : list string :=
  match l with
  | [] => [x]
  | y :: rest => if String.leb x y then x :: l else y :: insert_sorted x rest
  end.

Definition sorted (l : list string) : list string :=
  foldr insert_sorted [] l.

Definition next_tokens (n : TrieNode) : list string :=
  sorted (fst <$> node_children n).

(** [KeymapTrie.add_binding], from the node reached so far. *)
Fixpoint add_tokens (tokens : list string) (binding_id : string)
    (node : TrieNode) : TrieNode :=
  match tokens with
  | [] => Node (node_bindings node ++ [binding_id]) (node_children node)
  | token :: rest =>
      Node (node_bindings node)
           (with_child token (add_tokens rest binding_id) (node_children node))
  end.

Record KeymapTrie : Type := mkKeymapTrie {
  trie_mode : string;
  root : TrieNode;
}.

Definition add_binding (binding : Binding.t) (self : KeymapTrie) : KeymapTrie :=
  {| trie_mode := trie_mode self;
     root := add_tokens (KeySequence.tokens (Binding.sequence binding))
               (Binding.id binding) (root self) |}.

Record ResolutionMatch : Type := mkResolutionMatch {
  match_binding : Binding.t;
  match_action : ActionRef.t;
}.

Inductive Status : Type := Match | Pending | Miss.

Record ResolutionResult : Type := mkResolutionResult {
  status : Status;
  match_ : option ResolutionMatch;
  consumed : Z;
  next_expected : list string;
  timeout_ms : option Z;
}.

(** The ids of the bindings below a node, in the order the stack of
    [_pending_timeout] pops them: last child first, a child before its own
    children. *)
Fixpoint ids_from (n : TrieNode) : list string :=
  match n with
  | Node bs cs =>
      bs ++ (fix below (cs : list (string * TrieNode)) : list string :=
               match cs with
               | [] => []
               | (_, c) :: rest => below rest ++ ids_from c
               end) cs
  end.

Definition ids_below (n : TrieNode) : list string :=
  mjoin (ids_from <$> reverse (snd <$> node_children n)).

(** [min] of a non-empty list of integers, [None] on the empty one. *)
Definition min_timeout (timeouts : list Z) : option Z :=
  match timeouts with
  | [] => None
  | t :: rest => Some (foldl Z.min t rest)
  end.

(** The sort key [(-priority, id)] of a match, compared as tuples. *)
Definition match_before (a b : ResolutionMatch) : bool :=
  let pa := (- Binding.priority (match_binding a))%Z in
  let pb := (- Binding.priority (match_binding b))%Z in
  (pa <? pb)%Z
  || ((pa =? pb)%Z
      && String.ltb (Binding.id (match_binding a)) (Binding.id (match_binding b))).

(** The first element of the stably sorted list: the earliest match among
    those of least key. *)
Definition first_sorted (matches : list ResolutionMatch)
    : option ResolutionMatch :=
  match matches with
  | [] => None
  | m :: rest =>
      Some (foldl (λ best x, if match_before x best then x else best) m rest)
  end.

Module KeymapResolver.

(** The resolver holds a reference to the registry, which others mutate;
    its own state is the cache, and every method takes the registry as it
    is at the call. *)
Record t : Type := mk {
  _cache : gmap string (Z * KeymapTrie);
}.

Definition init : t := {| _cache := ∅ |}.

Definition reset (mode : option string) (self : t) : t :=
  match mode with
  | None => {| _cache := ∅ |}
  | Some mode => {| _cache := delete mode (_cache self) |}
  end.

(** The trie of a mode, built from the registry. *)
Definition build_trie (registry : KeymapRegistry.t) (mode : string)
    : result KeymapTrie :=
  bindings ← KeymapRegistry.iter_bindings (Some mode) registry;
  mret (foldl (λ trie binding, add_binding binding trie)
              (mkKeymapTrie mode (Node [] [])) bindings).

Definition _ensure_trie (registry : KeymapRegistry.t) (mode : string)
    : M t KeymapTrie :=
  let revision := KeymapRegistry.revision registry in
  self ← get;
  match _cache self !! mode with
  | Some (cached_revision, cached_trie) =>
      if (cached_revision =? revision)%Z then mret cached_trie
      else
        trie ← lift (build_trie registry mode);
        modify (λ self, {| _cache := <[mode := (revision, trie)]> (_cache self) |});;
        mret trie
  | None =>
      trie ← lift (build_trie registry mode);
      modify (λ self, {| _cache := <[mode := (revision, trie)]> (_cache self) |});;
      mret trie
  end.

(** The loop of [_select_match] over [node.bindings]. *)
Fixpoint allowed_matches (registry : KeymapRegistry.t)
    (context : gmap string bool) (ids : list string)
    : result (list ResolutionMatch) :=
  match ids with
  | [] => Ok []
  | binding_id :: rest =>
      binding ← KeymapRegistry.get_binding binding_id registry;
      if negb (Binding.allows context binding) then
        allowed_matches registry context rest
      else
        action ← KeymapRegistry.get_action (Binding.action_id binding) registry;
        matches ← allowed_matches registry context rest;
        mret (mkResolutionMatch binding action :: matches)
  end.

Definition _select_match (registry : KeymapRegistry.t) (node : TrieNode)
    (context : gmap string bool) : result (option ResolutionMatch) :=
  match node_bindings node with
  | [] => Ok None
  | ids =>
      matches ← allowed_matches registry context ids;
      mret (first_sorted matches)
  end.

(** The loop of [_pending_timeout] over the popped nodes' bindings. *)
Fixpoint timeouts_of (registry : KeymapRegistry.t) (ids : list string)
    : result (list Z) :=
  match ids with
  | [] => Ok []
  | binding_id :: rest =>
      binding ← KeymapRegistry.get_binding binding_id registry;
      timeouts ← timeouts_of registry rest;
      mret (KeySequence.timeout_ms (Binding.sequence binding) :: timeouts)
  end.

Definition _pending_timeout (registry : KeymapRegistry.t) (node : TrieNode)
    : result (option Z) :=
  timeouts ← timeouts_of registry (ids_below node);
  mret (min_timeout timeouts).

(** The walk of [resolve] down the trie: the node reached after all the
    tokens, or the number of tokens consumed before the first one without
    a child. *)
Fixpoint walk (node : TrieNode) (tokens : list string) (consumed : Z)
    : TrieNode * Z + Z :=
  match tokens with
  | [] => inl (node, consumed)
  | token :: rest =>
      match children_get token (node_children node) with
      | None => inr consumed
      | Some child => walk child rest (consumed + 1)
      end
  end.

(** [resolve] once the trie is at hand. *)
Definition resolve_in (registry : KeymapRegistry.t) (trie : KeymapTrie)
    (tokens : list string) (context : gmap string bool)
    : result ResolutionResult :=
  match walk (root trie) tokens 0 with
  | inr consumed => Ok (mkResolutionResult Miss None consumed [] None)
  | inl (node, consumed) =>
      match_ ← _select_match registry node context;
      match match_ with
      | Some m => mret (mkResolutionResult Match (Some m) consumed [] None)
      | None =>
          match next_tokens node with
          | [] => mret (mkResolutionResult Miss None consumed [] None)
          | next_expected =>
              timeout_ms ← _pending_timeout registry node;
              mret (mkResolutionResult Pending None consumed next_expected
                      timeout_ms)
          end
      end
  end.

Definition resolve (registry : KeymapRegistry.t) (mode : string)
    (tokens : list string) (context : gmap string bool)
    : M t ResolutionResult :=
  trie ← _ensure_trie registry mode;
  lift (resolve_in registry trie tokens context).

End KeymapResolver.

(** ** modes/operator_pipeline.py *)

Record ExecutionPlan : Type := mkExecutionPlan {
  operator_id : string;
  motion_id : option string;
  plan_count : option Z;
  register_name : string;
  raw_input : list string;
}.

Record OperatorDraft : Type := mkOperatorDraft {
  count : option Z;
  motion : option string;
  operator : option string;
  raw_keys : list string;
}.

(** [OperatorDraft()]. *)
Definition empty_draft : OperatorDraft := mkOperatorDraft None None None [].

(** Truth value of an optional string: [None] and the empty string are
    false. *)
Definition truthy (s : option string) : bool :=
  match s with
  | Some s => negb (bool_decide (s = EmptyString))
  | None => false
  end.

(** [str.isdigit] and [int] are built-ins over Unicode tables; the parsers
    take them as arguments. [int_ s] is [Raise (ValueError _)] where
    [int(s)] raises. *)

Module CountParser.

Section parse.
Variable isdigit : string → bool.
Variable int_ : string → result Z.

(** The leading run of keys for which [key.isdigit()] holds. *)
Fixpoint leading_digits (keys : list string) : list string :=
  match keys with
  | key :: rest => if isdigit key then key :: leading_digits rest else []
  | [] => []
  end.

(** The remaining keys and the draft. *)
Definition parse (keys : list string) (draft : OperatorDraft)
    : result (list string * OperatorDraft) :=
  let digits := leading_digits keys in
  let draft := mkOperatorDraft (count draft) (motion draft) (operator draft)
                 (raw_keys draft ++ digits) in
  match digits with
  | [] => Ok (keys, draft)
  | _ =>
      n ← int_ (String.concat EmptyString digits);
      mret (slice_from keys (len digits),
            mkOperatorDraft (Some n) (motion draft) (operator draft)
              (raw_keys draft))
  end.

End parse.

End CountParser.

Module MotionParser.

Definition parse (keys : list string) (draft : OperatorDraft)
    : list string * OperatorDraft :=
  match keys with
  | [] => (keys, draft)
  | key :: rest =>
      (rest,
       mkOperatorDraft (count draft) (Some key) (operator draft)
         (raw_keys draft ++ [key]))
  end.

End MotionParser.

Module OperatorResolver.

Definition resolve (keys : list string) (draft : OperatorDraft)
    : option ExecutionPlan :=
  if bool_decide (keys = []) && negb (truthy (motion draft)) then None
  else
    let operator' := match keys with
                     | key :: _ => Some key
                     | [] => operator draft
                     end in
    match operator' with
    | None => None
    | Some op =>
        let raw := raw_keys draft ++ keys in
        Some {| operator_id := op;
                motion_id := motion draft;
                plan_count := count draft;
                register_name := unnamed_register;
                raw_input := raw |}
    end.

End OperatorResolver.

Module OperatorPipeline.

Definition parse (isdigit : string → bool) (int_ : string → result Z)
    (keys : list string) : result (option ExecutionPlan) :=
  let draft := empty_draft in
  '(remaining, draft) ← CountParser.parse isdigit int_ keys draft;
  let '(remaining, draft) := MotionParser.parse remaining draft in
  mret (OperatorResolver.resolve remaining draft).

End OperatorPipeline.

(** ** modes/base_mode.py *)

Module KeyInput.

Record t : Type := mk {
  key : string;
  modifiers : list string;
  text : option string;
}.

End KeyInput.

Module ModeResult.

Record t : Type := mk {
  consumed : bool;
  switch_to : option string;
  status : string;
  message : option string;
  timeout_ms : option Z;
}.

(** [ModeResult(consumed=..., status=...)], the rest at its default. *)
Definition of_status (consumed : bool) (status : string) : t :=
  mk consumed None status None None.

End ModeResult.

(** ** modes/command_mode.py *)

Module CommandMode.

(** The mode, with what it reaches through its context: the ["text"] entry
    of [extras["command_state"]] and the events emitted on the bus, oldest
    first. *)
Record t : Type := mk {
  _pending : list string;
  _typed : list string;
  command_state_text : string;
  emitted : list (string * string);
}.

Definition current_command (self : t) : string :=
  String.concat EmptyString (_typed self).

Definition set_typed (typed : list string) (self : t) : t :=
  {| _pending := _pending self; _typed := typed;
     command_state_text := command_state_text self;
     emitted := emitted self |}.

Definition _sync_command_state (self : t) : t :=
  {| _pending := _pending self; _typed := _typed self;
     command_state_text := current_command self;
     emitted := emitted self |}.

Definition emit (event payload : string) (self : t) : t :=
  {| _pending := _pending self; _typed := _typed self;
     command_state_text := command_state_text self;
     emitted := emitted self ++ [(event, payload)] |}.

(** [self._typed.pop()] on a non-empty list. *)
Definition pop (typed : list string) : list string :=
  take (length typed - 1) typed.

Definition _handle_text_input (key : KeyInput.t) (self : t)
    : ModeResult.t * t :=
  if bool_decide (KeyInput.key key ∈ ["ESC"; "<Esc>"]) then
    let self := _sync_command_state (set_typed [] self) in
    (ModeResult.mk true (Some "normal") "ok" (Some "command_cancel") None, self)
  else if bool_decide (KeyInput.key key ∈ ["ENTER"; "RETURN"]) then
    let command := current_command self in
    let self := emit "command.submit" command self in
    let self := _sync_command_state (set_typed [] self) in
    (ModeResult.mk true (Some "normal") "command_submit" (Some command) None,
     self)
  else if bool_decide (KeyInput.key key = "BACKSPACE")
          && negb (bool_decide (_typed self = [])) then
    let self := _sync_command_state (set_typed (pop (_typed self)) self) in
    (ModeResult.of_status true "editing", self)
  else if truthy (KeyInput.text key) then
    let self :=
      _sync_command_state
        (set_typed (_typed self ++ [default EmptyString (KeyInput.text key)])
           self) in
    (ModeResult.of_status true "editing", self)
  else
    (ModeResult.mk false None "miss" (Some "unhandled") None, self).

End CommandMode.

(** ** modes/mode_manager.py *)

(** [deadline] is kept in milliseconds of the monotonic clock. *)
Record PendingTimeout : Type := mkPendingTimeout {
  deadline : Z;
  pending_timeout_ms : Z;
  generation : Z;
}.

(** [timeout_ms / 1000.0] converts the [int] to a float before it
    divides; the conversion raises [OverflowError] from the magnitude
    that rounds beyond the largest double, [2 ** 1024 - 2 ** 970], on. *)
Definition converts_to_float (n : Z) : bool :=
  (Z.abs n <? 2 ^ 1024 - 2 ^ 970)%Z.

(** A mode is the record of its methods over [W], what the modes act on:
    the shared [ModeContext] and the private state of every mode. *)
Module Mode.

Record t {W : Type} : Type := mk {
  name : string;
  on_enter : option string → M W unit;
  on_exit : option string → M W unit;
  handle_key : KeyInput.t → M W ModeResult.t;
  handle_timeout : M W ModeResult.t;
}.
Arguments t : clear implicits.

End Mode.

Module ModeManager.

Section manager.
Context {W : Type}.

(** [context] is the world of the modes; [monotonic] is the reading of
    [time.monotonic()], in milliseconds. *)
Record t : Type := mk {
  context : W;
  _modes : gmap string (Mode.t W);
  _active : option string;
  _pending_timeouts : gmap string PendingTimeout;
  _timer_counter : Z;
  monotonic : Z;
}.

Definition set_context (w : W) (self : t) : t :=
  mk w (_modes self) (_active self) (_pending_timeouts self)
    (_timer_counter self) (monotonic self).

Definition set_modes (modes : gmap string (Mode.t W)) (self : t) : t :=
  mk (context self) modes (_active self) (_pending_timeouts self)
    (_timer_counter self) (monotonic self).

Definition set_active (name : string) (self : t) : t :=
  mk (context self) (_modes self) (Some name) (_pending_timeouts self)
    (_timer_counter self) (monotonic self).

(** A method of a mode, run on the context of the manager. *)
Definition in_context {A} (c : M W A) : M t A := λ self,
  let '(r, w) := c (context self) in (r, set_context w self).

Definition active_mode (self : t) : option (Mode.t W) :=
  match _active self with
  | None => None
  | Some name => _modes self !! name
  end.

(** The counter is incremented first; the division that gives the
    deadline may raise, and then no timer is stored. *)
Definition arm_timeout (mode_name : string) (timeout_ms : Z) : M t unit :=
  modify (λ self,
    mk (context self) (_modes self) (_active self) (_pending_timeouts self)
      (_timer_counter self + 1) (monotonic self));;
  if converts_to_float timeout_ms then
    modify (λ self,
      let deadline := (monotonic self + timeout_ms)%Z in
      mk (context self) (_modes self) (_active self)
        (<[mode_name :=
             mkPendingTimeout deadline timeout_ms (_timer_counter self)]>
           (_pending_timeouts self))
        (_timer_counter self) (monotonic self))
  else raise (OverflowError "int too large to convert to float").

Definition cancel_timeout (mode_name : string) : M t unit :=
  modify (λ self,
    mk (context self) (_modes self) (_active self)
      (delete mode_name (_pending_timeouts self))
      (_timer_counter self) (monotonic self)).

(** [register_mode], given the mode its class constructs. *)
Definition register_mode (mode : Mode.t W) : M t (Mode.t W) :=
  self ← get;
  if bool_decide (is_Some (_modes self !! Mode.name mode)) then
    raise (ValueError (Mode.name mode))
  else
    modify (λ self, set_modes (<[Mode.name mode := mode]> (_modes self)) self);;
    (match _active self with
     | None =>
         modify (set_active (Mode.name mode));;
         in_context (Mode.on_enter mode None)
     | Some _ => mret tt
     end);;
    mret mode.

Definition switch_mode (name : string) : M t unit :=
  self ← get;
  match _modes self !! name with
  | None => raise (KeyError name)
  | Some next =>
      let previous := active_mode self in
      if bool_decide (Mode.name <$> previous = Some name) then mret tt
      else
        (match previous with
         | Some previous =>
             cancel_timeout (Mode.name previous);;
             in_context (Mode.on_exit previous (Some name))
         | None => mret tt
         end);;
        modify (set_active name);;
        in_context (Mode.on_enter next (Mode.name <$> previous));;
        cancel_timeout name
  end.

Definition _after_mode_result (mode : Mode.t W) (result : ModeResult.t)
    : M t ModeResult.t :=
  (match ModeResult.timeout_ms result with
   | Some timeout_ms =>
       if bool_decide (timeout_ms ≠ 0%Z)
       then arm_timeout (Mode.name mode) timeout_ms
       else cancel_timeout (Mode.name mode)
   | None => cancel_timeout (Mode.name mode)
   end);;
  (match ModeResult.switch_to result with
   | Some name =>
       if bool_decide (name ≠ EmptyString) then switch_mode name else mret tt
   | None => mret tt
   end);;
  mret result.

Definition handle_key (key : KeyInput.t) : M t ModeResult.t :=
  self ← get;
  match active_mode self with
  | None => raise (RuntimeError "No active mode registered")
  | Some mode =>
      result ← in_context (Mode.handle_key mode key);
      _after_mode_result mode result
  end.

Definition _trigger_timeout (mode_name : string) (generation' : Z)
    : M t ModeResult.t :=
  self ← get;
  match _pending_timeouts self !! mode_name with
  | None => mret (ModeResult.of_status false "timeout")
  | Some timer =>
      if bool_decide (generation timer ≠ generation') then
        mret (ModeResult.of_status false "timeout")
      else
        cancel_timeout mode_name;;
        match _modes self !! mode_name with
        | None => mret (ModeResult.of_status false "timeout")
        | Some mode =>
            result ← in_context (Mode.handle_timeout mode);
            _after_mode_result mode result
        end
  end.

(** The loops of [process_timeouts] and [force_timeout] over the timers
    taken at their start. *)
Fixpoint trigger_each (timers : list (string * PendingTimeout))
    (results : gmap string ModeResult.t) : M t (gmap string ModeResult.t) :=
  match timers with
  | [] => mret results
  | (name, timer) :: rest =>
      result ← _trigger_timeout name (generation timer);
      trigger_each rest (<[name := result]> results)
  end.

Definition process_timeouts : M t (gmap string ModeResult.t) :=
  self ← get;
  let now := monotonic self in
  let expired :=
    filter (λ '(_, timer), (deadline timer ≤ now)%Z)
           (map_to_list (_pending_timeouts self)) in
  trigger_each expired ∅.

Definition force_timeout (mode_name : option string)
    : M t (gmap string ModeResult.t) :=
  self ← get;
  match mode_name with
  | Some mode_name =>
      match _pending_timeouts self !! mode_name with
      | None => mret ∅
      | Some timer =>
          result ← _trigger_timeout mode_name (generation timer);
          mret {[ mode_name := result ]}
      end
  | None => trigger_each (map_to_list (_pending_timeouts self)) ∅
  end.

End manager.

Arguments t : clear implicits.

End ModeManager.

(** Further methods of [RegisterBank] (buffer/registers.py). *)
Module RegisterBankStore.

(** [serialize]: a copy of the dict of registers. *)
Definition serialize (self : RegisterBank.t) : gmap string RegisterValue :=
  RegisterBank._registers self.

(** [load]: [dict.update] with a copy of every value of [data]. *)
Definition load (data : gmap string RegisterValue) (self : RegisterBank.t)
    : RegisterBank.t :=
  {| RegisterBank._registers :=
       ((λ v, mkRegisterValue (rv_text v) (rv_type v)) <$> data)
       ∪ RegisterBank._registers self |}.

End RegisterBankStore.

(* ================================================================== *)
(** * Properties *)

(** ** Monad plumbing *)

Lemma M_bind_unfold {S A B} (c : M S A) (k : A → M S B) (s : S) :
  (c ≫= k) s =
  match c s with
  | (Ok a, s') => k a s'
  | (Raise e, s') => (Raise e, s')
  end.
Proof. reflexivity. Qed.

Lemma len_nonneg {A} (l : list A) : (0 ≤ len l)%Z.
Proof. unfold len. lia. Qed.

Lemma len_app {A} (l k : list A) : len (l ++ k) = (len l + len k)%Z.
Proof. unfold len. rewrite length_app. lia. Qed.

Lemma py_index_inrange {A} (l : list A) (i : Z) :
  (0 ≤ i < len l)%Z → ∃ a, l !! Z.to_nat i = Some a ∧ py_index l i = Ok a.
Proof.
  intros Hi. unfold py_index.
  destruct (i <? 0)%Z eqn:H1; [apply Z.ltb_lt in H1; lia|].
  rewrite H1.
  destruct (l !! Z.to_nat i) as [a|] eqn:Hl; [eauto|].
  apply lookup_ge_None in Hl. unfold len in Hi. lia.
Qed.

(** ** The undo timeline *)

Section undo_timeline.
Import UndoTimeline.

Lemma wf_init : wf init.
Proof. unfold wf, init, len. simpl. lia. Qed.

Lemma wf_push e s : wf (push e s).
Proof.
  unfold wf, push. simpl. rewrite !len_app.
  pose proof (len_nonneg (_entries s)).
  destruct (_ <? _)%Z;
    [pose proof (len_nonneg (slice_to (_entries s) (_index s + 1)))|];
    unfold len at 2 3; simpl; unfold len in *; lia.
Qed.

Lemma wf_undo s : wf s → wf (undo s).2.
Proof.
  unfold wf, undo, can_undo. intros Hs.
  destruct (0 <=? _index s)%Z eqn:H0; simpl; [|done].
  apply Z.leb_le in H0.
  destruct (py_index_inrange (_entries s) (_index s)) as (a & _ & ->); [lia|].
  simpl. lia.
Qed.

Lemma wf_redo s : wf s → wf (redo s).2.
Proof.
  unfold wf, redo, can_redo. intros Hs.
  destruct (_index s <? len (_entries s) - 1)%Z eqn:H0; simpl; [|done].
  apply Z.ltb_lt in H0.
  destruct (py_index_inrange (_entries s) (_index s + 1)) as (a & _ & ->);
    [lia|].
  simpl. lia.
Qed.

Lemma reachable_wf s : reachable s → wf s.
Proof.
  induction 1; auto using wf_init, wf_push, wf_undo, wf_redo.
Qed.

End undo_timeline.

Section undo_timeline_claim.
Import UndoTimeline.

Lemma slice_to_nonneg {A} (l : list A) (i : Z) :
  (0 ≤ i ≤ len l)%Z → slice_to l i = take (Z.to_nat i) l.
Proof.
  intros Hi. unfold slice_to, py_bound.
  destruct (i <? 0)%Z eqn:H0; [apply Z.ltb_lt in H0; lia|].
  by rewrite Z.min_l by lia.
Qed.

Lemma redo_push e s : redo (push e s) = (Ok None, push e s).
Proof.
  unfold redo, can_redo.
  replace (_index (push e s)) with (len (_entries (push e s)) - 1)%Z
    by reflexivity.
  by rewrite Z.ltb_irrefl.
Qed.

(** C6. On a timeline whose index is [-1] or points at an entry (every
    timeline built through [push], [undo] and [redo] is one):
    - a [push] made while entries lie beyond the index keeps the entries up
      to the index, appends the new one, and leaves nothing to redo;
    - [undo] returns [None] exactly when the index is negative, and
      otherwise returns the entry at the index and moves the index back;
    - [redo] returns [None] exactly when the index is at the last entry,
      and otherwise moves the index forward and returns the entry there. *)
Theorem undo_timeline_linear (s : t) (e : UndoEntry) :
  wf s →
  ((_index s < len (_entries s) - 1)%Z →
     _entries (push e s) = take (Z.to_nat (_index s + 1)) (_entries s) ++ [e]
     ∧ _index (push e s) = (_index s + 1)%Z
     ∧ redo (push e s) = (Ok None, push e s))
  ∧ ((_index s < 0)%Z → undo s = (Ok None, s))
  ∧ ((0 ≤ _index s)%Z →
       ∃ entry, _entries s !! Z.to_nat (_index s) = Some entry
         ∧ undo s = (Ok (Some entry), mk (_entries s) (_index s - 1)))
  ∧ ((_index s = len (_entries s) - 1)%Z → redo s = (Ok None, s))
  ∧ ((_index s < len (_entries s) - 1)%Z →
       ∃ entry, _entries s !! Z.to_nat (_index s + 1) = Some entry
         ∧ redo s = (Ok (Some entry), mk (_entries s) (_index s + 1))).
Proof.
  intros Hwf. unfold wf in Hwf. repeat split.
  - unfold push. simpl. apply Z.ltb_lt in H. rewrite H.
    apply Z.ltb_lt in H. by rewrite slice_to_nonneg by lia.
  - unfold push. simpl. pose proof H as H'. apply Z.ltb_lt in H'. rewrite H'.
    rewrite slice_to_nonneg by lia. rewrite len_app. unfold len.
    rewrite length_take. simpl. unfold len in *. lia.
  - apply redo_push.
  - intros Hneg. unfold undo, can_undo.
    destruct (0 <=? _index s)%Z eqn:H0; [apply Z.leb_le in H0; lia|done].
  - intros Hpos. unfold undo, can_undo.
    destruct (0 <=? _index s)%Z eqn:H0; [|apply Z.leb_gt in H0; lia].
    destruct (py_index_inrange (_entries s) (_index s)) as (a & Ha & ->);
      [lia|]. eauto.
  - intros Hlast. unfold redo, can_redo. rewrite Hlast, Z.ltb_irrefl.
    by destruct s.
  - intros Hlt. unfold redo, can_redo.
    pose proof Hlt as H'. apply Z.ltb_lt in H'. rewrite H'. simpl.
    destruct (py_index_inrange (_entries s) (_index s + 1)) as (a & Ha & ->);
      [lia|]. eauto.
Qed.

Definition entry_a : UndoEntry :=
  mkUndoEntry "insert_text" [] [97%N] (0, 0)%Z (0, 1)%Z.
Definition entry_b : UndoEntry :=
  mkUndoEntry "insert_text" [97%N] [97%N; 98%N] (0, 1)%Z (0, 2)%Z.
Definition entry_c : UndoEntry :=
  mkUndoEntry "insert_text" [97%N] [97%N; 99%N] (0, 1)%Z (0, 2)%Z.

(** Two edits, one undo. *)
Definition timeline_after_undo : t := (undo (push entry_b (push entry_a init))).2.

Lemma undo_timeline_linear_witness :
  wf timeline_after_undo
  ∧ _entries (push entry_c timeline_after_undo) = [entry_a; entry_c]
  ∧ redo (push entry_c timeline_after_undo)
    = (Ok None, push entry_c timeline_after_undo).
Proof.
  assert (Hwf : wf timeline_after_undo) by (vm_compute; split; [intros H; discriminate H | reflexivity]).
  split; [exact Hwf|].
  destruct (undo_timeline_linear timeline_after_undo entry_c Hwf)
    as (Hpush & _).
  destruct Hpush as (He & _ & Hr); [vm_compute; reflexivity|].
  split; [exact He | exact Hr].
Defined.

End undo_timeline_claim.

(** ** The mutation primitive [Buffer.replace_range] *)

(** A cursor within the document: row in [[0, line_count)], column in
    [[0, len(line)]]. *)
Definition in_bounds (document : BufferDocument.t) (cursor : Cursor) : bool :=
  (0 <=? cursor.1)%Z && (cursor.1 <? BufferDocument.line_count document)%Z
  && match BufferDocument._lines document !! Z.to_nat cursor.1 with
     | Some line => (0 <=? cursor.2)%Z && (cursor.2 <=? len line)%Z
     | None => false
     end.

Section replace_range.
Import Buffer.

Lemma ensure_cursor_in_bounds doc c :
  in_bounds doc c = true → ensure_cursor doc c = Ok c.
Proof.
  destruct c as [row col]. unfold in_bounds, ensure_cursor. simpl.
  intros H. apply andb_prop in H as [H H0]. apply andb_prop in H as [H H1].
  apply Z.leb_le in H. apply Z.ltb_lt in H1.
  destruct (row <? 0)%Z eqn:E1; [apply Z.ltb_lt in E1; lia|].
  destruct (BufferDocument.line_count doc <=? row)%Z eqn:E2;
    [apply Z.leb_le in E2; lia|]. simpl.
  unfold BufferDocument.get_line, BufferDocument.line_count in *.
  destruct (py_index_inrange (BufferDocument._lines doc) row) as (l & Hl & ->);
    [lia|].
  rewrite Hl in H0. apply andb_prop in H0 as [H2 H3].
  apply Z.leb_le in H2, H3.
  destruct (col <? 0)%Z eqn:E3; [apply Z.ltb_lt in E3; lia|].
  destruct (len l <? col)%Z eqn:E4; [apply Z.ltb_lt in E4; lia|]. done.
Qed.

Lemma ensure_cursor_out_of_bounds doc c :
  in_bounds doc c = false →
  ∃ msg, ensure_cursor doc c = Raise (BufferValidationError msg c).
Proof.
  destruct c as [row col]. unfold in_bounds, ensure_cursor. simpl.
  intros H.
  destruct (row <? 0)%Z eqn:E1; [eauto|].
  destruct (BufferDocument.line_count doc <=? row)%Z eqn:E2; [eauto|]. simpl.
  apply Z.ltb_ge in E1. apply Z.leb_gt in E2.
  unfold BufferDocument.get_line, BufferDocument.line_count in *.
  destruct (py_index_inrange (BufferDocument._lines doc) row) as (l & Hl & ->);
    [lia|].
  rewrite Hl in H.
  destruct (0 <=? row)%Z eqn:E3; [|apply Z.leb_gt in E3; lia].
  destruct (row <? _)%Z eqn:E4; [|apply Z.ltb_ge in E4; lia]. simpl in H.
  destruct (col <? 0)%Z eqn:E5; [eauto|].
  destruct (len l <? col)%Z eqn:E6; [eauto|].
  apply Z.ltb_ge in E5, E6.
  destruct (0 <=? col)%Z eqn:E7; [|apply Z.leb_gt in E7; lia].
  destruct (col <=? _)%Z eqn:E8; [|apply Z.leb_gt in E8; lia]. done.
Qed.

Lemma ensure_cursor_Ok doc c c' :
  ensure_cursor doc c = Ok c' → c' = c ∧ in_bounds doc c = true.
Proof.
  intros H. destruct (in_bounds doc c) eqn:Hb.
  - rewrite ensure_cursor_in_bounds in H by done. by inversion H.
  - destruct (ensure_cursor_out_of_bounds doc c Hb) as [msg Hm]. congruence.
Qed.

(** The buffer a successful [replace_range] leaves, from the offsets of
    the two cursors and the cursor computed for the end of the insertion. *)
Definition replaced (b : t) (start : Cursor) (text : str) (label : string)
    (start_offset end_offset : Z) (row col : Z) : t :=
  let before_text := _flatten_lines (BufferDocument.snapshot (document b)) in
  let new_text :=
    slice_to before_text start_offset ++ text
      ++ slice_from before_text end_offset in
  {| name := name b;
     document := BufferDocument.from_text new_text;
     state := BufferState.mk (row, col)
                (BufferState.selection (state b))
                (BufferState.active_register (state b))
                0;
     registers := registers b;
     undo := UndoTimeline.push
               (mkUndoEntry label before_text new_text start (row, col))
               (undo b) |}.

Lemma replace_range_Ok b start end_ text label d b' :
  replace_range start end_ text label b = (Ok d, b') →
  ∃ so eo row col,
    in_bounds (document b) start = true
    ∧ in_bounds (document b) end_ = true
    ∧ _offset_for_cursor (document b) start = Ok so
    ∧ _offset_for_cursor (document b) end_ = Ok eo
    ∧ _cursor_from_offset (document (replaced b start text label so eo 0 0))
        (so + len text) = Ok (row, col)
    ∧ b' = replaced b start text label so eo row col.
Proof.
  unfold replace_range, mbind, M_bind, get, lift, modify, commit, mret, M_ret.
  destruct (ensure_cursor (document b) start) as [s|] eqn:Es; [|done].
  destruct (ensure_cursor (document b) end_) as [e|] eqn:Ee; [|done].
  apply ensure_cursor_Ok in Es as [-> Hs], Ee as [-> He].
  destruct (_offset_for_cursor (document b) start) as [so|] eqn:Eso; [|done].
  destruct (_offset_for_cursor (document b) end_) as [eo|] eqn:Eeo; [|done].
  simpl.
  destruct (_cursor_from_offset _ _) as [[row col]|] eqn:Ec; [|done].
  intros [= <- <-]. exists so, eo, row, col. done.
Qed.

(** C8. When the start or the end cursor is out of bounds, [replace_range]
    raises a validation error and the buffer is left exactly as it was;
    so does [delete_range], and so does [insert_text] when the position it
    inserts at (its cursor argument, or the cursor of the buffer without
    one) is out of bounds. *)
Theorem replace_range_rejects_out_of_bounds
    (b : t) (start end_ : Cursor) (text : str) (label : string) :
  in_bounds (document b) start = false ∨ in_bounds (document b) end_ = false →
  (∃ msg c, replace_range start end_ text label b
            = (Raise (BufferValidationError msg c), b))
  ∧ (∃ msg c, delete_range start end_ b
              = (Raise (BufferValidationError msg c), b))
  ∧ (∀ cursor,
       in_bounds (document b)
         (default (BufferState.cursor (state b)) cursor) = false →
       ∃ msg c, insert_text text cursor b
                = (Raise (BufferValidationError msg c), b)).
Proof.
  assert (Hrr : ∀ s e tx lb,
    in_bounds (document b) s = false ∨ in_bounds (document b) e = false →
    ∃ msg c, replace_range s e tx lb b
             = (Raise (BufferValidationError msg c), b)).
  { intros s e tx lb H.
    unfold replace_range, mbind, M_bind, get, lift.
    destruct (in_bounds (document b) s) eqn:Hs.
    - rewrite ensure_cursor_in_bounds by done.
      destruct H as [H|H]; [done|].
      destruct (ensure_cursor_out_of_bounds _ _ H) as [msg ->]. eauto.
    - destruct (ensure_cursor_out_of_bounds _ _ Hs) as [msg ->]. eauto. }
  intros H. split; [by apply Hrr|]. split; [by apply Hrr|].
  intros cursor Hs. unfold insert_text, mbind, M_bind, get. simpl.
  apply Hrr. by left.
Qed.

Definition buffer_alpha : t := from_text [97; 108; 112; 104; 97]%N "default".

Lemma replace_range_rejects_out_of_bounds_witness :
  in_bounds (document buffer_alpha) (0, 6)%Z = false
  ∧ ∃ msg c, replace_range (0, 6)%Z (0, 0)%Z [120%N] "edit" buffer_alpha
             = (Raise (BufferValidationError msg c), buffer_alpha).
Proof.
  split; [reflexivity|].
  destruct (replace_range_rejects_out_of_bounds
              buffer_alpha (0, 6)%Z (0, 0)%Z [120%N] "edit") as [H _];
    [left; reflexivity | exact H].
Defined.

(** C10. A successful [replace_range] leaves the selection, the active
    register name, the register bank and the buffer name as they were. *)
Theorem replace_range_frame
    (b b' : t) (start end_ : Cursor) (text : str) (label : string)
    (d : BufferDelta) :
  replace_range start end_ text label b = (Ok d, b') →
  BufferState.selection (state b') = BufferState.selection (state b)
  ∧ BufferState.active_register (state b')
    = BufferState.active_register (state b)
  ∧ registers b' = registers b
  ∧ name b' = name b.
Proof.
  intros H. apply replace_range_Ok in H as (so & eo & row & col & H).
  destruct H as (_ & _ & _ & _ & _ & ->). done.
Qed.

(** A buffer with a selection, a named active register and a yanked text. *)
Definition buffer_with_state : t :=
  {| name := "scratch";
     document := BufferDocument.from_text [97; 98; 10; 99]%N;
     state := BufferState.mk (0, 1)%Z (Some ((0, 0), (0, 1))%Z) "a" 0;
     registers := RegisterBank.yank_to "a" [97%N] "character" RegisterBank.init;
     undo := UndoTimeline.init |}.

Lemma replace_range_frame_witness :
  let r := replace_range (0, 1)%Z (1, 0)%Z [120%N] "edit" buffer_with_state in
  (∃ d, r.1 = Ok d)
  ∧ BufferState.selection (state r.2) = Some ((0, 0), (0, 1))%Z
  ∧ registers r.2 = registers buffer_with_state.
Proof.
  set (r := replace_range (0, 1)%Z (1, 0)%Z [120%N] "edit" buffer_with_state).
  assert (Hr : ∃ d, r = (Ok d, r.2)) by (eexists; vm_compute; reflexivity).
  destruct Hr as [d Hr].
  pose proof (replace_range_frame buffer_with_state r.2 (0, 1)%Z (1, 0)%Z
                [120%N] "edit" d Hr) as (Hsel & _ & Hreg & _).
  cbv zeta. split; [exists d; by rewrite Hr|]. split; [exact Hsel | exact Hreg].
Defined.

(** Every successful [replace_range] leaves a document of version 0: the
    new document comes from [BufferDocument.from_text], not from
    [BufferDocument.replace]. *)
Lemma replace_range_version b b' start end_ text label d :
  replace_range start end_ text label b = (Ok d, b') →
  BufferDocument.version (document b') = 0%Z.
Proof.
  intros H. apply replace_range_Ok in H as (so & eo & row & col & H).
  destruct H as (_ & _ & _ & _ & _ & ->). done.
Qed.

(** C1 (the code departs from the claim). Inserting ["x"] at the start of
    a buffer holding ["alpha"] succeeds and leaves the document at version
    0, the version it had before the edit, where the claim and
    [BufferDocument.replace] give 1. *)
Theorem replace_range_version_not_incremented :
  ∃ d b',
    replace_range (0, 0)%Z (0, 0)%Z [120%N] "insert_text" buffer_alpha
      = (Ok d, b')
    ∧ BufferDocument.version (document buffer_alpha) = 0%Z
    ∧ BufferDocument.version (document b') = 0%Z
    ∧ delta_version d = 0%Z
    ∧ BufferDocument.version
        (BufferDocument.replace (BufferDocument._lines (document b')) None
           (document buffer_alpha)) = 1%Z.
Proof. do 2 eexists. vm_compute. repeat split; reflexivity. Qed.

End replace_range.

(** ** Text and lines *)

(** A text whose only line boundaries are LF characters. *)
Definition only_LF (text : str) : Prop :=
  Forall (λ c, is_linebreak c = true → c = LF) text.

(** A line holding no line boundary at all. *)
Definition break_free (line : str) : Prop :=
  Forall (λ c, is_linebreak c = false) line.

(** A document as the engine builds them: at least one line, no line
    boundary inside a line. *)
Definition wf_document (document : BufferDocument.t) : Prop :=
  BufferDocument._lines document ≠ []
  ∧ Forall break_free (BufferDocument._lines document).

(** Splitting at every LF, keeping the empty last piece. *)
Fixpoint split_LF (text : str) : list str :=
  match text with
  | [] => [[]]
  | c :: rest =>
      if (c =? LF)%N then [] :: split_LF rest
      else match split_LF rest with
           | [] => [[c]]
           | line :: lines => (c :: line) :: lines
           end
  end.

Section text_lines.

Lemma is_linebreak_LF : is_linebreak LF = true.
Proof. reflexivity. Qed.

Lemma split_LF_nonempty text : split_LF text ≠ [].
Proof.
  destruct text as [|c rest]; simpl; [done|].
  destruct (c =? LF)%N; [done|]. by destruct (split_LF rest).
Qed.

Lemma splitlines_nil text : splitlines text = [] → text = [].
Proof.
  destruct text as [|c rest]; simpl; [done|].
  destruct (is_linebreak c); [done|]. by destruct (splitlines rest).
Qed.

Lemma endswith_LF_cons c rest :
  rest ≠ [] → endswith_LF (c :: rest) = endswith_LF rest.
Proof. unfold endswith_LF. destruct rest; [done|]. by rewrite last_cons_cons. Qed.

Lemma from_text_lines text :
  only_LF text →
  BufferDocument._lines (BufferDocument.from_text text) = split_LF text.
Proof.
  unfold BufferDocument.from_text. simpl.
  induction text as [|c rest IH]; intros Hlf; [done|].
  apply Forall_cons in Hlf as [Hc Hrest]. specialize (IH Hrest).
  simpl. destruct (is_linebreak c) eqn:Hb.
  - rewrite (Hc eq_refl). simpl.
    destruct rest as [|c' rest']; [done|].
    rewrite endswith_LF_cons by done.
    rewrite <- IH.
    destruct (splitlines (c' :: rest')) as [|l ls] eqn:Hs;
      [by apply splitlines_nil in Hs|].
    by destruct (endswith_LF (c' :: rest')).
  - assert (Hne : (c =? LF)%N = false).
    { apply N.eqb_neq. intros ->. by rewrite is_linebreak_LF in Hb. }
    rewrite Hne.
    destruct rest as [|c' rest'].
    + simpl. unfold endswith_LF. simpl. by rewrite Hne.
    + rewrite endswith_LF_cons by done. rewrite <- IH.
      destruct (splitlines (c' :: rest')) as [|l ls] eqn:Hs;
        [by apply splitlines_nil in Hs|].
      by destruct (endswith_LF (c' :: rest')).
Qed.

Lemma flatten_cons line lines :
  lines ≠ [] → _flatten_lines (line :: lines) = line ++ LF :: _flatten_lines lines.
Proof. by destruct lines. Qed.

Lemma flatten_split_LF text : _flatten_lines (split_LF text) = text.
Proof.
  induction text as [|c rest IH]; [done|]. simpl.
  destruct (c =? LF)%N eqn:Hc.
  - apply N.eqb_eq in Hc as ->.
    rewrite flatten_cons by apply split_LF_nonempty. by rewrite IH.
  - pose proof (split_LF_nonempty rest).
    destruct (split_LF rest) as [|l ls]; [done|].
    destruct ls as [|l' ls]; simpl in *; by rewrite IH.
Qed.

Lemma split_LF_break_free text :
  only_LF text → Forall break_free (split_LF text).
Proof.
  induction text as [|c rest IH]; intros Hlf.
  - repeat constructor.
  - apply Forall_cons in Hlf as [Hc Hrest]. specialize (IH Hrest). simpl.
    destruct (c =? LF)%N eqn:Hne.
    + constructor; [constructor | done].
    + pose proof (split_LF_nonempty rest).
      destruct (split_LF rest) as [|l ls]; [done|].
      apply Forall_cons in IH as [Hl Hls].
      constructor; [|done]. constructor; [|done].
      destruct (is_linebreak c) eqn:Hb; [|done].
      apply N.eqb_neq in Hne. by specialize (Hc eq_refl).
Qed.

Lemma from_text_wf text :
  only_LF text → wf_document (BufferDocument.from_text text).
Proof.
  intros H. unfold wf_document. rewrite from_text_lines by done.
  split; [apply split_LF_nonempty | by apply split_LF_break_free].
Qed.

Lemma flatten_only_LF lines :
  Forall break_free lines → only_LF (_flatten_lines lines).
Proof.
  unfold only_LF, break_free.
  induction lines as [|l ls IH]; intros H; [constructor|].
  apply Forall_cons in H as [Hl Hls]. specialize (IH Hls).
  assert (Hl' : Forall (λ c, is_linebreak c = true → c = LF) l).
  { eapply Forall_impl; [exact Hl|]. simpl. congruence. }
  destruct ls as [|l' ls]; [done|].
  rewrite flatten_cons by done.
  apply Forall_app. split; [done|]. by constructor.
Qed.

End text_lines.

(** ** Cursors and offsets *)

(** The offset at which row [length lines] would start. *)
Fixpoint sum_lens (lines : list str) : Z :=
  match lines with
  | [] => 0
  | line :: rest => len line + 1 + sum_lens rest
  end.

(** Row [r] exists and column [c] lies within it. *)
Definition at_cursor (lines : list str) (r : nat) (c : Z) : Prop :=
  ∃ line, lines !! r = Some line ∧ (0 ≤ c ≤ len line)%Z.

(** The row and column reached after reading [o] characters of a text,
    from row [row] and column [col]. *)
Fixpoint pos (text : str) (o row col : nat) {struct o} : nat * nat :=
  match o, text with
  | S o', c :: rest =>
      if (c =? LF)%N then pos rest o' (S row) 0 else pos rest o' row (S col)
  | _, _ => (row, col)
  end.

Section cursor_offset.

Lemma in_bounds_at_cursor doc row col :
  in_bounds doc (row, col) = true ↔
  (0 ≤ row)%Z ∧ at_cursor (BufferDocument._lines doc) (Z.to_nat row) col.
Proof.
  unfold in_bounds, at_cursor, BufferDocument.line_count. simpl. split.
  - intros H. apply andb_prop in H as [H H0]. apply andb_prop in H as [H H1].
    apply Z.leb_le in H. split; [done|].
    destruct (_ !! _) as [line|]; [|done].
    apply andb_prop in H0 as [H2 H3]. apply Z.leb_le in H2, H3. eauto.
  - intros (H0 & line & Hl & Hc).
    pose proof (lookup_lt_Some _ _ _ Hl) as Hlt. rewrite Hl.
    rewrite !andb_true_iff, !Z.leb_le, Z.ltb_lt. unfold len in *. lia.
Qed.

Lemma sum_lens_nonneg lines : (0 ≤ sum_lens lines)%Z.
Proof.
  induction lines as [|l ls IH]; simpl; [lia|].
  pose proof (len_nonneg l). lia.
Qed.

Lemma sum_lens_app l1 l2 : sum_lens (l1 ++ l2) = (sum_lens l1 + sum_lens l2)%Z.
Proof. induction l1 as [|l ls IH]; simpl; lia. Qed.

Lemma sum_lens_take_S lines r line :
  lines !! r = Some line →
  sum_lens (take (S r) lines) = (sum_lens (take r lines) + len line + 1)%Z.
Proof.
  intros H. rewrite (take_S_r _ _ _ H), sum_lens_app. simpl. lia.
Qed.

Lemma sum_lens_take_mono lines r r' :
  r ≤ r' → (sum_lens (take r lines) ≤ sum_lens (take r' lines))%Z.
Proof.
  intros H. replace r' with (r + (r' - r)) by lia. generalize (r' - r) as k.
  clear H. intros k. rewrite <- take_take_drop, sum_lens_app.
  pose proof (sum_lens_nonneg (take k (drop r lines))). lia.
Qed.

Lemma offset_rows_sum lines i n acc :
  i + n ≤ length lines →
  offset_rows lines i n acc = Ok (acc + sum_lens (take n (drop i lines)))%Z.
Proof.
  revert i acc. induction n as [|n IH]; intros i acc H; simpl.
  - f_equal. lia.
  - destruct (py_index_inrange lines (Z.of_nat i)) as (a & Ha & ->);
      [unfold len; lia|].
    rewrite Nat2Z.id in Ha. simpl.
    rewrite IH by lia. rewrite (drop_S _ _ _ Ha). simpl. f_equal. lia.
Qed.

Lemma offset_for_cursor_at doc row col :
  in_bounds doc (row, col) = true →
  _offset_for_cursor doc (row, col)
  = Ok (sum_lens (take (Z.to_nat row) (BufferDocument._lines doc)) + col)%Z.
Proof.
  intros H. apply in_bounds_at_cursor in H as (H0 & line & Hl & Hc).
  unfold _offset_for_cursor, BufferDocument.snapshot.
  pose proof (lookup_lt_Some _ _ _ Hl).
  rewrite offset_rows_sum by lia. simpl. by rewrite drop_0.
Qed.

(** The scan finds the cursor of an offset computed from a cursor. *)
Lemma cursor_scan_offset lines row0 run0 r c :
  at_cursor lines r c →
  cursor_scan lines row0 run0 (run0 + (sum_lens (take r lines) + c))
  = Some (row0 + Z.of_nat r, c)%Z.
Proof.
  revert row0 run0 r. induction lines as [|l ls IH]; intros row0 run0 r.
  - intros (line & Hl & _). done.
  - intros (line & Hl & Hc). destruct r as [|r]; simpl in *.
    + inversion Hl; subst line.
      destruct (_ <=? _)%Z eqn:E; [|apply Z.leb_gt in E; lia].
      f_equal. f_equal; lia.
    + pose proof (sum_lens_nonneg (take r ls)). pose proof (len_nonneg l).
      destruct (_ <=? _)%Z eqn:E; [apply Z.leb_le in E; lia|].
      replace (run0 + (len l + 1 + sum_lens (take r ls) + c))%Z
        with ((run0 + (len l + 1)) + (sum_lens (take r ls) + c))%Z by lia.
      rewrite IH by (exists line; done). f_equal. f_equal. lia.
Qed.

Lemma len_flatten_cons l ls :
  ls ≠ [] → len (_flatten_lines (l :: ls)) = (len l + 1 + len (_flatten_lines ls))%Z.
Proof.
  intros H. rewrite flatten_cons by done. rewrite len_app.
  unfold len. simpl. lia.
Qed.

(** Within the text, the scan returns a cursor of the document whose
    offset is the one scanned for. *)
Lemma cursor_scan_within lines row0 run0 o :
  lines ≠ [] → (0 ≤ o ≤ len (_flatten_lines lines))%Z →
  ∃ r c, cursor_scan lines row0 run0 (run0 + o) = Some (row0 + Z.of_nat r, c)%Z
         ∧ at_cursor lines r c
         ∧ (sum_lens (take r lines) + c)%Z = o.
Proof.
  revert row0 run0 o. induction lines as [|l ls IH]; intros row0 run0 o Hne Ho;
    [done|].
  simpl cursor_scan.
  destruct (_ <=? _)%Z eqn:E.
  - apply Z.leb_le in E. exists 0, o. split; [f_equal; f_equal; lia|].
    split; [exists l; split; [done|lia] | simpl; lia].
  - apply Z.leb_gt in E.
    destruct ls as [|l' ls']; [simpl in Ho; lia|].
    rewrite len_flatten_cons in Ho by done.
    destruct (IH (row0 + 1)%Z (run0 + (len l + 1))%Z (o - (len l + 1))%Z)
      as (r & c & Hs & Hat & Hoff); [done|lia|].
    exists (S r), c.
    replace (run0 + o)%Z with (run0 + (len l + 1) + (o - (len l + 1)))%Z by lia.
    rewrite Hs. split; [f_equal; f_equal; lia|].
    split; [destruct Hat as (line & ? & ?); exists line; done|].
    simpl in *. lia.
Qed.

Lemma at_cursor_offset_le lines r c :
  at_cursor lines r c →
  (0 ≤ sum_lens (take r lines) + c ≤ len (_flatten_lines lines))%Z.
Proof.
  revert r. induction lines as [|l ls IH]; intros r (line & Hl & Hc); [done|].
  destruct r as [|r]; simpl in Hl.
  - inversion Hl; subst line. rewrite take_0. simpl sum_lens.
    destruct ls as [|l' ls'].
    + simpl. lia.
    + rewrite len_flatten_cons by done.
      pose proof (len_nonneg (_flatten_lines (l' :: ls'))). lia.
  - destruct ls as [|l' ls']; [done|].
    rewrite len_flatten_cons by done.
    specialize (IH r (ex_intro _ line (conj Hl Hc))).
    pose proof (len_nonneg l). simpl take. simpl sum_lens. lia.
Qed.

(** Offsets grow with cursors: a cursor that compares greater has a
    greater offset. *)
Lemma cursor_gt_offset lines r1 c1 r2 c2 :
  at_cursor lines r1 c1 → at_cursor lines r2 c2 →
  cursor_gt (Z.of_nat r1, c1) (Z.of_nat r2, c2) = true →
  (sum_lens (take r2 lines) + c2 < sum_lens (take r1 lines) + c1)%Z.
Proof.
  intros (l1 & Hl1 & Hc1) (l2 & Hl2 & Hc2). unfold cursor_gt. simpl.
  intros H. apply orb_prop in H as [H|H].
  - apply Z.ltb_lt in H.
    pose proof (sum_lens_take_mono lines (S r2) r1 ltac:(lia)) as Hm.
    rewrite (sum_lens_take_S _ _ _ Hl2) in Hm. lia.
  - apply andb_prop in H as [Hr Hc]. apply Z.eqb_eq in Hr. apply Z.ltb_lt in Hc.
    assert (r1 = r2) as -> by lia. lia.
Qed.

(** *** Positions in the flat text *)

Lemma pos_take text o row col : pos text o row col = pos (take o text) o row col.
Proof.
  revert text row col. induction o as [|o IH]; intros [|c rest] row col;
    simpl; try done.
  destruct (c =? LF)%N; apply IH.
Qed.

Lemma pos_break_free line rest o row col :
  break_free line → o ≤ length line →
  pos (line ++ rest) o row col = (row, col + o).
Proof.
  revert o row col. induction line as [|c line IH]; intros o row col Hbf Ho.
  - simpl in Ho. assert (o = 0) as -> by lia. simpl. f_equal.
    lia.
  - destruct o as [|o]; simpl; [f_equal; lia|].
    apply Forall_cons in Hbf as [Hc Hbf].
    assert ((c =? LF)%N = false) as ->.
    { apply N.eqb_neq. intros ->. by rewrite is_linebreak_LF in Hc. }
    simpl in Ho. rewrite IH by (done || lia). f_equal. lia.
Qed.

Lemma pos_next_line line rest o row col :
  break_free line →
  pos (line ++ LF :: rest) (length line + 1 + o) row col = pos rest o (S row) 0.
Proof.
  revert row col. induction line as [|c line IH]; intros row col Hbf.
  - done.
  - apply Forall_cons in Hbf as [Hc Hbf]. simpl.
    assert ((c =? LF)%N = false) as ->.
    { apply N.eqb_neq. intros ->. by rewrite is_linebreak_LF in Hc. }
    by apply IH.
Qed.

(** On lines free of boundaries, the scan agrees with the position in the
    flat text. *)
Lemma cursor_scan_pos lines row0 run0 o :
  lines ≠ [] → Forall break_free lines →
  o ≤ length (_flatten_lines lines) →
  cursor_scan lines (Z.of_nat row0) run0 (run0 + Z.of_nat o)
  = Some (Z.of_nat (pos (_flatten_lines lines) o row0 0).1,
          Z.of_nat (pos (_flatten_lines lines) o row0 0).2).
Proof.
  revert row0 run0 o. induction lines as [|l ls IH]; intros row0 run0 o Hne Hbf Ho;
    [done|].
  apply Forall_cons in Hbf as [Hl Hls]. simpl cursor_scan.
  destruct (_ <=? _)%Z eqn:E.
  - apply Z.leb_le in E. unfold len in E.
    replace (_flatten_lines (l :: ls))
      with (l ++ drop (length l) (_flatten_lines (l :: ls))).
    2:{ destruct ls; [by rewrite drop_all, app_nil_r|].
        rewrite flatten_cons by done. by rewrite drop_app_length. }
    rewrite pos_break_free by (done || lia). simpl. f_equal.
    f_equal. lia.
  - apply Z.leb_gt in E. unfold len in E.
    destruct ls as [|l' ls']; [simpl in Ho; lia|].
    rewrite flatten_cons in * by done.
    rewrite length_app, length_cons in Ho.
    replace o with (length l + 1 + (o - (length l + 1))) at 2 3 by lia.
    rewrite pos_next_line by done.
    replace (run0 + Z.of_nat o)%Z
      with (run0 + (len l + 1) + Z.of_nat (o - (length l + 1)))%Z
      by (unfold len; lia).
    replace (Z.of_nat row0 + 1)%Z with (Z.of_nat (S row0)) by lia.
    apply IH; [done|done|lia].
Qed.

End cursor_offset.

(** ** Round trip of [replace_range] and [get_text_range] *)

Section roundtrip.
Import Buffer.

Lemma py_bound_nonneg {A} (l : list A) (i : Z) :
  (0 ≤ i ≤ len l)%Z → py_bound l i = Z.to_nat i.
Proof.
  intros Hi. unfold py_bound.
  destruct (i <? 0)%Z eqn:H0; [apply Z.ltb_lt in H0; lia|].
  by rewrite Z.min_l by lia.
Qed.

Lemma slice_from_nonneg {A} (l : list A) (i : Z) :
  (0 ≤ i ≤ len l)%Z → slice_from l i = drop (Z.to_nat i) l.
Proof. intros Hi. unfold slice_from. by rewrite py_bound_nonneg. Qed.

Lemma slice_middle {A} (p t s : list A) :
  slice (p ++ t ++ s) (len p) (len p + len t) = t.
Proof.
  unfold slice. pose proof (len_nonneg p). pose proof (len_nonneg t).
  pose proof (len_nonneg s).
  rewrite !py_bound_nonneg by (rewrite !len_app; lia).
  unfold len. rewrite Nat2Z.id.
  rewrite drop_app_length.
  replace (Z.to_nat (Z.of_nat (length p) + Z.of_nat (length t)) - length p)
    with (length t) by lia.
  by rewrite take_app_length.
Qed.

Definition offset_of (lines : list str) (cursor : Cursor) : Z :=
  (sum_lens (take (Z.to_nat cursor.1) lines) + cursor.2)%Z.

Lemma offset_of_range doc cursor :
  in_bounds doc cursor = true →
  (0 ≤ offset_of (BufferDocument._lines doc) cursor
     ≤ len (_flatten_lines (BufferDocument._lines doc)))%Z.
Proof.
  destruct cursor as [row col]. intros H.
  apply in_bounds_at_cursor in H as [_ H].
  by apply at_cursor_offset_le.
Qed.

Lemma replace_range_success b start end_ text label row col :
  in_bounds (document b) start = true →
  in_bounds (document b) end_ = true →
  let so := offset_of (BufferDocument._lines (document b)) start in
  let eo := offset_of (BufferDocument._lines (document b)) end_ in
  _cursor_from_offset (document (replaced b start text label so eo 0 0))
    (so + len text) = Ok (row, col) →
  ∃ d, replace_range start end_ text label b
       = (Ok d, replaced b start text label so eo row col).
Proof.
  intros Hs He so eo Hc.
  unfold replace_range, mbind, M_bind, get, lift, modify, commit, mret, M_ret.
  rewrite !ensure_cursor_in_bounds by done.
  destruct start as [rs cs], end_ as [re ce].
  rewrite !offset_for_cursor_at by done.
  subst so eo. unfold replaced, offset_of in *. simpl in *. rewrite Hc.
  eexists. reflexivity.
Qed.

Lemma get_text_range_ordered b p q :
  in_bounds (document b) p = true →
  in_bounds (document b) q = true →
  cursor_gt p q = false →
  get_text_range p q b
  = Ok (slice (_flatten_lines (BufferDocument._lines (document b)))
          (offset_of (BufferDocument._lines (document b)) p)
          (offset_of (BufferDocument._lines (document b)) q)).
Proof.
  intros Hp Hq Hgt. unfold get_text_range, mbind, result_bind.
  rewrite !ensure_cursor_in_bounds by done. rewrite Hgt.
  destruct p as [rp cp], q as [rq cq].
  by rewrite !offset_for_cursor_at by done.
Qed.

(** The cursor of an offset within the text, on lines free of boundaries,
    depends only on the text before the offset. *)
Lemma cursor_scan_prefix lines lines' o :
  lines ≠ [] → lines' ≠ [] →
  Forall break_free lines → Forall break_free lines' →
  o ≤ length (_flatten_lines lines) → o ≤ length (_flatten_lines lines') →
  take o (_flatten_lines lines) = take o (_flatten_lines lines') →
  cursor_scan lines 0 0 (Z.of_nat o) = cursor_scan lines' 0 0 (Z.of_nat o).
Proof.
  intros Hne Hne' Hbf Hbf' Ho Ho' Hpre.
  pose proof (cursor_scan_pos lines 0 0 o Hne Hbf Ho) as H1.
  pose proof (cursor_scan_pos lines' 0 0 o Hne' Hbf' Ho') as H2.
  change (Z.of_nat 0) with 0%Z in H1, H2. rewrite Z.add_0_l in H1, H2.
  rewrite H1, H2.
  rewrite (pos_take (_flatten_lines lines)), (pos_take (_flatten_lines lines')).
  by rewrite Hpre.
Qed.

(** C3 (as amended). On a document whose lines hold no line boundary, for
    in-bounds [start] and [end_] and a [text] whose only line boundaries
    are LF characters: [replace_range] succeeds, the cursor it leaves is
    the position of offset [offset(start) + len(text)] in the new
    document, and [get_text_range] from [start] to that cursor returns
    [text]. *)
Theorem replace_range_get_text_range_roundtrip
    (b : t) (start end_ : Cursor) (text : str) (label : string) :
  wf_document (document b) →
  in_bounds (document b) start = true →
  in_bounds (document b) end_ = true →
  only_LF text →
  ∃ d b',
    replace_range start end_ text label b = (Ok d, b')
    ∧ _offset_for_cursor (document b') (BufferState.cursor (state b'))
      = Ok (offset_of (BufferDocument._lines (document b)) start + len text)%Z
    ∧ get_text_range start (BufferState.cursor (state b')) b' = Ok text.
Proof.
  intros [Hne Hbf] Hs He Htext.
  set (lines := BufferDocument._lines (document b)) in *.
  set (before := _flatten_lines lines).
  set (so := offset_of lines start). set (eo := offset_of lines end_).
  pose proof (offset_of_range _ _ Hs) as Hso. fold lines before so in Hso.
  pose proof (offset_of_range _ _ He) as Heo. fold lines before eo in Heo.
  set (new_text := slice_to before so ++ text ++ slice_from before eo).
  assert (Hnew : new_text
                 = take (Z.to_nat so) before ++ text ++ drop (Z.to_nat eo) before).
  { unfold new_text. by rewrite slice_to_nonneg, slice_from_nonneg. }
  assert (Hlen_p : length (take (Z.to_nat so) before) = Z.to_nat so).
  { rewrite length_take. unfold len in Hso. lia. }
  assert (Hlf : only_LF new_text).
  { rewrite Hnew. pose proof (flatten_only_LF lines Hbf) as Hb.
    fold before in Hb. unfold only_LF in *.
    apply Forall_app. split; [by apply Forall_take|].
    apply Forall_app. split; [done | by apply Forall_drop]. }
  set (doc' := BufferDocument.from_text new_text).
  set (lines' := BufferDocument._lines doc').
  assert (Hl' : lines' = split_LF new_text) by by apply from_text_lines.
  assert (Hflat : _flatten_lines lines' = new_text)
    by by rewrite Hl', flatten_split_LF.
  assert (Hne' : lines' ≠ []) by (rewrite Hl'; apply split_LF_nonempty).
  assert (Hbf' : Forall break_free lines')
    by (rewrite Hl'; by apply split_LF_break_free).
  assert (Hlen_new : len new_text
                     = (so + len text + len (drop (Z.to_nat eo) before))%Z).
  { rewrite Hnew, !len_app. unfold len at 1. rewrite Hlen_p. lia. }
  pose proof (len_nonneg text) as Hlt.
  pose proof (len_nonneg (drop (Z.to_nat eo) before)) as Hld.
  (* the cursor after the edit *)
  destruct (cursor_scan_within lines' 0 0 (so + len text) Hne')
    as (r' & c' & Hscan' & Hat' & Hoff'); [rewrite Hflat; lia|].
  rewrite !Z.add_0_l in Hscan'.
  assert (Hcur : _cursor_from_offset doc' (so + len text) = Ok (Z.of_nat r', c')).
  { unfold _cursor_from_offset, BufferDocument.snapshot. fold lines'.
    by rewrite Hscan'. }
  destruct (replace_range_success b start end_ text label (Z.of_nat r') c' Hs He)
    as [d Hd]; [exact Hcur|].
  fold lines so eo in Hd.
  exists d, (replaced b start text label so eo (Z.of_nat r') c').
  split; [exact Hd|].
  change (document (replaced b start text label so eo (Z.of_nat r') c'))
    with doc'.
  change (BufferState.cursor
            (state (replaced b start text label so eo (Z.of_nat r') c')))
    with (Z.of_nat r', c').
  assert (Hin' : in_bounds doc' (Z.of_nat r', c') = true).
  { apply in_bounds_at_cursor. split; [lia|]. by rewrite Nat2Z.id. }
  assert (Hoff_cur : offset_of lines' (Z.of_nat r', c') = (so + len text)%Z).
  { unfold offset_of. simpl. by rewrite Nat2Z.id. }
  (* [start] is the cursor of its offset in the new document too *)
  destruct start as [rs cs].
  pose proof Hs as Hs'. apply in_bounds_at_cursor in Hs' as [Hrs Hats].
  assert (Hscan_s : cursor_scan lines' 0 0 so = Some (rs, cs)).
  { replace so with (Z.of_nat (Z.to_nat so)) by lia.
    rewrite <- (cursor_scan_prefix lines lines'); try done.
    - replace (Z.of_nat (Z.to_nat so)) with (0 + so)%Z by lia.
      unfold so, offset_of. simpl.
      rewrite cursor_scan_offset by done. f_equal. f_equal. lia.
    - fold before. unfold len in Hso. lia.
    - rewrite Hflat. unfold len in Hlen_new. lia.
    - rewrite Hflat, Hnew. fold before.
      by rewrite take_app_length' by done. }
  destruct (cursor_scan_within lines' 0 0 so Hne')
    as (r & c & Hscan & Hat & Hoff); [rewrite Hflat; lia|].
  rewrite !Z.add_0_l in Hscan. rewrite Hscan_s in Hscan.
  injection Hscan as -> ->.
  assert (Hin_s : in_bounds doc' (Z.of_nat r, c) = true).
  { apply in_bounds_at_cursor. split; [lia|]. by rewrite Nat2Z.id. }
  assert (Hoff_s : offset_of lines' (Z.of_nat r, c) = so).
  { unfold offset_of. simpl. by rewrite Nat2Z.id. }
  split.
  - rewrite offset_for_cursor_at by done. fold lines'.
    f_equal. rewrite Nat2Z.id. exact Hoff'.
  - assert (Hgt : cursor_gt (Z.of_nat r, c) (Z.of_nat r', c') = false).
    { destruct (cursor_gt _ _) eqn:Hgt; [|done].
      pose proof (cursor_gt_offset lines' r c r' c' Hat Hat' Hgt). lia. }
    rewrite get_text_range_ordered by done.
    change (BufferDocument._lines
              (document (replaced b (Z.of_nat r, c) text label so eo
                           (Z.of_nat r') c')))
      with lines'.
    rewrite Hoff_s, Hoff_cur, Hflat, Hnew.
    assert (Hp : so = len (take (Z.to_nat so) before))
      by (unfold len; rewrite Hlen_p; lia).
    generalize dependent (take (Z.to_nat so) before). intros p _ _ Hp.
    by rewrite Hp, slice_middle.
Qed.

End roundtrip.

Section roundtrip_examples.
Import Buffer.

(** ["x\ny"] replaces ["lp"] in ["alpha"]. *)
Lemma replace_range_get_text_range_roundtrip_witness :
  wf_document (document buffer_alpha)
  ∧ only_LF [120; 10; 121]%N
  ∧ ∃ d b',
      replace_range (0, 1)%Z (0, 3)%Z [120; 10; 121]%N "edit" buffer_alpha
        = (Ok d, b')
      ∧ get_text_range (0, 1)%Z (BufferState.cursor (state b')) b'
        = Ok [120; 10; 121]%N.
Proof.
  assert (Hwf : wf_document (document buffer_alpha)).
  { apply from_text_wf. repeat constructor; intros H; discriminate H. }
  assert (Htext : only_LF [120; 10; 121]%N).
  { repeat constructor;
      first [intros _; reflexivity | intros H; discriminate H]. }
  split; [exact Hwf|]. split; [exact Htext|].
  destruct (replace_range_get_text_range_roundtrip buffer_alpha
              (0, 1)%Z (0, 3)%Z [120; 10; 121]%N "edit" Hwf
              eq_refl eq_refl Htext) as (d & b' & Hr & _ & Hg).
  exists d, b'. split; [exact Hr | exact Hg].
Defined.

(** C3 as stated fails: ["x\ry"] inserted at the start of ["alpha"] is
    read back as ["x\ny"], the carriage return being a line boundary for
    [str.splitlines]. *)
Lemma roundtrip_fails_on_carriage_return :
  ∃ d b',
    in_bounds (document buffer_alpha) (0, 0)%Z = true
    ∧ replace_range (0, 0)%Z (0, 0)%Z [120; 13; 121]%N "insert_text"
        buffer_alpha = (Ok d, b')
    ∧ _offset_for_cursor (document b') (BufferState.cursor (state b')) = Ok 3%Z
    ∧ get_text_range (0, 0)%Z (BufferState.cursor (state b')) b'
      = Ok [120; 10; 121]%N
    ∧ get_text_range (0, 0)%Z (BufferState.cursor (state b')) b'
      ≠ Ok [120; 13; 121]%N.
Proof.
  do 2 eexists. split; [reflexivity|].
  split; [vm_compute; reflexivity|].
  split; [vm_compute; reflexivity|].
  split; [vm_compute; reflexivity|].
  vm_compute. intros H. discriminate H.
Qed.

End roundtrip_examples.

(** ** Conflicts between bindings *)

Definition guarded (b : Binding.t) : bool :=
  negb (bool_decide (Binding.when b = [])).

(** The rule of the claim: two bindings conflict unless exactly one of them
    has guards, or both have guards and share a flag with differing
    expected values. *)
Definition claimed_conflict (b1 b2 : Binding.t) : bool :=
  negb (xorb (guarded b1) (guarded b2))
  && negb (guarded b1 && guarded b2
           && guards_differ (Binding.when_map b1) (Binding.when_map b2)).

(** The rule of the code: both without guards, or both with guards and
    the same flag-to-expected map. *)
Definition conflict_rule (b1 b2 : Binding.t) : Prop :=
  (Binding.when b1 = [] ∧ Binding.when b2 = [])
  ∨ (Binding.when b1 ≠ [] ∧ Binding.when b2 ≠ []
     ∧ Binding.when_map b1 = Binding.when_map b2).

Section conflicts.
Import KeymapRegistry.

Lemma guards_differ_refl (m : gmap string bool) : guards_differ m m = false.
Proof.
  unfold guards_differ. apply not_true_iff_false. intros H.
  apply existsb_exists in H as [[flag expected] [Hin H]].
  apply list_elem_of_In, elem_of_map_to_list in Hin. rewrite Hin in H.
  by destruct expected.
Qed.

Lemma contexts_overlap_rule b1 b2 :
  _contexts_overlap b1 b2 = true ↔ conflict_rule b1 b2.
Proof.
  unfold _contexts_overlap, conflict_rule.
  destruct (decide (Binding.when b1 = [])) as [H1|H1];
    destruct (decide (Binding.when b2 = [])) as [H2|H2];
    rewrite ?(bool_decide_eq_true_2 _ H1), ?(bool_decide_eq_true_2 _ H2),
      ?(bool_decide_eq_false_2 _ H1), ?(bool_decide_eq_false_2 _ H2); simpl.
  - split; [by left | done].
  - split; [|by intros [[_ ?]|(? & _)]].
    destruct (guards_differ _ _); [done|]. by destruct (guards_differ _ _).
  - split; [|by intros [[? _]|(_ & ? & _)]].
    destruct (guards_differ _ _); [done|]. by destruct (guards_differ _ _).
  - split.
    + destruct (guards_differ _ _); [done|].
      destruct (guards_differ _ _); [done|].
      intros Heq%bool_decide_eq_true. by right.
    + intros [[? _]|(_ & _ & Heq)]; [done|].
      rewrite Heq, guards_differ_refl. by apply bool_decide_eq_true.
Qed.

Lemma conflict_rule_sym b1 b2 : conflict_rule b1 b2 ↔ conflict_rule b2 b1.
Proof.
  unfold conflict_rule.
  split; (intros [[? ?]|(? & ? & ?)]; [by left | by right]).
Qed.

Lemma conflicts_among_spec binding ids r :
  Forall (λ id, is_Some (_bindings r !! id)) ids →
  ∃ conflicts,
    conflicts_among binding [] ids r = Ok conflicts
    ∧ ∀ b, b ∈ conflicts ↔
           (∃ id, id ∈ ids ∧ _bindings r !! id = Some b)
           ∧ _contexts_overlap binding b = true.
Proof.
  induction 1 as [|id ids [existing He] _ (conflicts & Hc & IH)]; simpl.
  - exists []. split; [done|]. intros b. split; [by intros ?%elem_of_nil|].
    by intros [(id & ?%elem_of_nil & _) _].
  - rewrite He, Hc. simpl.
    destruct (_contexts_overlap binding existing) eqn:Ho.
    + exists (existing :: conflicts). split; [done|]. intros b.
      rewrite elem_of_cons, IH. split.
      * intros [->|[(i & Hi & Hb) Hov]].
        -- split; [|done]. exists id. split; [left|done].
        -- split; [|done]. exists i. split; [by right|done].
      * intros [(i & Hi & Hb) Hov]. apply elem_of_cons in Hi as [->|Hi].
        -- left. congruence.
        -- right. eauto.
    + exists conflicts. split; [done|]. intros b. rewrite IH. split.
      * intros [(i & Hi & Hb) Hov]. split; [|done]. exists i.
        split; [by right|done].
      * intros [(i & Hi & Hb) Hov]. split; [|done].
        apply elem_of_cons in Hi as [->|Hi]; [congruence|eauto].
Qed.

(** C2 (as amended). In a registry whose index names only registered
    bindings, two bindings registered and indexed under the same mode and
    key signature are reported by [detect_conflicts], each for the other,
    exactly when both have no guards or both have guards with the same
    flag-to-expected map. *)
Theorem detect_conflicts_mutual (r : t) (b1 b2 : Binding.t) :
  Forall (λ id, is_Some (_bindings r !! id))
         (elements (bucket_of (Binding.mode b1) (Binding.key_signature b1) r)) →
  _bindings r !! Binding.id b1 = Some b1 →
  _bindings r !! Binding.id b2 = Some b2 →
  Binding.id b1 ∈ bucket_of (Binding.mode b1) (Binding.key_signature b1) r →
  Binding.id b2 ∈ bucket_of (Binding.mode b2) (Binding.key_signature b2) r →
  Binding.mode b1 = Binding.mode b2 →
  Binding.key_signature b1 = Binding.key_signature b2 →
  ∃ c1 c2,
    detect_conflicts b1 [] r = Ok c1
    ∧ detect_conflicts b2 [] r = Ok c2
    ∧ (b2 ∈ c1 ↔ conflict_rule b1 b2)
    ∧ (b1 ∈ c2 ↔ conflict_rule b1 b2).
Proof.
  intros Hidx Hb1 Hb2 Hi1 Hi2 Hm Hs.
  unfold detect_conflicts. rewrite <- Hm, <- Hs in *.
  destruct (conflicts_among_spec b1 _ r Hidx) as (c1 & Hc1 & H1).
  destruct (conflicts_among_spec b2 _ r Hidx) as (c2 & Hc2 & H2).
  exists c1, c2. split; [done|]. split; [done|].
  rewrite H1, H2, !contexts_overlap_rule, (conflict_rule_sym b2 b1).
  split; split; try tauto; intros Hr; (split; [|done]).
  - exists (Binding.id b2). by rewrite elem_of_elements.
  - exists (Binding.id b1). by rewrite elem_of_elements.
Qed.

End conflicts.

Section conflicts_examples.
Import KeymapRegistry.

Definition sequence_gg : KeySequence.t := KeySequence.from_strings ["g"; "g"].

Definition make_binding (binding_id : string) (when : list WhenClause.t)
    : Binding.t :=
  Binding.mk binding_id "normal" sequence_gg "core.test" EmptyString when 0.

(** A registry holding the action ["core.test"], after registering the
    given bindings in turn without [replace]. *)
Definition registry_of (bindings : list Binding.t) : t :=
  foldl (λ r b, (register_binding b false r).2)
        (register_action (ActionRef.mk "core.test" "handler" EmptyString)
           false init).2
        bindings.

Definition binding_default : Binding.t := make_binding "default" [].
Definition binding_panel : Binding.t :=
  make_binding "panel" [WhenClause.mk "panel_open" true].
Definition binding_no_panel : Binding.t :=
  make_binding "no_panel" [WhenClause.mk "panel_open" false].
Definition binding_sidebar : Binding.t :=
  make_binding "sidebar" [WhenClause.mk "sidebar_open" true].

(** The three bindings of [test_register_binding_non_overlapping_when]. *)
Lemma detect_conflicts_mutual_witness :
  let r := registry_of [binding_default; binding_panel; binding_no_panel] in
  _bindings r !! "panel" = Some binding_panel
  ∧ _bindings r !! "no_panel" = Some binding_no_panel
  ∧ ∃ c1 c2,
      detect_conflicts binding_panel [] r = Ok c1
      ∧ detect_conflicts binding_no_panel [] r = Ok c2
      ∧ (binding_no_panel ∈ c1 ↔ conflict_rule binding_panel binding_no_panel)
      ∧ (binding_panel ∈ c2 ↔ conflict_rule binding_panel binding_no_panel).
Proof.
  intros r.
  assert (H1 : _bindings r !! "panel" = Some binding_panel)
    by (vm_compute; reflexivity).
  assert (H2 : _bindings r !! "no_panel" = Some binding_no_panel)
    by (vm_compute; reflexivity).
  split; [exact H1|]. split; [exact H2|].
  apply (detect_conflicts_mutual r binding_panel binding_no_panel).
  - apply (bool_decide_unpack _). vm_compute. exact I.
  - exact H1.
  - exact H2.
  - apply (bool_decide_unpack _). vm_compute. exact I.
  - apply (bool_decide_unpack _). vm_compute. exact I.
  - reflexivity.
  - reflexivity.
Defined.

(** C2 as stated fails: two bindings on the same keys in the same mode,
    guarded by different flags, fall under none of the two exceptions of
    the claim, yet both register and neither is reported for the other. *)
Lemma disjoint_guards_do_not_conflict :
  let r := registry_of [binding_panel; binding_sidebar] in
  _bindings r !! "panel" = Some binding_panel
  ∧ _bindings r !! "sidebar" = Some binding_sidebar
  ∧ Binding.mode binding_panel = Binding.mode binding_sidebar
  ∧ Binding.key_signature binding_panel = Binding.key_signature binding_sidebar
  ∧ claimed_conflict binding_panel binding_sidebar = true
  ∧ detect_conflicts binding_panel [] r = Ok [binding_panel]
  ∧ detect_conflicts binding_sidebar [] r = Ok [binding_sidebar].
Proof. vm_compute. repeat split; reflexivity. Qed.

End conflicts_examples.

(** ** The operator pipeline *)

Section pipeline.
Variable isdigit : string → bool.
Variable int_ : string → result Z.

Lemma leading_digits_drop keys :
  CountParser.leading_digits isdigit keys ++ drop (length (CountParser.leading_digits isdigit keys)) keys
  = keys.
Proof.
  induction keys as [|key rest IH]; simpl; [done|].
  destruct (isdigit key); simpl; [by rewrite IH | done].
Qed.

Lemma leading_digits_length keys :
  length (CountParser.leading_digits isdigit keys) ≤ length keys.
Proof.
  induction keys as [|key rest IH]; simpl; [done|].
  destruct (isdigit key); simpl; lia.
Qed.

(** C5 (as amended). With [rest] the keys after the leading run of digit
    keys: when the count converts (or there is no digit key), [parse]
    returns a plan exactly when [rest] holds a key after its first one;
    the first key of [rest] is the motion, the second the operator, and
    the raw input is the whole key list. With no key after the motion
    there is no plan, motion or not. When the count does not convert,
    [parse] raises. *)
Theorem pipeline_plan_exactly_when_keys_remain
    (keys : list string) (count : option Z) :
  let digits := CountParser.leading_digits isdigit keys in
  let rest := drop (length digits) keys in
  (digits = [] ∧ count = None
   ∨ digits ≠ []
     ∧ ∃ n, int_ (String.concat EmptyString digits) = Ok n ∧ count = Some n) →
  OperatorPipeline.parse isdigit int_ keys
  = Ok match rest with
       | motion :: operator :: _ =>
           Some (mkExecutionPlan operator (Some motion) count
                   unnamed_register keys)
       | _ => None
       end.
Proof.
  intros digits rest H.
  pose proof (leading_digits_drop keys) as Hkeys. fold digits rest in Hkeys.
  assert (Hslice : slice_from keys (len digits) = rest).
  { rewrite slice_from_nonneg.
    - unfold len. by rewrite Nat2Z.id.
    - pose proof (leading_digits_length keys) as Hl. fold digits in Hl.
      unfold len. lia. }
  unfold OperatorPipeline.parse, CountParser.parse, mbind, result_bind. fold digits.
  clearbody rest digits.
  destruct H as [[-> ->]|(Hd & n & Hint & ->)].
  - simpl in *. subst rest. rewrite Hkeys.
    destruct keys as [|motion [|operator more]]; [done| |done].
    unfold OperatorResolver.resolve. simpl. by destruct (negb _).
  - destruct digits as [|d ds] eqn:Ed; [done|].
    rewrite Hint, Hslice. simpl.
    destruct rest as [|motion [|operator more]]; [done| |].
    + unfold OperatorResolver.resolve. simpl. by destruct (negb _).
    + unfold OperatorResolver.resolve. simpl.
      rewrite <- Hkeys. simpl. by rewrite <- app_assoc.
Qed.

End pipeline.

Section pipeline_examples.

(** [str.isdigit] and [int] on ASCII strings: the decimal digits only. *)
Definition ascii_digit (a : Ascii.ascii) : option Z :=
  let n := Z.of_nat (Ascii.nat_of_ascii a) in
  if (48 <=? n)%Z && (n <=? 57)%Z then Some (n - 48)%Z else None.

Fixpoint ascii_digits (s : string) (acc : Z) : option Z :=
  match s with
  | EmptyString => Some acc
  | String a rest =>
      match ascii_digit a with
      | Some d => ascii_digits rest (10 * acc + d)
      | None => None
      end
  end.

Definition ascii_isdigit (s : string) : bool :=
  negb (bool_decide (s = EmptyString)) && bool_decide (is_Some (ascii_digits s 0)).

Definition ascii_int (s : string) : result Z :=
  match ascii_digits s 0 with
  | Some n => if bool_decide (s = EmptyString) then Raise (ValueError s) else Ok n
  | None => Raise (ValueError s)
  end.

(** The keys [2], [d], [w]: count 2, motion [d], operator [w]. *)
Lemma pipeline_plan_exactly_when_keys_remain_witness :
  OperatorPipeline.parse ascii_isdigit ascii_int ["2"; "d"; "w"]
  = Ok (Some (mkExecutionPlan "w" (Some "d") (Some 2%Z) unnamed_register
                ["2"; "d"; "w"])).
Proof.
  apply (pipeline_plan_exactly_when_keys_remain ascii_isdigit ascii_int
           ["2"; "d"; "w"] (Some 2%Z)).
  right. split; [discriminate|]. exists 2%Z. split; reflexivity.
Defined.

(** C5 as stated fails: on the single key [w] stage 2 takes [w] as the
    motion, a motion exists when stage 3 runs, and stage 3 returns no
    plan. *)
Lemma motion_alone_yields_no_plan :
  ∃ d1 d2,
    CountParser.parse ascii_isdigit ascii_int ["w"] empty_draft = Ok (["w"], d1)
    ∧ MotionParser.parse ["w"] d1 = ([], d2)
    ∧ motion d2 = Some "w"
    ∧ OperatorResolver.resolve [] d2 = None
    ∧ OperatorPipeline.parse ascii_isdigit ascii_int ["w"] = Ok None.
Proof. do 2 eexists. repeat split; reflexivity. Qed.

End pipeline_examples.

(** ** Command-line mode *)

Section command_mode.
Import CommandMode.

Definition backspace : KeyInput.t := KeyInput.mk "BACKSPACE" [] None.

(** C4 (as amended). A backspace reaching [_handle_text_input] while
    something is typed removes the last typed entry, stores the joined
    rest as the command text, and returns a consumed ["editing"] result
    that asks for no mode switch and no timeout, whatever is left. *)
Theorem backspace_removes_last_entry (key : KeyInput.t) (self : t) :
  KeyInput.key key = "BACKSPACE" →
  _typed self ≠ [] →
  _handle_text_input key self
  = (ModeResult.mk true None "editing" None None,
     {| _pending := _pending self;
        _typed := removelast (_typed self);
        command_state_text := String.concat EmptyString (removelast (_typed self));
        emitted := emitted self |}).
Proof.
  intros Hk Ht. unfold _handle_text_input. rewrite Hk. simpl.
  rewrite bool_decide_eq_false_2 by done. simpl.
  unfold _sync_command_state, set_typed, current_command, pop. simpl.
  assert (take (length (_typed self) - 1) (_typed self) = removelast (_typed self))
    as ->; [|done].
  destruct (exists_last Ht) as (l & x & ->).
  rewrite removelast_last, length_app. simpl.
  replace (length l + 1 - 1) with (length l) by lia.
  by rewrite take_app_length.
Qed.

Definition typing (typed : list string) : t :=
  {| _pending := []; _typed := typed;
     command_state_text := String.concat EmptyString typed; emitted := [] |}.

Lemma backspace_removes_last_entry_witness :
  _handle_text_input backspace (typing ["w"; "q"])
  = (ModeResult.mk true None "editing" None None, typing ["w"]).
Proof.
  apply (backspace_removes_last_entry backspace (typing ["w"; "q"]));
    [reflexivity | discriminate].
Defined.

(** C4 as stated fails: the backspace that empties the command text asks
    for no mode switch. *)
Lemma backspace_to_empty_keeps_mode :
  _typed (typing ["w"]) ≠ []
  ∧ current_command (_handle_text_input backspace (typing ["w"])).2 = EmptyString
  ∧ ModeResult.switch_to (_handle_text_input backspace (typing ["w"])).1 = None.
Proof. repeat split; (reflexivity || discriminate). Qed.

End command_mode.

(** ** Timers of the mode manager *)

(** What the host may call on the manager, stale fire requests
    included. *)
Inductive manager_call {W : Type} : Type :=
| HandleKey (key : KeyInput.t)
| SwitchMode (name : string)
| ArmTimeout (mode_name : string) (timeout_ms : Z)
| CancelTimeout (mode_name : string)
| ProcessTimeouts
| ForceTimeout (mode_name : option string)
| TriggerTimeout (mode_name : string) (generation : Z)
| RegisterMode (mode : Mode.t W)
| AdvanceClock (milliseconds : Z).
Arguments manager_call : clear implicits.

(** The manager after a call, whether it returned or raised. *)
Definition manager_step {W} (c : manager_call W) (s : ModeManager.t W)
    : ModeManager.t W :=
  match c with
  | HandleKey key => (ModeManager.handle_key key s).2
  | SwitchMode name => (ModeManager.switch_mode name s).2
  | ArmTimeout mode_name timeout_ms => (ModeManager.arm_timeout mode_name timeout_ms s).2
  | CancelTimeout mode_name => (ModeManager.cancel_timeout mode_name s).2
  | ProcessTimeouts => (ModeManager.process_timeouts s).2
  | ForceTimeout mode_name => (ModeManager.force_timeout mode_name s).2
  | TriggerTimeout mode_name generation =>
      (ModeManager._trigger_timeout mode_name generation s).2
  | RegisterMode mode => (ModeManager.register_mode mode s).2
  | AdvanceClock ms =>
      ModeManager.mk (ModeManager.context s) (ModeManager._modes s)
        (ModeManager._active s) (ModeManager._pending_timeouts s)
        (ModeManager._timer_counter s) (ModeManager.monotonic s + ms)
  end.

Definition manager_run {W} (calls : list (manager_call W)) (s : ModeManager.t W)
    : ModeManager.t W :=
  foldl (λ s c, manager_step c s) s calls.

(** Generation [g] has been handed out and is not the one of the pending
    timer of mode [m]. *)
Definition superseded {W} (m : string) (g : Z) (s : ModeManager.t W) : Prop :=
  (g ≤ ModeManager._timer_counter s)%Z
  ∧ ∀ timer,
      ModeManager._pending_timeouts s !! m = Some timer → generation timer ≠ g.

Definition inert_result : ModeResult.t := ModeResult.of_status false "timeout".

Section timers.
Import ModeManager.
Context {W : Type}.
Variable m : string.
Variable g : Z.

(** The call [c] keeps generation [g] superseded for mode [m]. *)
Definition preserves {A} (c : M (ModeManager.t W) A) : Prop :=
  ∀ s, superseded m g s → superseded m g (c s).2.

Lemma preserves_ret {A} (a : A) : preserves (mret a : M (ModeManager.t W) A).
Proof. by intros s Hs. Qed.

Lemma preserves_raise {A} e : preserves (raise e : M (ModeManager.t W) A).
Proof. by intros s Hs. Qed.

Lemma preserves_bind {A B} (c : M (ModeManager.t W) A)
    (k : A → M (ModeManager.t W) B) :
  preserves c → (∀ a, preserves (k a)) → preserves (c ≫= k).
Proof.
  intros Hc Hk s Hs. rewrite M_bind_unfold.
  specialize (Hc s Hs). destruct (c s) as [[a|e] s']; simpl in *; [|done].
  by apply Hk.
Qed.

Lemma preserves_get_bind {B} (k : ModeManager.t W → M (ModeManager.t W) B) :
  (∀ s, preserves (k s)) → preserves (get ≫= k).
Proof. intros Hk s Hs. rewrite M_bind_unfold. simpl. by apply Hk. Qed.

Lemma preserves_in_context {A} (c : M W A) : preserves (in_context c).
Proof.
  intros s Hs. unfold in_context. by destruct (c (context s)) as [r w].
Qed.

(** An arm that returns stores the timer under the next generation; one
    that raises takes the generation and stores nothing. *)
Lemma arm_timeout_returns name timeout_ms (s : ModeManager.t W) :
  converts_to_float timeout_ms = true →
  arm_timeout name timeout_ms s
  = (Ok tt,
     mk (context s) (_modes s) (_active s)
       (<[name := mkPendingTimeout (monotonic s + timeout_ms) timeout_ms
                    (_timer_counter s + 1)]> (_pending_timeouts s))
       (_timer_counter s + 1) (monotonic s)).
Proof.
  intros H. unfold arm_timeout. rewrite M_bind_unfold. cbn [modify].
  by rewrite H.
Qed.

Lemma arm_timeout_raises name timeout_ms (s : ModeManager.t W) :
  converts_to_float timeout_ms = false →
  arm_timeout name timeout_ms s
  = (Raise (OverflowError "int too large to convert to float"),
     mk (context s) (_modes s) (_active s) (_pending_timeouts s)
       (_timer_counter s + 1) (monotonic s)).
Proof.
  intros H. unfold arm_timeout. rewrite M_bind_unfold. cbn [modify].
  by rewrite H.
Qed.

Lemma preserves_arm name timeout_ms : preserves (arm_timeout name timeout_ms).
Proof.
  intros s [Hg Hm]. destruct (converts_to_float timeout_ms) eqn:Hfits.
  - rewrite arm_timeout_returns by done. split; simpl; [lia|].
    intros timer. destruct (decide (name = m)) as [->|Hne].
    + rewrite lookup_insert_eq. intros [= <-]. simpl. lia.
    + rewrite lookup_insert_ne by done. apply Hm.
  - rewrite arm_timeout_raises by done. split; simpl; [lia|done].
Qed.

Lemma preserves_cancel name : preserves (cancel_timeout name).
Proof.
  intros s [Hg Hm]. split; simpl; [done|].
  intros timer. destruct (decide (name = m)) as [->|Hne].
  - by rewrite lookup_delete_eq.
  - rewrite lookup_delete_ne by done. apply Hm.
Qed.

Lemma preserves_set_active name :
  preserves (modify (set_active name) : M (ModeManager.t W) unit).
Proof. by intros s Hs. Qed.

Lemma preserves_set_modes (f : ModeManager.t W → gmap string (Mode.t W)) :
  preserves (modify (λ s, set_modes (f s) s) : M (ModeManager.t W) unit).
Proof. by intros s Hs. Qed.

Lemma preserves_switch_mode name : preserves (switch_mode name).
Proof.
  unfold switch_mode. apply preserves_get_bind. intros s0.
  destruct (_modes s0 !! name) as [next|]; [|apply preserves_raise].
  destruct (bool_decide _); [apply preserves_ret|].
  apply preserves_bind.
  { destruct (active_mode s0) as [previous|]; [|apply preserves_ret].
    apply preserves_bind; [apply preserves_cancel|].
    intros _. apply preserves_in_context. }
  intros _. apply preserves_bind; [apply preserves_set_active|].
  intros _. apply preserves_bind; [apply preserves_in_context|].
  intros _. apply preserves_cancel.
Qed.

Lemma preserves_after_mode_result mode result :
  preserves (_after_mode_result mode result).
Proof.
  unfold _after_mode_result. apply preserves_bind.
  { destruct (ModeResult.timeout_ms result) as [t|]; [|apply preserves_cancel].
    destruct (bool_decide _); [apply preserves_arm | apply preserves_cancel]. }
  intros _. apply preserves_bind; [|intros _; apply preserves_ret].
  destruct (ModeResult.switch_to result) as [name|]; [|apply preserves_ret].
  destruct (bool_decide _); [apply preserves_switch_mode | apply preserves_ret].
Qed.

Lemma preserves_handle_key key : preserves (ModeManager.handle_key key).
Proof.
  unfold ModeManager.handle_key. apply preserves_get_bind. intros s0.
  destruct (active_mode s0) as [mode|]; [|apply preserves_raise].
  apply preserves_bind; [apply preserves_in_context|].
  intros result. apply preserves_after_mode_result.
Qed.

Lemma preserves_trigger name generation' :
  preserves (_trigger_timeout name generation').
Proof.
  unfold _trigger_timeout. apply preserves_get_bind. intros s0.
  destruct (_pending_timeouts s0 !! name) as [timer|]; [|apply preserves_ret].
  destruct (bool_decide _); [apply preserves_ret|].
  apply preserves_bind; [apply preserves_cancel|]. intros _.
  destruct (_modes s0 !! name) as [mode|]; [|apply preserves_ret].
  apply preserves_bind; [apply preserves_in_context|].
  intros result. apply preserves_after_mode_result.
Qed.

Lemma preserves_trigger_each timers results :
  preserves (trigger_each timers results).
Proof.
  revert results. induction timers as [|[name timer] rest IH]; intros results.
  - apply preserves_ret.
  - simpl. apply preserves_bind; [apply preserves_trigger|].
    intros result. apply IH.
Qed.

Lemma preserves_process_timeouts : preserves process_timeouts.
Proof.
  unfold process_timeouts. apply preserves_get_bind. intros s0.
  apply preserves_trigger_each.
Qed.

Lemma preserves_force_timeout name : preserves (force_timeout name).
Proof.
  unfold force_timeout. apply preserves_get_bind. intros s0.
  destruct name as [name|]; [|apply preserves_trigger_each].
  destruct (_pending_timeouts s0 !! name) as [timer|]; [|apply preserves_ret].
  apply preserves_bind; [apply preserves_trigger|].
  intros result. apply preserves_ret.
Qed.

Lemma preserves_register_mode mode : preserves (register_mode mode).
Proof.
  unfold register_mode. apply preserves_get_bind. intros s0.
  destruct (bool_decide _); [apply preserves_raise|].
  apply preserves_bind; [apply preserves_set_modes|]. intros _.
  apply preserves_bind; [|intros _; apply preserves_ret].
  destruct (_active s0); [apply preserves_ret|].
  apply preserves_bind; [apply preserves_set_active|].
  intros _. apply preserves_in_context.
Qed.

(** Once superseded, a generation stays superseded, whatever is called. *)
Lemma superseded_step (c : manager_call W) (s : ModeManager.t W) :
  superseded m g s → superseded m g (manager_step c s).
Proof.
  destruct c; simpl.
  - apply preserves_handle_key.
  - apply preserves_switch_mode.
  - apply preserves_arm.
  - apply preserves_cancel.
  - apply preserves_process_timeouts.
  - apply preserves_force_timeout.
  - apply preserves_trigger.
  - apply preserves_register_mode.
  - done.
Qed.

Lemma superseded_run (calls : list (manager_call W)) (s : ModeManager.t W) :
  superseded m g s → superseded m g (manager_run calls s).
Proof.
  revert s. induction calls as [|c calls IH]; intros s Hs; [done|].
  simpl. apply IH. by apply superseded_step.
Qed.

(** A fire request for a superseded generation does nothing. *)
Lemma superseded_trigger_inert (s : ModeManager.t W) :
  superseded m g s → _trigger_timeout m g s = (Ok inert_result, s).
Proof.
  intros [_ Hm]. unfold _trigger_timeout. rewrite M_bind_unfold. simpl.
  destruct (_pending_timeouts s !! m) as [timer|] eqn:Ht; [|done].
  by rewrite bool_decide_eq_true_2 by by apply Hm.
Qed.

End timers.

Section superseded_timers.
Import ModeManager.
Context {W : Type}.
Implicit Types (s : ModeManager.t W) (calls : list (manager_call W)).

Lemma preserves_after {A B} m g (c : M (ModeManager.t W) A)
    (k : A → M (ModeManager.t W) B) s :
  superseded m g (c s).2 → (∀ a, preserves m g (k a)) →
  superseded m g ((c ≫= k) s).2.
Proof.
  intros Hc Hk. rewrite M_bind_unfold.
  destruct (c s) as [[a|e] s']; simpl in *; [by apply Hk | done].
Qed.

Lemma rearm_supersedes s m t1 t2 :
  converts_to_float t2 = true →
  superseded m (_timer_counter (arm_timeout m t1 s).2)
    (arm_timeout m t2 (arm_timeout m t1 s).2).2.
Proof.
  intros H2. rewrite (arm_timeout_returns m t2) by done.
  split; simpl; [lia|]. intros timer. rewrite lookup_insert_eq.
  intros [= <-]. simpl. lia.
Qed.

Lemma cancel_supersedes s m g :
  (g ≤ _timer_counter s)%Z → superseded m g (cancel_timeout m s).2.
Proof. intros Hg. split; simpl; [done|]. by rewrite lookup_delete_eq. Qed.

Lemma switch_away_supersedes s m g name previous :
  (g ≤ _timer_counter s)%Z →
  active_mode s = Some previous → Mode.name previous = m →
  is_Some (_modes s !! name) → name ≠ m →
  superseded m g (switch_mode name s).2.
Proof.
  intros Hg Hp Hm [next Hn] Hne. unfold switch_mode.
  rewrite M_bind_unfold. simpl. rewrite Hn, Hp. simpl.
  rewrite bool_decide_eq_false_2 by congruence.
  apply preserves_after.
  - apply preserves_after.
    + rewrite Hm. by apply cancel_supersedes.
    + intros _. apply preserves_in_context.
  - intros _. apply preserves_bind; [apply preserves_set_active|].
    intros _. apply preserves_bind; [apply preserves_in_context|].
    intros _. apply preserves_cancel.
Qed.

Lemma switch_to_supersedes s s' m g :
  (g ≤ _timer_counter s)%Z →
  Mode.name <$> active_mode s ≠ Some m →
  switch_mode m s = (Ok tt, s') →
  superseded m g s'.
Proof.
  intros Hg Hp. unfold switch_mode. rewrite M_bind_unfold. simpl.
  destruct (_modes s !! m) as [next|]; [|done].
  rewrite bool_decide_eq_false_2 by done.
  unfold mbind, M_bind, cancel_timeout, modify, in_context, mret, M_ret. simpl.
  destruct (active_mode s) as [previous|]; simpl.
  - destruct (Mode.on_exit previous (Some m) (context s)) as [[[]|e] w]; [|done].
    simpl.
    destruct (Mode.on_enter next (Some (Mode.name previous)) w) as [[[]|e] w'];
      [|done].
    intros [= <-]. split; simpl; [done|]. by rewrite lookup_delete_eq.
  - destruct (Mode.on_enter next None (context s)) as [[[]|e] w']; [|done].
    intros [= <-]. split; simpl; [done|]. by rewrite lookup_delete_eq.
Qed.

(** C7 (as amended). Let [g1] be the generation that [arm_timeout],
    called with a timeout that converts to a float, gives the timer of
    mode [m]. Once the timer is armed again by a call that returns (its
    timeout converts to a float too), cancelled, or cancelled by a switch
    away from [m] or into [m], then after any further calls on the
    manager a fire request carrying [g1] returns the idle result and
    leaves the manager, the context of the modes included, as it is: no
    handler runs. After two arms in a row that return, [force_timeout]
    fires the timer under the second generation only, which takes the
    timer away and runs the timeout handler of the mode once, on the
    context as it is, before the result of the handler is acted on. *)
Theorem superseded_timer_never_fires s m (t1 : Z) calls :
  converts_to_float t1 = true →
  let s1 := (arm_timeout m t1 s).2 in
  let g1 := _timer_counter s1 in
  generation <$> _pending_timeouts s1 !! m = Some g1
  ∧ (∀ t2, converts_to_float t2 = true →
           let s3 := manager_run calls (arm_timeout m t2 s1).2 in
           _trigger_timeout m g1 s3 = (Ok inert_result, s3))
  ∧ (let s3 := manager_run calls (cancel_timeout m s1).2 in
     _trigger_timeout m g1 s3 = (Ok inert_result, s3))
  ∧ (∀ name previous,
       active_mode s1 = Some previous → Mode.name previous = m →
       is_Some (_modes s1 !! name) → name ≠ m →
       let s3 := manager_run calls (switch_mode name s1).2 in
       _trigger_timeout m g1 s3 = (Ok inert_result, s3))
  ∧ (∀ s2,
       Mode.name <$> active_mode s1 ≠ Some m →
       switch_mode m s1 = (Ok tt, s2) →
       let s3 := manager_run calls s2 in
       _trigger_timeout m g1 s3 = (Ok inert_result, s3))
  ∧ (∀ t2, converts_to_float t2 = true →
       let s2 := (arm_timeout m t2 s1).2 in
       generation <$> _pending_timeouts s2 !! m = Some (g1 + 1)%Z
       ∧ force_timeout (Some m) s2
         = (result ← _trigger_timeout m (g1 + 1); mret {[ m := result ]}) s2
       ∧ ∀ mode, _modes s !! m = Some mode →
           _trigger_timeout m (g1 + 1) s2
           = match Mode.handle_timeout mode (context s2) with
             | (Ok result, w) =>
                 _after_mode_result mode result
                   (set_context w (cancel_timeout m s2).2)
             | (Raise e, w) =>
                 (Raise e, set_context w (cancel_timeout m s2).2)
             end).
Proof.
  intros H1 s1 g1.
  assert (Hs1 : s1 = mk (context s) (_modes s) (_active s)
                       (<[m := mkPendingTimeout (monotonic s + t1) t1
                                 (_timer_counter s + 1)]> (_pending_timeouts s))
                       (_timer_counter s + 1) (monotonic s)).
  { subst s1. by rewrite arm_timeout_returns. }
  split; [|split; [|split; [|split; [|split]]]].
  - subst g1. rewrite Hs1. simpl. by rewrite lookup_insert_eq.
  - intros t2 H2 s3. apply superseded_trigger_inert, superseded_run.
    by apply rearm_supersedes.
  - intros s3. apply superseded_trigger_inert, superseded_run.
    by apply cancel_supersedes.
  - intros name previous Hp Hm Hn Hne s3.
    apply superseded_trigger_inert, superseded_run.
    by eapply switch_away_supersedes.
  - intros s2 Hp Hsw s3.
    apply superseded_trigger_inert, superseded_run.
    apply (switch_to_supersedes s1); [subst g1; lia | done | done].
  - intros t2 H2 s2.
    assert (Hs2 : s2 = mk (context s1) (_modes s1) (_active s1)
                         (<[m := mkPendingTimeout (monotonic s1 + t2) t2
                                   (g1 + 1)]> (_pending_timeouts s1))
                         (g1 + 1) (monotonic s1)).
    { subst s2 g1. by rewrite arm_timeout_returns. }
    clearbody s2. subst s2. split; [|split].
    + simpl. by rewrite lookup_insert_eq.
    + unfold force_timeout. rewrite M_bind_unfold. simpl.
      by rewrite lookup_insert_eq.
    + intros mode Hmode. unfold _trigger_timeout at 1.
      rewrite M_bind_unfold. simpl. rewrite lookup_insert_eq. simpl.
      rewrite bool_decide_eq_false_2 by (intros H; apply H; reflexivity).
      rewrite M_bind_unfold. simpl. rewrite Hs1. simpl. rewrite Hmode.
      rewrite M_bind_unfold. unfold in_context. simpl.
      by destruct (Mode.handle_timeout mode (context s)) as [[result|e] w].
Qed.

End superseded_timers.

Section superseded_timers_examples.
Import ModeManager.

(** A mode that records in the context, a list of strings, each of its
    methods the manager runs. *)
Definition logging_mode (name : string) : Mode.t (list string) :=
  {| Mode.name := name;
     Mode.on_enter := λ _, modify (λ log, log ++ [name +:+ ".on_enter"]);
     Mode.on_exit := λ _, modify (λ log, log ++ [name +:+ ".on_exit"]);
     Mode.handle_key := λ _,
       modify (λ log, log ++ [name +:+ ".handle_key"]);;
       mret (ModeResult.of_status true "ok");
     Mode.handle_timeout :=
       modify (λ log, log ++ [name +:+ ".handle_timeout"]);;
       mret (ModeResult.of_status false "timeout") |}.

(** A manager with the modes ["normal"] (active) and ["insert"]. *)
Definition two_mode_manager : ModeManager.t (list string) :=
  (register_mode (logging_mode "insert")
     (register_mode (logging_mode "normal")
        (ModeManager.mk [] ∅ None ∅ 0 0)).2).2.

Lemma superseded_timer_never_fires_witness :
  let s1 := (arm_timeout "normal" 1000 two_mode_manager).2 in
  let s3 := manager_run [ForceTimeout None; HandleKey backspace]
              (switch_mode "insert" s1).2 in
  active_mode s1 = Some (logging_mode "normal")
  ∧ _trigger_timeout "normal" (_timer_counter s1) s3 = (Ok inert_result, s3).
Proof.
  intros s1 s3. split; [reflexivity|].
  destruct (superseded_timer_never_fires two_mode_manager "normal" 1000
              [ForceTimeout None; HandleKey backspace] eq_refl)
    as (_ & _ & _ & Hswitch & _).
  apply (Hswitch "insert" (logging_mode "normal")).
  - reflexivity.
  - reflexivity.
  - exists (logging_mode "insert"). reflexivity.
  - discriminate.
Defined.

(** Two arms in a row, then a fire request for the first generation and a
    forced timeout: the handler runs once, for the second generation. *)
Example rearm_then_force :
  let s2 := manager_run [ArmTimeout "normal" 1000; ArmTimeout "normal" 1000]
              two_mode_manager in
  context s2 = ["normal.on_enter"]
  ∧ context (manager_run [TriggerTimeout "normal" 1] s2) = ["normal.on_enter"]
  ∧ context (manager_run [TriggerTimeout "normal" 1; ForceTimeout (Some "normal");
                        ForceTimeout (Some "normal")] s2)
    = ["normal.on_enter"; "normal.handle_timeout"].
Proof. repeat split; reflexivity. Qed.

(** C7 as stated fails. An arm whose timeout does not convert to a float
    raises after it has taken a generation and before it stores a timer:
    the timer armed first stays as it is, a fire request carrying its
    generation runs the timeout handler of the mode, and so does
    [force_timeout]. *)
Lemma overflowing_rearm_keeps_first_timer :
  let s1 := (arm_timeout "normal" 1000 two_mode_manager).2 in
  let g1 := _timer_counter s1 in
  let s2 := (arm_timeout "normal" (10 ^ 400) s1).2 in
  generation <$> _pending_timeouts s1 !! "normal" = Some g1
  ∧ (arm_timeout "normal" (10 ^ 400) s1).1
    = Raise (OverflowError "int too large to convert to float")
  ∧ _timer_counter s2 = (g1 + 1)%Z
  ∧ generation <$> _pending_timeouts s2 !! "normal" = Some g1
  ∧ context s2 = ["normal.on_enter"]
  ∧ _trigger_timeout "normal" g1 s2 ≠ (Ok inert_result, s2)
  ∧ context (_trigger_timeout "normal" g1 s2).2
    = ["normal.on_enter"; "normal.handle_timeout"]
  ∧ context (force_timeout (Some "normal") s2).2
    = ["normal.on_enter"; "normal.handle_timeout"].
Proof.
  intros s1 g1 s2.
  assert (Hfired : context (_trigger_timeout "normal" g1 s2).2
                   = ["normal.on_enter"; "normal.handle_timeout"])
    by (vm_compute; reflexivity).
  split; [vm_compute; reflexivity|]. split; [vm_compute; reflexivity|].
  split; [vm_compute; reflexivity|]. split; [vm_compute; reflexivity|].
  split; [vm_compute; reflexivity|]. split; [|split].
  - intros H. rewrite H in Hfired. vm_compute in Hfired. discriminate Hfired.
  - exact Hfired.
  - vm_compute. reflexivity.
Qed.

End superseded_timers_examples.

(** ** The caching resolver *)

(** A registry with a resolver on it, and the calls made on them. *)
Record session : Type := mkSession {
  registry : KeymapRegistry.t;
  resolver : KeymapResolver.t;
}.

Definition new_session : session :=
  mkSession KeymapRegistry.init KeymapResolver.init.

Inductive session_call : Type :=
| RegisterAction (action : ActionRef.t) (replace : bool)
| RegisterBinding (binding : Binding.t) (replace : bool)
| UnregisterBinding (binding_id : string)
| UpdateBinding (binding_id : string) (changes : Binding.changes)
| OverrideSequenceTimeouts (timeout_ms : Z) (mode : option string)
    (binding_ids : option (list string))
| Resolve (mode : string) (tokens : list string) (context : gmap string bool).

(** The session after a call, whether it returned or raised. *)
Definition session_step (c : session_call) (s : session) : session :=
  match c with
  | RegisterAction action replace =>
      mkSession (KeymapRegistry.register_action action replace (registry s)).2
        (resolver s)
  | RegisterBinding binding replace =>
      mkSession (KeymapRegistry.register_binding binding replace (registry s)).2
        (resolver s)
  | UnregisterBinding binding_id =>
      mkSession (KeymapRegistry.unregister_binding binding_id (registry s)).2
        (resolver s)
  | UpdateBinding binding_id changes =>
      mkSession
        (KeymapRegistry.update_binding binding_id changes (registry s)).2
        (resolver s)
  | OverrideSequenceTimeouts timeout_ms mode binding_ids =>
      mkSession
        (KeymapRegistry.override_sequence_timeouts timeout_ms mode binding_ids
           (registry s)).2
        (resolver s)
  | Resolve mode tokens context =>
      mkSession (registry s)
        (KeymapResolver.resolve (registry s) mode tokens context (resolver s)).2
  end.

Definition session_run (calls : list session_call) (s : session) : session :=
  foldl (λ s c, session_step c s) s calls.

(** The answer of the resolver of the session, with its cache. *)
Definition cached_resolve (s : session) (mode : string) (tokens : list string)
    (context : gmap string bool) : result ResolutionResult :=
  (KeymapResolver.resolve (registry s) mode tokens context (resolver s)).1.

(** The answer of a resolver that builds the trie of the mode from the
    registry as it is. *)
Definition rebuilt_resolve (s : session) (mode : string) (tokens : list string)
    (context : gmap string bool) : result ResolutionResult :=
  trie ← KeymapResolver.build_trie (registry s) mode;
  KeymapResolver.resolve_in (registry s) trie tokens context.

(** *** The index of the registry *)

Section registry_index.
Import KeymapRegistry.

Lemma bucket_of_index b r mode sig :
  bucket_of mode sig (_index_binding b r)
  = if decide (mode = Binding.mode b ∧ sig = Binding.key_signature b)
    then {[Binding.id b]} ∪ bucket_of mode sig r
    else bucket_of mode sig r.
Proof.
  unfold bucket_of, _index_binding. simpl.
  destruct (decide (mode = Binding.mode b)) as [->|Hm].
  - rewrite lookup_insert_eq. simpl.
    destruct (decide (sig = Binding.key_signature b)) as [->|Hs].
    + rewrite lookup_insert_eq. by rewrite decide_True.
    + rewrite lookup_insert_ne by done. by rewrite decide_False by tauto.
  - rewrite lookup_insert_ne by done. by rewrite decide_False by tauto.
Qed.

(** What [_remove_binding] leaves of the index, when it gets past its
    early returns. *)
Definition removed_signatures (b : Binding.t) (signatures : gset string)
    : gset string :=
  signatures ∖ {[Binding.id b]}.

Definition removed_mode_bucket (b : Binding.t)
    (mode_bucket : gmap string (gset string)) (signatures : gset string)
    : gmap string (gset string) :=
  if bool_decide (removed_signatures b signatures = ∅)
  then delete (Binding.key_signature b) mode_bucket
  else <[Binding.key_signature b := removed_signatures b signatures]> mode_bucket.

Lemma removed_mode_bucket_lookup b mb S sig :
  default ∅ (removed_mode_bucket b mb S !! sig)
  = if decide (sig = Binding.key_signature b) then removed_signatures b S
    else default ∅ (mb !! sig).
Proof.
  unfold removed_mode_bucket. case_bool_decide as He.
  - destruct (decide (sig = _)) as [->|Hs].
    + by rewrite lookup_delete_eq, He.
    + by rewrite lookup_delete_ne.
  - destruct (decide (sig = _)) as [->|Hs].
    + by rewrite lookup_insert_eq.
    + by rewrite lookup_insert_ne.
Qed.

Lemma remove_binding_cases b r :
  (_remove_binding b r = r
   ∧ bucket_of (Binding.mode b) (Binding.key_signature b) r = ∅)
  ∨ ∃ mb S,
      _mode_index r !! Binding.mode b = Some mb
      ∧ mb !! Binding.key_signature b = Some S
      ∧ _remove_binding b r
        = set_mode_index
            (if bool_decide (removed_mode_bucket b mb S = ∅)
             then delete (Binding.mode b) (_mode_index r)
             else <[Binding.mode b := removed_mode_bucket b mb S]>
                    (_mode_index r))
            r.
Proof.
  unfold _remove_binding, bucket_of.
  destruct (_mode_index r !! Binding.mode b) as [mb|] eqn:Hmb; [|by left].
  simpl. case_bool_decide as Hmbe; [left; by rewrite Hmbe|].
  destruct (mb !! Binding.key_signature b) as [S|] eqn:HS; [|by left].
  simpl. case_bool_decide as HSe; [by left|].
  right. by exists mb, S.
Qed.

Lemma elem_of_bucket_remove b r mode sig id :
  id ∈ bucket_of mode sig (_remove_binding b r) ↔
  id ∈ bucket_of mode sig r
  ∧ ¬ (mode = Binding.mode b ∧ sig = Binding.key_signature b
       ∧ id = Binding.id b).
Proof.
  destruct (remove_binding_cases b r) as [[-> He]|(mb & S & Hmb & HS & ->)].
  - split; [|by intros [? _]]. intros Hid. split; [done|].
    intros (-> & -> & _). rewrite He in Hid. set_solver.
  - unfold bucket_of at 1. simpl.
    assert (Hd : default ∅ ((if bool_decide (removed_mode_bucket b mb S = ∅)
                 then delete (Binding.mode b) (_mode_index r)
                 else <[Binding.mode b := removed_mode_bucket b mb S]>
                        (_mode_index r)) !! mode)
                 = if decide (mode = Binding.mode b)
                   then removed_mode_bucket b mb S
                   else default ∅ (_mode_index r !! mode)).
    { case_bool_decide as He.
      - destruct (decide (mode = _)) as [->|Hm].
        + by rewrite lookup_delete_eq, He.
        + by rewrite lookup_delete_ne.
      - destruct (decide (mode = _)) as [->|Hm].
        + by rewrite lookup_insert_eq.
        + by rewrite lookup_insert_ne. }
    rewrite Hd. unfold bucket_of.
    destruct (decide (mode = _)) as [->|Hm]; [|naive_solver].
    rewrite removed_mode_bucket_lookup, Hmb. simpl.
    destruct (decide (sig = _)) as [->|Hs]; [|naive_solver].
    rewrite HS. simpl. unfold removed_signatures. set_solver.
Qed.

Lemma index_remove_restore b r :
  Binding.id b ∈ bucket_of (Binding.mode b) (Binding.key_signature b) r →
  _index_binding b (_remove_binding b r) = r.
Proof.
  intros Hid.
  destruct (remove_binding_cases b r) as [[_ He]|(mb & S & Hmb & HS & ->)].
  { rewrite He in Hid. set_solver. }
  unfold bucket_of in Hid. rewrite Hmb in Hid. simpl in Hid.
  rewrite HS in Hid. simpl in Hid.
  unfold _index_binding, set_mode_index. simpl.
  assert (Hby : default ∅ ((if bool_decide (removed_mode_bucket b mb S = ∅)
                 then delete (Binding.mode b) (_mode_index r)
                 else <[Binding.mode b := removed_mode_bucket b mb S]>
                        (_mode_index r)) !! Binding.mode b)
                = removed_mode_bucket b mb S).
  { case_bool_decide as He.
    - by rewrite lookup_delete_eq, He.
    - by rewrite lookup_insert_eq. }
  rewrite Hby.
  pose proof (removed_mode_bucket_lookup b mb S (Binding.key_signature b)) as Hb.
  rewrite decide_True in Hb by done. rewrite Hb.
  assert (HS' : {[Binding.id b]} ∪ removed_signatures b S = S).
  { unfold removed_signatures. apply set_eq. intros x.
    destruct (decide (x = Binding.id b)); set_solver. }
  rewrite HS'.
  assert (Hmb' : <[Binding.key_signature b := S]> (removed_mode_bucket b mb S)
                 = mb).
  { unfold removed_mode_bucket.
    destruct (bool_decide (removed_signatures b S = ∅)).
    - rewrite insert_delete_eq. by apply insert_id.
    - rewrite insert_insert_eq. by apply insert_id. }
  rewrite Hmb'.
  assert (Hidx : <[Binding.mode b := mb]>
                   (if bool_decide (removed_mode_bucket b mb S = ∅)
                    then delete (Binding.mode b) (_mode_index r)
                    else <[Binding.mode b := removed_mode_bucket b mb S]>
                           (_mode_index r))
                 = _mode_index r).
  { destruct (bool_decide (removed_mode_bucket b mb S = ∅)).
    - rewrite insert_delete_eq. by apply insert_id.
    - rewrite insert_insert_eq. by apply insert_id. }
  rewrite Hidx. by destruct r.
Qed.

Lemma bindings_index_binding b r : _bindings (_index_binding b r) = _bindings r.
Proof. done. Qed.

Lemma bindings_remove_binding b r : _bindings (_remove_binding b r) = _bindings r.
Proof.
  destruct (remove_binding_cases b r) as [[-> _]|(mb & S & _ & _ & ->)]; done.
Qed.

Lemma revision_remove_binding b r : _revision (_remove_binding b r) = _revision r.
Proof.
  destruct (remove_binding_cases b r) as [[-> _]|(mb & S & _ & _ & ->)]; done.
Qed.

Lemma actions_remove_binding b r : _actions (_remove_binding b r) = _actions r.
Proof.
  destruct (remove_binding_cases b r) as [[-> _]|(mb & S & _ & _ & ->)]; done.
Qed.

End registry_index.

(** *** Registries whose index and table agree *)

(** Every binding is stored under its own id, and the bucket of a mode
    and key signature holds exactly the ids of the bindings registered
    with them. *)
Record reg_wf (r : KeymapRegistry.t) : Prop := {
  wf_ids : ∀ k b, KeymapRegistry._bindings r !! k = Some b → Binding.id b = k;
  wf_index : ∀ mode sig id,
    id ∈ KeymapRegistry.bucket_of mode sig r ↔
    ∃ b, KeymapRegistry._bindings r !! id = Some b
         ∧ Binding.mode b = mode ∧ Binding.key_signature b = sig;
}.

(** The call left the table, the index and the revision as they were. *)
Definition untouched (r r' : KeymapRegistry.t) : Prop :=
  KeymapRegistry._bindings r' = KeymapRegistry._bindings r
  ∧ KeymapRegistry._mode_index r' = KeymapRegistry._mode_index r
  ∧ KeymapRegistry._revision r' = KeymapRegistry._revision r.

(** The call incremented the revision. *)
Definition bumped (r r' : KeymapRegistry.t) : Prop :=
  KeymapRegistry._revision r' = (KeymapRegistry._revision r + 1)%Z.

Section registry_wf.
Import KeymapRegistry.

Lemma reg_wf_init : reg_wf init.
Proof.
  split.
  - intros k b H. cbn in H. by rewrite lookup_empty in H.
  - intros mode sig id. unfold bucket_of. cbn. rewrite lookup_empty. cbn.
    split; [set_solver|]. intros (b & H & _). by rewrite lookup_empty in H.
Qed.

Lemma elem_of_bucket_index b r mode sig id :
  id ∈ bucket_of mode sig (_index_binding b r) ↔
  id ∈ bucket_of mode sig r
  ∨ (mode = Binding.mode b ∧ sig = Binding.key_signature b
     ∧ id = Binding.id b).
Proof.
  rewrite bucket_of_index. case_decide; set_solver.
Qed.

Lemma wf_after_removal r r' c :
  reg_wf r →
  _bindings r !! Binding.id c = Some c ∨ _bindings r !! Binding.id c = None →
  _bindings r' = delete (Binding.id c) (_bindings r) →
  (∀ mode sig id,
     id ∈ bucket_of mode sig r' ↔
     id ∈ bucket_of mode sig r
     ∧ ¬ (mode = Binding.mode c ∧ sig = Binding.key_signature c
          ∧ id = Binding.id c)) →
  reg_wf r'.
Proof.
  intros [Hids Hidx] Hc Hb Hbk. split.
  - intros k b. rewrite Hb, lookup_delete_Some. intros [_ H]. eauto.
  - intros mode sig id. rewrite Hbk, Hidx, Hb. split.
    + intros [(b & Hl & Hm & Hs) Hne]. exists b. split; [|done].
      apply lookup_delete_Some. split; [|done]. intros <-.
      destruct Hc as [Hc|Hc]; [|congruence].
      assert (b = c) as -> by congruence. apply Hne. by subst.
    + intros (b & [Hne Hl]%lookup_delete_Some & Hm & Hs).
      split; [eauto|]. intros (_ & _ & ->). done.
Qed.

Lemma wf_after_insert r r' b :
  reg_wf r →
  _bindings r !! Binding.id b = None →
  _bindings r' = <[Binding.id b := b]> (_bindings r) →
  (∀ mode sig id,
     id ∈ bucket_of mode sig r' ↔
     id ∈ bucket_of mode sig r
     ∨ (mode = Binding.mode b ∧ sig = Binding.key_signature b
        ∧ id = Binding.id b)) →
  reg_wf r'.
Proof.
  intros [Hids Hidx] Hnew Hb Hbk. split.
  - intros k b'. rewrite Hb, lookup_insert_Some.
    intros [[<- <-]|[_ H]]; eauto.
  - intros mode sig id. rewrite Hbk, Hidx, Hb. split.
    + intros [(b' & Hl & Hm & Hs)|(-> & -> & ->)].
      * exists b'. split; [|done]. apply lookup_insert_Some. right.
        split; [congruence|done].
      * exists b. by rewrite lookup_insert_eq.
    + intros (b' & [[<- <-]|[Hne Hl]]%lookup_insert_Some & Hm & Hs).
      * right. by subst.
      * left. eauto.
Qed.

(** Taking the binding stored under [k] out and putting [upd] in, when
    [upd] carries the id [k] and [cur] has the id, mode and signature of
    the stored binding. *)
Lemma wf_after_swap r r' k stored cur upd :
  reg_wf r →
  _bindings r !! k = Some stored →
  Binding.id cur = k → Binding.mode cur = Binding.mode stored →
  Binding.key_signature cur = Binding.key_signature stored →
  Binding.id upd = k →
  _bindings r' = <[k := upd]> (_bindings r) →
  (∀ mode sig id,
     id ∈ bucket_of mode sig r' ↔
     id ∈ bucket_of mode sig (_remove_binding cur r)
     ∨ (mode = Binding.mode upd ∧ sig = Binding.key_signature upd
        ∧ id = Binding.id upd)) →
  reg_wf r'.
Proof.
  intros Hwf Hst Hid Hm Hs Hu Hb Hbk.
  pose proof (wf_ids _ Hwf _ _ Hst) as Hsid.
  set (rv := set_bindings (delete k (_bindings r)) (_remove_binding cur r)).
  assert (Hrv : reg_wf rv).
  { apply (wf_after_removal r rv stored); [done|left; by rewrite Hsid|..].
    - by rewrite Hsid.
    - intros mode sig id. unfold rv. 
      change (bucket_of mode sig (set_bindings _ (_remove_binding cur r)))
        with (bucket_of mode sig (_remove_binding cur r)).
      rewrite elem_of_bucket_remove. by rewrite Hid, Hm, Hs, Hsid. }
  apply (wf_after_insert rv r' upd); [done|..].
  - unfold rv. simpl. by rewrite Hu, lookup_delete_eq.
  - unfold rv. simpl. by rewrite Hu, insert_delete_eq.
  - intros mode sig id. by rewrite Hbk.
Qed.

End registry_wf.

(** *** What each call does to the registry *)

(** The registry after a call: well-formed again, the revision
    incremented, or table and index as before. *)
Definition step_ok (r r' : KeymapRegistry.t) : Prop :=
  reg_wf r' ∧ (bumped r r' ∨ untouched r r').

Section registry_calls.
Import KeymapRegistry.

#[local] Arguments _remove_binding : simpl never.
#[local] Arguments _index_binding : simpl never.
#[local] Arguments bucket_of : simpl never.

Lemma reg_wf_ext r r' :
  reg_wf r → _bindings r' = _bindings r → _mode_index r' = _mode_index r →
  reg_wf r'.
Proof.
  intros [Hids Hidx] Hb Hi. split.
  - intros k b. rewrite Hb. apply Hids.
  - intros mode sig id. unfold bucket_of. rewrite Hb, Hi. apply Hidx.
Qed.

Lemma step_ok_same r : reg_wf r → step_ok r r.
Proof. intros H. split; [done|]. by right. Qed.

Lemma register_action_ok action replace r :
  reg_wf r → step_ok r (register_action action replace r).2.
Proof.
  intros Hwf. unfold register_action, mbind, M_bind, get, raise, modify.
  simpl. destruct (_ && _); simpl; [by apply step_ok_same|].
  split; [by eapply reg_wf_ext | by right].
Qed.

Lemma detect_conflicts_wf b r :
  (∀ mode sig id, id ∈ bucket_of mode sig r → is_Some (_bindings r !! id)) →
  ∃ conflicts,
    detect_conflicts b [] r = Ok conflicts
    ∧ ∀ c, c ∈ conflicts → ∃ id, _bindings r !! id = Some c.
Proof.
  intros Hidx. unfold detect_conflicts.
  destruct (conflicts_among_spec b
              (elements (bucket_of (Binding.mode b) (Binding.key_signature b) r))
              r) as (conflicts & Hc & Hspec).
  { apply Forall_forall. intros id Hid%elem_of_elements. eauto. }
  exists conflicts. split; [done|]. intros c Hin.
  apply Hspec in Hin as [(id & _ & Hl) _]. eauto.
Qed.

Lemma reg_wf_index_registered r :
  reg_wf r →
  ∀ mode sig id, id ∈ bucket_of mode sig r → is_Some (_bindings r !! id).
Proof.
  intros Hwf mode sig id Hid.
  apply (wf_index _ Hwf) in Hid as (b & Hl & _). eauto.
Qed.

Lemma bindings_drop_binding c r :
  _bindings (drop_binding c r) = delete (Binding.id c) (_bindings r).
Proof.
  transitivity (delete (Binding.id c) (_bindings (_remove_binding c r)));
    [reflexivity|]. by rewrite bindings_remove_binding.
Qed.

Lemma revision_drop_binding c r : _revision (drop_binding c r) = _revision r.
Proof.
  transitivity (_revision (_remove_binding c r)); [reflexivity|].
  apply revision_remove_binding.
Qed.

Lemma drop_binding_wf c r :
  reg_wf r →
  _bindings r !! Binding.id c = Some c ∨ _bindings r !! Binding.id c = None →
  reg_wf (drop_binding c r).
Proof.
  intros Hwf Hc.
  apply (wf_after_removal r _ c); [done|done|apply bindings_drop_binding|].
  intros mode sig id.
  change (bucket_of mode sig (drop_binding c r))
    with (bucket_of mode sig (_remove_binding c r)).
  apply elem_of_bucket_remove.
Qed.

Lemma drop_bindings_wf conflicts r :
  reg_wf r →
  (∀ c, c ∈ conflicts →
        _bindings r !! Binding.id c = Some c
        ∨ _bindings r !! Binding.id c = None) →
  let r' := foldl (λ s conflict, drop_binding conflict s) r conflicts in
  reg_wf r' ∧ _revision r' = _revision r.
Proof.
  revert r. induction conflicts as [|c cs IH]; intros r Hwf Hcs; [done|].
  simpl.
  assert (Hwf' : reg_wf (drop_binding c r))
    by (apply drop_binding_wf; [done | apply Hcs; by left]).
  destruct (IH (drop_binding c r) Hwf') as [Hwf'' Hrev''].
  - intros c' Hc'. rewrite bindings_drop_binding.
    destruct (decide (Binding.id c' = Binding.id c)) as [->|Hne].
    + right. apply lookup_delete_eq.
    + rewrite lookup_delete_ne by done. apply Hcs. by right.
  - split; [done|]. by rewrite Hrev'', revision_drop_binding.
Qed.

(** The last three statements of [register_binding]. *)
Lemma store_binding_ok b r0 r :
  reg_wf r → _bindings r !! Binding.id b = None →
  _revision r = _revision r0 →
  step_ok r0
    (_touch_bindings
       (_index_binding b
          (set_bindings (<[Binding.id b := b]> (_bindings r)) r))).
Proof.
  intros Hwf Hnew Hrev. split.
  - apply (wf_after_insert r _ b); [done|done|done|].
    intros mode sig id.
    change (bucket_of mode sig (_touch_bindings ?x)) with (bucket_of mode sig x).
    rewrite elem_of_bucket_index. done.
  - left. unfold bumped. simpl. by rewrite Hrev.
Qed.

Lemma register_binding_ok binding replace r :
  reg_wf r → step_ok r (register_binding binding replace r).2.
Proof.
  intros Hwf.
  unfold register_binding, mbind, M_bind, get, raise, modify, lift, mret, M_ret.
  simpl.
  destruct (bool_decide (_actions r !! Binding.action_id binding = None));
    simpl; [by apply step_ok_same|].
  destruct (detect_conflicts_wf binding r (reg_wf_index_registered r Hwf))
    as (conflicts & -> & Hreg).
  destruct (negb _ && negb replace) eqn:Hraise; simpl; [by apply step_ok_same|].
  destruct replace; simpl.
  - destruct (drop_bindings_wf conflicts r Hwf) as [Hwf1 Hrev1].
    { intros c Hc. left. destruct (Hreg c Hc) as [id Hl].
      by rewrite (wf_ids _ Hwf _ _ Hl). }
    set (r1 := foldl (λ s conflict, drop_binding conflict s) r conflicts) in *.
    destruct (_bindings r1 !! Binding.id binding) as [existing|] eqn:Hex; simpl.
    + pose proof (wf_ids _ Hwf1 _ _ Hex) as Hid.
      apply store_binding_ok.
      * apply drop_binding_wf; [done|left; by rewrite Hid].
      * by rewrite bindings_drop_binding, Hid, lookup_delete_eq.
      * by rewrite revision_drop_binding.
    + by apply store_binding_ok.
  - destruct (bool_decide (is_Some (_bindings r !! Binding.id binding)))
      eqn:Hdup; simpl; [by apply step_ok_same|].
    apply bool_decide_eq_false in Hdup.
    apply store_binding_ok; [done| |done].
    by apply eq_None_not_Some.
Qed.

Lemma unregister_binding_ok binding_id r :
  reg_wf r → step_ok r (unregister_binding binding_id r).2.
Proof.
  intros Hwf.
  unfold unregister_binding, mbind, M_bind, get, modify, mret, M_ret. simpl.
  destruct (_bindings r !! binding_id) as [binding|] eqn:Hb; simpl;
    [|by apply step_ok_same].
  pose proof (wf_ids _ Hwf _ _ Hb) as Hid. split.
  - apply (wf_after_removal r _ binding); [done|left; by rewrite Hid|..].
    + simpl. rewrite bindings_remove_binding. simpl. by rewrite Hid.
    + intros mode sig id.
      change (bucket_of mode sig (_touch_bindings ?x)) with (bucket_of mode sig x).
      rewrite elem_of_bucket_remove. done.
  - left. unfold bumped. simpl. by rewrite revision_remove_binding.
Qed.

End registry_calls.

Section registry_updates.
Import KeymapRegistry.

#[local] Arguments _remove_binding : simpl never.
#[local] Arguments _index_binding : simpl never.
#[local] Arguments bucket_of : simpl never.

Lemma replace_id current changes updated :
  Binding.replace current changes = Ok updated →
  Binding.id updated = default (Binding.id current) (Binding.new_id changes).
Proof.
  unfold Binding.replace.
  repeat (destruct (bool_decide _); [done|]).
  by intros [= <-].
Qed.

Lemma remove_binding_registered current r :
  reg_wf r →
  ∀ mode sig id,
    id ∈ bucket_of mode sig (_remove_binding current r) →
    is_Some (_bindings (_remove_binding current r) !! id).
Proof.
  intros Hwf mode sig id [Hid _]%elem_of_bucket_remove.
  rewrite bindings_remove_binding. by eapply reg_wf_index_registered.
Qed.

(** The binding id in the changes of an [update_binding] call, if any, is
    the id the call names. *)
Definition keeps_id (binding_id : string) (changes : Binding.changes) : Prop :=
  Binding.new_id changes = None ∨ Binding.new_id changes = Some binding_id.

Lemma update_binding_ok binding_id changes r :
  reg_wf r → keeps_id binding_id changes →
  step_ok r (update_binding binding_id changes r).2.
Proof.
  intros Hwf Hkeep.
  unfold update_binding, mbind, M_bind, get, raise, modify, lift, mret, M_ret.
  simpl.
  destruct (_bindings r !! binding_id) as [current|] eqn:Hcur; simpl;
    [|by apply step_ok_same].
  pose proof (wf_ids _ Hwf _ _ Hcur) as Hcid.
  destruct (Binding.replace current changes) as [updated|e] eqn:Hrep; simpl;
    [|by apply step_ok_same].
  assert (Huid : Binding.id updated = binding_id).
  { rewrite (replace_id _ _ _ Hrep), Hcid. by destruct Hkeep as [->| ->]. }
  destruct (bool_decide (_actions r !! Binding.action_id updated = None));
    simpl; [by apply step_ok_same|].
  destruct (detect_conflicts_wf updated (_remove_binding current r)
              (remove_binding_registered current r Hwf))
    as (conflicts & -> & _).
  destruct (bool_decide (conflicts = [])); simpl.
  - split.
    + apply (wf_after_swap r _ binding_id current current updated);
        try done.
      * transitivity (<[binding_id := updated]>
                        (_bindings (_remove_binding current r)));
          [reflexivity|]. by rewrite bindings_remove_binding.
      * intros mode sig id.
        change (bucket_of mode sig (_touch_bindings ?x))
          with (bucket_of mode sig x).
        rewrite elem_of_bucket_index. done.
    + left. unfold bumped.
      transitivity (_revision (_remove_binding current r) + 1)%Z;
        [reflexivity|]. by rewrite revision_remove_binding.
  - rewrite index_remove_restore; [by apply step_ok_same|].
    apply (wf_index _ Hwf). exists current. by rewrite Hcid.
Qed.

(** The binding [override_sequence_timeouts] puts in place of a target. *)
Definition with_timeout (timeout_ms : Z) (binding : Binding.t) : Binding.t :=
  Binding.mk (Binding.id binding) (Binding.mode binding)
    (KeySequence.mk (KeySequence.strokes (Binding.sequence binding)) timeout_ms)
    (Binding.action_id binding) (Binding.description binding)
    (Binding.when binding) (Binding.priority binding).

(** A target of [override_sequence_timeouts]: the binding stored under its
    id has its mode and key signature. *)
Definition is_target (r : t) (target : Binding.t) : Prop :=
  ∃ stored, _bindings r !! Binding.id target = Some stored
            ∧ Binding.mode target = Binding.mode stored
            ∧ Binding.key_signature target = Binding.key_signature stored.

Lemma bindings_update_in_place current updated r :
  _bindings (_update_binding_in_place current updated r)
  = <[Binding.id current := updated]> (_bindings r).
Proof.
  transitivity (<[Binding.id current := updated]>
                  (_bindings (_remove_binding current r))); [reflexivity|].
  by rewrite bindings_remove_binding.
Qed.

Lemma revision_update_in_place current updated r :
  _revision (_update_binding_in_place current updated r) = _revision r.
Proof.
  transitivity (_revision (_remove_binding current r)); [reflexivity|].
  apply revision_remove_binding.
Qed.

Lemma update_in_place_wf timeout_ms target r :
  reg_wf r → is_target r target →
  reg_wf (_update_binding_in_place target (with_timeout timeout_ms target) r).
Proof.
  intros Hwf (stored & Hst & Hm & Hs).
  apply (wf_after_swap r _ (Binding.id target) stored target
           (with_timeout timeout_ms target)); try done.
  - apply bindings_update_in_place.
  - intros mode sig id.
    change (bucket_of mode sig (_update_binding_in_place target ?u r))
      with (bucket_of mode sig
              (_index_binding u
                 (set_bindings (<[Binding.id target := u]>
                                  (_bindings (_remove_binding target r)))
                    (_remove_binding target r)))).
    rewrite elem_of_bucket_index. done.
Qed.

Lemma override_targets_wf timeout_ms targets r :
  reg_wf r → Forall (is_target r) targets →
  let r' := foldl (λ s binding,
                     _update_binding_in_place binding
                       (with_timeout timeout_ms binding) s) r targets in
  reg_wf r' ∧ _revision r' = _revision r.
Proof.
  revert r. induction targets as [|target rest IH]; intros r Hwf Hts; [done|].
  apply Forall_cons in Hts as [Ht Hrest]. simpl.
  pose proof (update_in_place_wf timeout_ms target r Hwf Ht) as Hwf'.
  destruct (IH _ Hwf') as [Hwf'' Hrev''].
  - eapply Forall_impl; [exact Hrest|]. intros t' (stored' & Hst' & Hm' & Hs').
    unfold is_target. rewrite bindings_update_in_place.
    destruct (decide (Binding.id target = Binding.id t')) as [Heq|Hne].
    + rewrite Heq, lookup_insert_eq. eexists. split; [done|].
      destruct Ht as (stored & Hst & Hm & Hs). rewrite Heq in Hst.
      assert (stored' = stored) as -> by congruence.
      split; [by rewrite Hm' | by rewrite Hs'].
    + rewrite lookup_insert_ne by done. by exists stored'.
  - split; [done|]. by rewrite Hrev'', revision_update_in_place.
Qed.

Lemma registered_is_target r b :
  reg_wf r → (∃ id, _bindings r !! id = Some b) → is_target r b.
Proof.
  intros Hwf [id Hl]. exists b.
  by rewrite (wf_ids _ Hwf _ _ Hl).
Qed.

Lemma get_bindings_registered ids r targets :
  get_bindings ids r = Ok targets →
  Forall (λ b, ∃ id, _bindings r !! id = Some b) targets.
Proof.
  revert targets. induction ids as [|id rest IH]; intros targets; simpl.
  - intros [= <-]. constructor.
  - unfold get_binding, mbind, result_bind.
    destruct (_bindings r !! id) as [b|] eqn:Hb; [|done].
    destruct (get_bindings rest r) as [bs|]; [|done].
    intros [= <-]. constructor; [eauto | by apply IH].
Qed.

Lemma bindings_of_registered ids r targets :
  bindings_of ids r = Ok targets →
  Forall (λ b, ∃ id, _bindings r !! id = Some b) targets.
Proof.
  revert targets. induction ids as [|id rest IH]; intros targets; simpl.
  - intros [= <-]. constructor.
  - destruct (_bindings r !! id) as [b|] eqn:Hb; [|done].
    unfold mbind, result_bind.
    destruct (bindings_of rest r) as [bs|]; [|done].
    intros [= <-]. constructor; [eauto | by apply IH].
Qed.

Lemma iter_bindings_registered mode r targets :
  iter_bindings mode r = Ok targets →
  Forall (λ b, ∃ id, _bindings r !! id = Some b) targets.
Proof.
  destruct mode as [mode|]; simpl; [apply bindings_of_registered|].
  intros [= <-]. apply Forall_forall. intros b Hb.
  apply list_elem_of_fmap in Hb as ([id b'] & -> & Hin).
  apply elem_of_map_to_list in Hin. eauto.
Qed.

Lemma override_sequence_timeouts_ok timeout_ms mode binding_ids r :
  reg_wf r →
  step_ok r (override_sequence_timeouts timeout_ms mode binding_ids r).2.
Proof.
  intros Hwf. unfold override_sequence_timeouts.
  destruct (timeout_ms <=? 0)%Z; [by apply step_ok_same|].
  unfold mbind, M_bind, get, raise, modify, lift, mret, M_ret. simpl.
  destruct (match binding_ids with
            | Some ids => get_bindings ids r
            | None => iter_bindings mode r
            end) as [targets|e] eqn:Ht; simpl; [|by apply step_ok_same].
  assert (Hreg : Forall (is_target r) targets).
  { eapply Forall_impl; [|intros b; apply registered_is_target; done].
    destruct binding_ids as [ids|];
      [by eapply get_bindings_registered | by eapply iter_bindings_registered]. }
  destruct targets as [|target rest]; simpl; [by apply step_ok_same|].
  destruct (override_targets_wf timeout_ms (target :: rest) r Hwf Hreg)
    as [Hwf' Hrev'].
  split.
  - eapply reg_wf_ext; [exact Hwf'|done|done].
  - left. unfold bumped. simpl. simpl in Hrev'. 
    unfold with_timeout in Hrev'. by rewrite Hrev'.
Qed.

End registry_updates.

(** *** The cache of the resolver *)

(** A cached trie is no newer than the registry, and one cached at the
    revision of the registry is the trie built from the registry. *)
Definition cache_ok (r : KeymapRegistry.t) (rs : KeymapResolver.t) : Prop :=
  ∀ mode revision trie,
    KeymapResolver._cache rs !! mode = Some (revision, trie) →
    (revision ≤ KeymapRegistry._revision r)%Z
    ∧ (revision = KeymapRegistry._revision r →
       KeymapResolver.build_trie r mode = Ok trie).

(** An [update_binding] of the call sequence keeps the id of its
    binding. *)
Definition stable_call (c : session_call) : Prop :=
  match c with
  | UpdateBinding binding_id changes => keeps_id binding_id changes
  | _ => True
  end.

Section resolver_cache.
Import KeymapResolver.

Lemma bindings_of_ext ids r r' :
  KeymapRegistry._bindings r' = KeymapRegistry._bindings r →
  KeymapRegistry.bindings_of ids r' = KeymapRegistry.bindings_of ids r.
Proof.
  intros Hb. induction ids as [|id rest IH]; simpl; [done|].
  by rewrite Hb, IH.
Qed.

Lemma build_trie_untouched r r' mode :
  untouched r r' → build_trie r' mode = build_trie r mode.
Proof.
  intros (Hb & Hi & _). unfold build_trie, KeymapRegistry.iter_bindings.
  by rewrite Hi, (bindings_of_ext _ r r').
Qed.

Lemma cache_ok_init r : cache_ok r init.
Proof. intros mode revision trie H. cbn in H. by rewrite lookup_empty in H. Qed.

Lemma cache_ok_step r r' rs :
  cache_ok r rs → bumped r r' ∨ untouched r r' → cache_ok r' rs.
Proof.
  intros Hc Hstep mode revision trie Hl.
  destruct (Hc mode revision trie Hl) as [Hle Hbuild].
  destruct Hstep as [Hb|Hu].
  - unfold bumped in Hb. split; lia.
  - pose proof Hu as (_ & _ & Hrev). rewrite Hrev. split; [done|].
    intros Heq. rewrite (build_trie_untouched r r') by done. by apply Hbuild.
Qed.

Lemma cache_ok_insert r rs mode trie :
  cache_ok r rs → build_trie r mode = Ok trie →
  cache_ok r (mk (<[mode := (KeymapRegistry.revision r, trie)]> (_cache rs))).
Proof.
  intros Hc Hb mode' revision trie'. cbn.
  destruct (decide (mode = mode')) as [->|Hne].
  - rewrite lookup_insert_eq. intros [= <- <-]. unfold KeymapRegistry.revision.
    split; [lia|done].
  - rewrite lookup_insert_ne by done. apply Hc.
Qed.

Lemma ensure_trie_spec r rs mode :
  cache_ok r rs →
  (_ensure_trie r mode rs).1 = build_trie r mode
  ∧ cache_ok r (_ensure_trie r mode rs).2.
Proof.
  intros Hc.
  unfold _ensure_trie, mbind, M_bind, get, lift, modify, mret, M_ret. simpl.
  destruct (_cache rs !! mode) as [[revision trie]|] eqn:Hl.
  - destruct (revision =? KeymapRegistry.revision r)%Z eqn:Hrev.
    + apply Z.eqb_eq in Hrev. simpl.
      destruct (Hc mode revision trie Hl) as [_ Hb]. by rewrite Hb.
    + destruct (build_trie r mode) as [trie'|e] eqn:Hb; simpl; [|done].
      split; [done|]. by apply cache_ok_insert.
  - destruct (build_trie r mode) as [trie'|e] eqn:Hb; simpl; [|done].
    split; [done|]. by apply cache_ok_insert.
Qed.

Lemma resolve_spec r rs mode tokens context :
  cache_ok r rs →
  (resolve r mode tokens context rs).1
  = (trie ← build_trie r mode; resolve_in r trie tokens context)
  ∧ cache_ok r (resolve r mode tokens context rs).2.
Proof.
  intros Hc. destruct (ensure_trie_spec r rs mode Hc) as [H1 H2].
  unfold resolve. rewrite M_bind_unfold.
  destruct (_ensure_trie r mode rs) as [[trie|e] rs']; simpl in *.
  - by rewrite <- H1.
  - by rewrite <- H1.
Qed.

End resolver_cache.

(** *** Sessions *)

Definition session_ok (s : session) : Prop :=
  reg_wf (registry s) ∧ cache_ok (registry s) (resolver s).

Section sessions.

Lemma session_ok_new : session_ok new_session.
Proof. split; [apply reg_wf_init | apply cache_ok_init]. Qed.

Lemma registry_step_ok c s :
  reg_wf (registry s) → stable_call c →
  step_ok (registry s) (registry (session_step c s)).
Proof.
  intros Hwf Hc. destruct c; simpl.
  - by apply register_action_ok.
  - by apply register_binding_ok.
  - by apply unregister_binding_ok.
  - by apply update_binding_ok.
  - by apply override_sequence_timeouts_ok.
  - by apply step_ok_same.
Qed.

Lemma session_step_ok c s :
  session_ok s → stable_call c → session_ok (session_step c s).
Proof.
  intros [Hwf Hcache] Hc.
  destruct (registry_step_ok c s Hwf Hc) as [Hwf' Hstep].
  split; [done|].
  destruct c; simpl in *; try by eapply cache_ok_step.
  by apply resolve_spec.
Qed.

Lemma session_run_ok calls s :
  session_ok s → Forall stable_call calls → session_ok (session_run calls s).
Proof.
  revert s. induction calls as [|c calls IH]; intros s Hs Hcalls; [done|].
  apply Forall_cons in Hcalls as [Hc Hcalls]. simpl.
  apply IH; [by apply session_step_ok | done].
Qed.

(** C9 (as amended). After any sequence of calls on a registry and its
    resolver (registrations of actions and bindings, removals, updates
    that keep the id of the binding, timeout overrides, and resolutions),
    the resolver answers with its cache what it would answer with the
    trie of the mode built from the registry as it is; and every further
    such call either increments the revision or leaves the table of
    bindings, the index and the revision as they were. *)
Theorem caching_resolver_refines_rebuild
    (calls : list session_call) (mode : string) (tokens : list string)
    (context : gmap string bool) :
  Forall stable_call calls →
  let s := session_run calls new_session in
  cached_resolve s mode tokens context = rebuilt_resolve s mode tokens context
  ∧ ∀ c, stable_call c →
      bumped (registry s) (registry (session_step c s))
      ∨ untouched (registry s) (registry (session_step c s)).
Proof.
  intros Hcalls s.
  destruct (session_run_ok calls new_session session_ok_new Hcalls)
    as [Hwf Hcache].
  fold s in Hwf, Hcache. split.
  - unfold cached_resolve, rebuilt_resolve. by apply resolve_spec.
  - intros c Hc. by apply registry_step_ok.
Qed.

End sessions.

Section sessions_examples.

Definition action_test : ActionRef.t :=
  ActionRef.mk "core.test" "handler" EmptyString.

Definition binding_gg : Binding.t := make_binding "normal.gg" [].

Definition binding_gd : Binding.t :=
  Binding.mk "normal.gd" "normal" (KeySequence.from_strings ["g"; "d"])
    "core.test" EmptyString [] 0.

Definition priority_5 : Binding.changes :=
  Binding.mk_changes None None None None None None (Some 5%Z).

(** Bindings come and go between two resolutions of the same prefix. *)
Definition calls_resolving_g : list session_call :=
  [ RegisterAction action_test false;
    RegisterBinding binding_gg false;
    Resolve "normal" ["g"] ∅;
    RegisterBinding binding_gd false;
    UpdateBinding "normal.gd" priority_5;
    OverrideSequenceTimeouts 250 (Some "normal") None;
    UnregisterBinding "normal.gg" ].

Lemma caching_resolver_refines_rebuild_witness :
  Forall stable_call calls_resolving_g
  ∧ cached_resolve (session_run calls_resolving_g new_session) "normal" ["g"] ∅
    = Ok (mkResolutionResult Pending None 1 ["d"] (Some 250%Z))
  ∧ cached_resolve (session_run calls_resolving_g new_session) "normal" ["g"] ∅
    = rebuilt_resolve (session_run calls_resolving_g new_session)
        "normal" ["g"] ∅.
Proof.
  assert (Hstable : Forall stable_call calls_resolving_g).
  { repeat constructor. }
  split; [exact Hstable|]. split; [vm_compute; reflexivity|].
  exact (proj1 (caching_resolver_refines_rebuild calls_resolving_g
                  "normal" ["g"] ∅ Hstable)).
Defined.

(** Three bindings on the key [x] of mode [m], guarded by flags. *)
Definition sequence_x : KeySequence.t := KeySequence.from_strings ["x"].

Definition binding_flagged (binding_id flag : string) : Binding.t :=
  Binding.mk binding_id "m" sequence_x "core.test" EmptyString
    [WhenClause.mk flag true] 0.

Definition rename_to_b2 : Binding.changes :=
  Binding.mk_changes (Some "b2") None None None None None None.

(** An update that renames [b1] to [b2] leaves the renamed binding under
    the key [b1]; removing it takes [b2] out of the index; the update of
    [b2] that then fails on a conflict with [b3] puts [b2] back into the
    index and leaves the revision. *)
Definition calls_renaming : list session_call :=
  [ RegisterAction action_test false;
    RegisterBinding (binding_flagged "b1" "a") false;
    RegisterBinding (binding_flagged "b2" "b") false;
    UpdateBinding "b1" rename_to_b2;
    UnregisterBinding "b1";
    RegisterBinding (binding_flagged "b3" "b") false;
    Resolve "m" ["x"] {[ "b" := true ]};
    UpdateBinding "b2" priority_5 ].

(** C9 as stated fails. [register_action] changes the registry and leaves
    the revision; and after [calls_renaming], whose last call raises a
    conflict error, the resolver still answers [b3] from its cache where
    the trie built from the registry gives [b2]. *)
Lemma stale_trie_after_renaming_update :
  (let r := registry (session_run [RegisterAction action_test false]
                        new_session) in
   KeymapRegistry._actions r ≠ KeymapRegistry._actions KeymapRegistry.init
   ∧ KeymapRegistry._revision r = KeymapRegistry._revision KeymapRegistry.init)
  ∧ let s := session_run calls_renaming new_session in
    (KeymapRegistry.update_binding "b2" priority_5
       (registry (session_run (removelast calls_renaming) new_session))).1
    = Raise (KeymapConflictError "b2" ["b3"])
    ∧ ∃ cached rebuilt,
        cached_resolve s "m" ["x"] {[ "b" := true ]} = Ok cached
        ∧ rebuilt_resolve s "m" ["x"] {[ "b" := true ]} = Ok rebuilt
        ∧ match_ cached
          = Some (mkResolutionMatch (binding_flagged "b3" "b") action_test)
        ∧ match_ rebuilt
          = Some (mkResolutionMatch (binding_flagged "b2" "b") action_test).
Proof.
  split.
  - split; [|reflexivity]. intros H.
    apply (f_equal (λ m, m !! "core.test")) in H. vm_compute in H.
    discriminate H.
  - split; [vm_compute; reflexivity|]. do 2 eexists.
    split; [vm_compute; reflexivity|]. split; [vm_compute; reflexivity|].
    split; reflexivity.
Qed.

End sessions_examples.

(* ================================================================== *)
(** * Further properties of the buffer core *)

(** ** Documents built from a text *)

Section documents.

Lemma splitlines_break_free_le n text :
  length text ≤ n → Forall break_free (splitlines text).
Proof.
  revert text. induction n as [|n IH]; intros [|c rest] Hlen;
    simpl in Hlen; try lia; try (by constructor).
  cbn [splitlines]. destruct (is_linebreak c) eqn:Hc.
  - constructor; [by constructor|].
    destruct rest as [|c' rest']; [by constructor|].
    destruct ((c =? CR)%N && (c' =? LF)%N); apply IH; simpl in *; lia.
  - pose proof (IH rest ltac:(lia)) as Hrest.
    destruct (splitlines rest) as [|line lines].
    + constructor; [|by constructor]. by constructor.
    + inversion Hrest; subst. constructor; [|done]. by constructor.
Qed.

Lemma splitlines_break_free text : Forall break_free (splitlines text).
Proof. by apply (splitlines_break_free_le (length text)). Qed.

Lemma from_text_wf_any text : wf_document (BufferDocument.from_text text).
Proof.
  unfold wf_document, BufferDocument.from_text. simpl.
  pose proof (splitlines_break_free text) as Hbf.
  destruct (splitlines text) as [|line lines] eqn:Hs.
  - split; [done|]. constructor; [by constructor|by constructor].
  - destruct (endswith_LF text).
    + split; [done|]. apply Forall_app. split; [done|].
      constructor; [by constructor|by constructor].
    + by split.
Qed.

Lemma break_free_not_LF line c : break_free line → c ∈ line → c ≠ LF.
Proof.
  intros Hbf Hc ->. unfold break_free in Hbf.
  rewrite Forall_forall in Hbf. specialize (Hbf _ Hc). by vm_compute in Hbf.
Qed.

Lemma split_LF_app line rest :
  break_free line → split_LF (line ++ LF :: rest) = line :: split_LF rest.
Proof.
  induction line as [|c line IH]; intros Hbf; [done|].
  inversion Hbf as [|? ? Hc Hline]; subst. simpl.
  destruct (c =? LF)%N eqn:Ec.
  - apply N.eqb_eq in Ec. subst c. by vm_compute in Hc.
  - by rewrite IH.
Qed.

Lemma split_LF_line line : break_free line → split_LF line = [line].
Proof.
  induction line as [|c line IH]; intros Hbf; [done|].
  inversion Hbf as [|? ? Hc Hline]; subst. simpl.
  destruct (c =? LF)%N eqn:Ec.
  - apply N.eqb_eq in Ec. subst c. by vm_compute in Hc.
  - by rewrite IH.
Qed.

Lemma split_LF_flatten lines :
  lines ≠ [] → Forall break_free lines → split_LF (_flatten_lines lines) = lines.
Proof.
  induction lines as [|line lines IH]; [done|]. intros _ Hbf.
  inversion Hbf as [|? ? Hline Hrest]; subst.
  destruct lines as [|line' lines'].
  - simpl. by apply split_LF_line.
  - rewrite flatten_cons by done. rewrite split_LF_app by done.
    by rewrite IH.
Qed.

Lemma from_text_flatten lines :
  lines ≠ [] → Forall break_free lines →
  BufferDocument._lines (BufferDocument.from_text (_flatten_lines lines)) = lines.
Proof.
  intros Hne Hbf.
  rewrite from_text_lines by by apply flatten_only_LF.
  by apply split_LF_flatten.
Qed.

(** X1. Whatever the text, [BufferDocument.from_text] builds a document
    with at least one line and no line boundary character inside a line,
    at version 0 and not dirty; the origin is a cursor of it; and building
    a document again from its joined lines gives the same document. *)
Theorem from_text_normalises (text : str) :
  let document := BufferDocument.from_text text in
  wf_document document
  ∧ (1 ≤ BufferDocument.line_count document)%Z
  ∧ BufferDocument.version document = 0%Z
  ∧ BufferDocument.dirty document = false
  ∧ in_bounds document (0, 0)%Z = true
  ∧ BufferDocument.from_text
      (_flatten_lines (BufferDocument.snapshot document)) = document.
Proof.
  intros document. pose proof (from_text_wf_any text) as [Hne Hbf].
  fold document in Hne, Hbf.
  split; [by split|]. split.
  { unfold BufferDocument.line_count, len.
    destruct (BufferDocument._lines document); [done|]. simpl. lia. }
  split; [done|]. split; [done|]. split.
  { apply in_bounds_at_cursor. split; [done|].
    destruct (BufferDocument._lines document) as [|l ls]; [done|].
    exists l. split; [done|]. pose proof (len_nonneg l). lia. }
  unfold BufferDocument.snapshot.
  pose proof (from_text_flatten _ Hne Hbf) as Hl.
  destruct (BufferDocument.from_text (_flatten_lines _)) as [l v d] eqn:E.
  assert (v = 0%Z ∧ d = false) as [-> ->].
  { unfold BufferDocument.from_text in E. by injection E as _ <- <-. }
  simpl in Hl. subst l. reflexivity.
Qed.

(** X2. A text whose only line boundaries are LF characters is kept as it
    is: joining the lines of the document built from it gives the text
    back, and so does the snapshot of a buffer built from it. *)
Theorem text_lines_roundtrip (text : str) (name : string) :
  only_LF text →
  _flatten_lines (BufferDocument.snapshot (BufferDocument.from_text text)) = text
  ∧ view_text (Buffer.snapshot (Buffer.from_text text name)) = text.
Proof.
  intros Htext.
  assert (H : _flatten_lines
                (BufferDocument.snapshot (BufferDocument.from_text text)) = text).
  { unfold BufferDocument.snapshot. rewrite from_text_lines by done.
    apply flatten_split_LF. }
  by split.
Qed.

Lemma text_lines_roundtrip_witness :
  only_LF [97; 10; 10; 98; 10]%N
  ∧ _flatten_lines
      (BufferDocument.snapshot (BufferDocument.from_text [97; 10; 10; 98; 10]%N))
    = [97; 10; 10; 98; 10]%N.
Proof.
  assert (H : only_LF [97; 10; 10; 98; 10]%N).
  { unfold only_LF. repeat constructor; by vm_compute. }
  split; [exact H|].
  exact (proj1 (text_lines_roundtrip [97; 10; 10; 98; 10]%N "scratch" H)).
Defined.

(** X3. The lines of a document are kept by a trip through the text: for a
    document with at least one line and no line boundary inside a line,
    the document built from its joined lines has the same lines. *)
Theorem lines_text_roundtrip (document : BufferDocument.t) :
  wf_document document →
  BufferDocument.snapshot
    (BufferDocument.from_text (_flatten_lines (BufferDocument.snapshot document)))
  = BufferDocument.snapshot document.
Proof. intros [Hne Hbf]. by apply from_text_flatten. Qed.

Lemma lines_text_roundtrip_witness :
  let document := BufferDocument.mk [[97%N]; []; [98%N; 99%N]; []] 3 true in
  wf_document document
  ∧ BufferDocument.snapshot
      (BufferDocument.from_text
         (_flatten_lines (BufferDocument.snapshot document)))
    = [[97%N]; []; [98%N; 99%N]; []].
Proof.
  intros document.
  assert (H : wf_document document).
  { split; [done|]. repeat constructor; by vm_compute. }
  split; [exact H|]. exact (lines_text_roundtrip document H).
Defined.

End documents.

(** ** Cursors and offsets, both ways *)

Section cursors_and_offsets.

Lemma cursor_scan_at lines row0 run0 o r c :
  (run0 ≤ o)%Z → cursor_scan lines row0 run0 o = Some (r, c) →
  ∃ k, r = (row0 + Z.of_nat k)%Z ∧ at_cursor lines k c.
Proof.
  revert row0 run0. induction lines as [|line rest IH]; intros row0 run0 Hle;
    simpl; [done|].
  destruct (o <=? run0 + len line)%Z eqn:E.
  - apply Z.leb_le in E. intros [= <- <-]. exists 0. split; [lia|].
    exists line. split; [done|lia].
  - apply Z.leb_gt in E. intros H.
    apply IH in H as (k & -> & Hat); [|lia].
    exists (S k). split; [lia|]. exact Hat.
Qed.

Lemma cursor_scan_beyond lines row0 run0 o :
  (run0 + len (_flatten_lines lines) < o)%Z →
  cursor_scan lines row0 run0 o = None.
Proof.
  revert row0 run0. induction lines as [|line rest IH]; intros row0 run0 Ho;
    [done|].
  cbn [cursor_scan].
  destruct rest as [|line' rest'].
  - simpl in Ho. destruct (o <=? run0 + len line)%Z eqn:E; [|done].
    apply Z.leb_le in E. lia.
  - rewrite len_flatten_cons in Ho by done.
    destruct (o <=? run0 + len line)%Z eqn:E.
    + apply Z.leb_le in E.
      pose proof (len_nonneg (_flatten_lines (line' :: rest'))). lia.
    + apply IH. lia.
Qed.

Lemma py_index_last {A} (l : list A) :
  l ≠ [] →
  ∃ a, l !! (length l - 1) = Some a ∧ py_index l (-1) = Ok a.
Proof.
  intros Hne. assert (0 < length l) by (destruct l; [done|simpl; lia]).
  destruct (l !! (length l - 1)) as [a|] eqn:Hl;
    [|apply lookup_ge_None in Hl; lia].
  exists a. split; [done|]. unfold py_index. simpl.
  destruct (len l + -1 <? 0)%Z eqn:E;
    [apply Z.ltb_lt in E; unfold len in E; lia|].
  replace (Z.to_nat (len l + -1)) with (length l - 1) by (unfold len; lia).
  by rewrite Hl.
Qed.

Lemma cursor_from_offset_in_bounds doc o :
  BufferDocument._lines doc ≠ [] → (0 ≤ o)%Z →
  ∃ c, _cursor_from_offset doc o = Ok c ∧ in_bounds doc c = true.
Proof.
  intros Hne Ho. unfold _cursor_from_offset, BufferDocument.snapshot.
  destruct (cursor_scan _ 0 0 o) as [[r c]|] eqn:Hs.
  - apply cursor_scan_at in Hs as (k & -> & Hat); [|done].
    eexists. split; [done|].
    apply in_bounds_at_cursor. split; [lia|].
    by rewrite Z.add_0_l, Nat2Z.id.
  - destruct (py_index_last _ Hne) as (a & Hl & ->). simpl.
    eexists. split; [done|].
    assert (0 < length (BufferDocument._lines doc))
      by (destruct (BufferDocument._lines doc); [done|simpl; lia]).
    apply in_bounds_at_cursor. split; [unfold len; lia|].
    replace (Z.to_nat (len (BufferDocument._lines doc) - 1))
      with (length (BufferDocument._lines doc) - 1) by (unfold len; lia).
    exists a. split; [done|]. pose proof (len_nonneg a). lia.
Qed.

Lemma cursor_from_offset_of doc c :
  in_bounds doc c = true →
  _cursor_from_offset doc (offset_of (BufferDocument._lines doc) c) = Ok c.
Proof.
  destruct c as [row col]. intros Hin.
  apply in_bounds_at_cursor in Hin as [Hrow Hat].
  unfold _cursor_from_offset, BufferDocument.snapshot, offset_of. simpl.
  pose proof (cursor_scan_offset _ 0 0 _ _ Hat) as Hs.
  rewrite Z.add_0_l in Hs. rewrite Hs. do 2 f_equal. lia.
Qed.

Lemma offset_of_inj doc c1 c2 :
  in_bounds doc c1 = true → in_bounds doc c2 = true →
  offset_of (BufferDocument._lines doc) c1
  = offset_of (BufferDocument._lines doc) c2 →
  c1 = c2.
Proof.
  intros H1 H2 Heq.
  pose proof (cursor_from_offset_of doc c1 H1) as E1.
  pose proof (cursor_from_offset_of doc c2 H2) as E2.
  rewrite Heq in E1. rewrite E1 in E2. by injection E2.
Qed.

Lemma offset_for_cursor_of doc c :
  in_bounds doc c = true →
  _offset_for_cursor doc c = Ok (offset_of (BufferDocument._lines doc) c).
Proof. destruct c as [row col]. apply offset_for_cursor_at. Qed.

(** X4. In a document with at least one line, cursors and offsets
    correspond: the offset of an in-bounds cursor lies within the joined
    text and [_cursor_from_offset] maps it back to the cursor; an offset
    within the joined text maps to an in-bounds cursor whose offset it is;
    and an offset beyond the text maps to the end of the last line. *)
Theorem cursor_offset_roundtrip (document : BufferDocument.t) :
  BufferDocument.snapshot document ≠ [] →
  let text := _flatten_lines (BufferDocument.snapshot document) in
  (∀ cursor, in_bounds document cursor = true →
     ∃ offset, _offset_for_cursor document cursor = Ok offset
       ∧ (0 ≤ offset ≤ len text)%Z
       ∧ _cursor_from_offset document offset = Ok cursor)
  ∧ (∀ offset, (0 ≤ offset ≤ len text)%Z →
       ∃ cursor, _cursor_from_offset document offset = Ok cursor
         ∧ in_bounds document cursor = true
         ∧ _offset_for_cursor document cursor = Ok offset)
  ∧ (∀ offset, (len text < offset)%Z →
       ∃ last_line,
         BufferDocument.get_line (-1) document = Ok last_line
         ∧ _cursor_from_offset document offset
           = Ok (BufferDocument.line_count document - 1, len last_line)%Z).
Proof.
  intros Hne text. unfold BufferDocument.snapshot in *. split; [|split].
  - intros cursor Hin. exists (offset_of (BufferDocument._lines document) cursor).
    split; [by apply offset_for_cursor_of|].
    split; [by apply offset_of_range|]. by apply cursor_from_offset_of.
  - intros offset Ho.
    destruct (cursor_scan_within _ 0 0 offset Hne Ho)
      as (r & c & Hscan & Hat & Hoff).
    rewrite !Z.add_0_l in Hscan. exists (Z.of_nat r, c).
    assert (Hin : in_bounds document (Z.of_nat r, c) = true).
    { apply in_bounds_at_cursor. split; [lia|]. by rewrite Nat2Z.id. }
    split; [|split; [done|]].
    + unfold _cursor_from_offset, BufferDocument.snapshot. by rewrite Hscan.
    + rewrite offset_for_cursor_at by done. f_equal.
      by rewrite Nat2Z.id.
  - intros offset Ho.
    destruct (py_index_last _ Hne) as (a & Hl & Hpy). exists a.
    split; [exact Hpy|].
    unfold _cursor_from_offset, BufferDocument.snapshot.
    rewrite cursor_scan_beyond by (fold text; lia).
    by rewrite Hpy.
Qed.

Lemma cursor_offset_roundtrip_witness :
  let document := BufferDocument.from_text [97; 98; 10; 99]%N in
  BufferDocument.snapshot document ≠ []
  ∧ _offset_for_cursor document (1, 1)%Z = Ok 4%Z
  ∧ ∃ offset, _offset_for_cursor document (1, 0)%Z = Ok offset
      ∧ (0 ≤ offset ≤ 4)%Z
      ∧ _cursor_from_offset document offset = Ok (1, 0)%Z.
Proof.
  intros document.
  assert (Hne : BufferDocument.snapshot document ≠ []) by done.
  split; [exact Hne|]. split; [reflexivity|].
  exact (proj1 (cursor_offset_roundtrip document Hne) (1, 0)%Z eq_refl).
Defined.

End cursors_and_offsets.

(** ** Edits through [replace_range] *)

Section buffer_edits.
Import Buffer.

Lemma replace_range_result b start end_ text label row col :
  in_bounds (document b) start = true →
  in_bounds (document b) end_ = true →
  let before := _flatten_lines (BufferDocument.snapshot (document b)) in
  let so := offset_of (BufferDocument._lines (document b)) start in
  let eo := offset_of (BufferDocument._lines (document b)) end_ in
  _cursor_from_offset (document (replaced b start text label so eo 0 0))
    (so + len text) = Ok (row, col) →
  replace_range start end_ text label b
  = (Ok {| delta_version := 0;
           delta_text := slice_to before so ++ text ++ slice_from before eo;
           delta_cursor := (row, col);
           delta_selection := BufferState.selection (state b);
           delta_label := label |},
     replaced b start text label so eo row col).
Proof.
  intros Hs He before so eo Hc.
  unfold replace_range, mbind, M_bind, get, lift, modify, commit, mret, M_ret.
  rewrite !ensure_cursor_in_bounds by done.
  rewrite !offset_for_cursor_of by done.
  subst before so eo. unfold replaced in *. simpl in *. rewrite Hc.
  reflexivity.
Qed.

(** What a successful [replace_range] returns and leaves, from the
    buffer before it. *)
Lemma replace_range_Ok_result b start end_ text label d b' :
  replace_range start end_ text label b = (Ok d, b') →
  let before := _flatten_lines (BufferDocument.snapshot (document b)) in
  let so := offset_of (BufferDocument._lines (document b)) start in
  let eo := offset_of (BufferDocument._lines (document b)) end_ in
  ∃ row col,
    in_bounds (document b) start = true
    ∧ in_bounds (document b) end_ = true
    ∧ _cursor_from_offset (document (replaced b start text label so eo 0 0))
        (so + len text) = Ok (row, col)
    ∧ d = {| delta_version := 0;
             delta_text := slice_to before so ++ text ++ slice_from before eo;
             delta_cursor := (row, col);
             delta_selection := BufferState.selection (state b);
             delta_label := label |}
    ∧ b' = replaced b start text label so eo row col.
Proof.
  intros H before so eo.
  destruct (replace_range_Ok _ _ _ _ _ _ _ H)
    as (so' & eo' & row & col & Hs & He & Hso & Heo & Hc & Hb).
  rewrite offset_for_cursor_of in Hso by done. injection Hso as <-.
  rewrite offset_for_cursor_of in Heo by done. injection Heo as <-.
  exists row, col. split; [done|]. split; [done|]. split; [done|].
  rewrite (replace_range_result b start end_ text label row col Hs He Hc) in H.
  injection H as <- <-. by split.
Qed.

(** X5. [replace_range] succeeds whenever both cursors are in bounds. The
    document it leaves has at least one line and no line boundary inside
    a line, the cursor it leaves is in bounds of that document and is the
    cursor of the delta, and the delta carries the label of the call. *)
Theorem replace_range_succeeds_within_bounds
    (b : t) (start end_ : Cursor) (text : str) (label : string) :
  in_bounds (document b) start = true →
  in_bounds (document b) end_ = true →
  ∃ d b',
    replace_range start end_ text label b = (Ok d, b')
    ∧ wf_document (document b')
    ∧ in_bounds (document b') (BufferState.cursor (state b')) = true
    ∧ delta_cursor d = BufferState.cursor (state b')
    ∧ delta_label d = label.
Proof.
  intros Hs He.
  set (so := offset_of (BufferDocument._lines (document b)) start).
  set (eo := offset_of (BufferDocument._lines (document b)) end_).
  set (doc' := document (replaced b start text label so eo 0 0)).
  assert (Hwf : wf_document doc') by apply from_text_wf_any.
  destruct (cursor_from_offset_in_bounds doc' (so + len text))
    as ([row col] & Hc & Hin).
  { apply Hwf. }
  { pose proof (offset_of_range _ _ Hs). pose proof (len_nonneg text).
    fold so in H. lia. }
  eexists _, _. split.
  { by apply (replace_range_result b start end_ text label row col). }
  simpl. done.
Qed.

Lemma replace_range_succeeds_within_bounds_witness :
  in_bounds (document buffer_alpha) (0, 2)%Z = true
  ∧ in_bounds (document buffer_alpha) (0, 5)%Z = true
  ∧ ∃ d b',
      replace_range (0, 2)%Z (0, 5)%Z [13; 10; 120]%N "edit" buffer_alpha
        = (Ok d, b')
      ∧ in_bounds (document b') (BufferState.cursor (state b')) = true.
Proof.
  split; [reflexivity|]. split; [reflexivity|].
  destruct (replace_range_succeeds_within_bounds buffer_alpha (0, 2)%Z (0, 5)%Z
              [13; 10; 120]%N "edit" eq_refl eq_refl)
    as (d & b' & H & _ & Hin & _).
  by exists d, b'.
Defined.

Lemma undo_push e s :
  UndoTimeline.undo (UndoTimeline.push e s)
  = (Ok (Some e),
     UndoTimeline.mk (UndoTimeline._entries (UndoTimeline.push e s))
       (UndoTimeline._index (UndoTimeline.push e s) - 1)).
Proof.
  unfold UndoTimeline.undo, UndoTimeline.can_undo.
  set (entries := if (UndoTimeline._index s <? len (UndoTimeline._entries s) - 1)%Z
                  then slice_to (UndoTimeline._entries s) (UndoTimeline._index s + 1)
                  else UndoTimeline._entries s).
  assert (He : UndoTimeline._entries (UndoTimeline.push e s) = entries ++ [e])
    by reflexivity.
  assert (Hi : UndoTimeline._index (UndoTimeline.push e s) = len entries)
    by (unfold UndoTimeline.push; simpl; fold entries; rewrite len_app;
        unfold len; simpl; lia).
  rewrite Hi, He. pose proof (len_nonneg entries) as Hn.
  destruct (0 <=? len entries)%Z eqn:E; [|apply Z.leb_gt in E; lia]. simpl.
  unfold py_index.
  destruct (len entries <? 0)%Z eqn:E'; [apply Z.ltb_lt in E'; lia|].
  rewrite E'. unfold len. rewrite Nat2Z.id.
  by rewrite lookup_app_r, Nat.sub_diag by lia.
Qed.

(** X6. A successful [replace_range] pushes one entry on the undo
    timeline: the label of the call, the joined text before the edit, the
    text of the delta, the start cursor and the cursor of the delta. That
    entry is the one [undo] returns next, and nothing is left to redo. *)
Theorem replace_range_records_undo_entry
    (b b' : t) (start end_ : Cursor) (text : str) (label : string)
    (d : BufferDelta) :
  replace_range start end_ text label b = (Ok d, b') →
  let entry :=
    mkUndoEntry label (view_text (snapshot b)) (delta_text d) start
      (delta_cursor d) in
  undo b' = UndoTimeline.push entry (undo b)
  ∧ (UndoTimeline.undo (undo b')).1 = Ok (Some entry)
  ∧ UndoTimeline.can_undo (undo b') = true
  ∧ UndoTimeline.can_redo (undo b') = false.
Proof.
  intros H entry.
  destruct (replace_range_Ok_result _ _ _ _ _ _ _ H)
    as (row & col & _ & _ & _ & Hd & Hb).
  assert (Hu : undo b' = UndoTimeline.push entry (undo b)).
  { subst entry. rewrite Hd, Hb. reflexivity. }
  split; [exact Hu|]. rewrite Hu. split; [by rewrite undo_push|].
  pose proof (wf_push entry (undo b)) as Hwf.
  unfold UndoTimeline.can_undo, UndoTimeline.can_redo. split.
  - apply Z.leb_le. unfold UndoTimeline.push. simpl. rewrite len_app.
    match goal with |- context [(len ?l + _)%Z] =>
      pose proof (len_nonneg l) end.
    unfold len in *. simpl. lia.
  - replace (UndoTimeline._index (UndoTimeline.push entry (undo b)))
      with (len (UndoTimeline._entries (UndoTimeline.push entry (undo b))) - 1)%Z
      by reflexivity.
    apply Z.ltb_irrefl.
Qed.

Lemma replace_range_records_undo_entry_witness :
  ∃ d b',
    replace_range (0, 1)%Z (0, 3)%Z [120%N] "edit" buffer_alpha = (Ok d, b')
    ∧ (UndoTimeline.undo (undo b')).1
      = Ok (Some (mkUndoEntry "edit" [97; 108; 112; 104; 97]%N
                    [97; 120; 104; 97]%N (0, 1)%Z (0, 2)%Z)).
Proof.
  set (r := replace_range (0, 1)%Z (0, 3)%Z [120%N] "edit" buffer_alpha).
  set (d := mkBufferDelta 0 [97; 120; 104; 97]%N (0, 2)%Z None "edit").
  assert (H : r = (Ok d, r.2)) by (vm_compute; reflexivity).
  exists d, r.2. split; [exact H|].
  exact (proj1 (proj2 (replace_range_records_undo_entry buffer_alpha r.2
                         (0, 1)%Z (0, 3)%Z [120%N] "edit" d H))).
Defined.

End buffer_edits.

(** ** Reading and editing ranges *)

Section buffer_ranges.
Import Buffer.

Lemma cursor_gt_total (p q : Cursor) :
  cursor_gt p q = false → cursor_gt q p = false → p = q.
Proof.
  destruct p as [rp cp], q as [rq cq]. unfold cursor_gt. simpl.
  intros H1 H2.
  apply orb_false_iff in H1 as [H1 H1'], H2 as [H2 H2'].
  apply Z.ltb_ge in H1, H2. assert (rp = rq) as -> by lia.
  rewrite Z.eqb_refl in H1', H2'. simpl in *.
  apply Z.ltb_ge in H1', H2'. f_equal. lia.
Qed.

Lemma in_bounds_offset_lt doc p q :
  in_bounds doc p = true → in_bounds doc q = true →
  cursor_gt p q = true →
  (offset_of (BufferDocument._lines doc) q
   < offset_of (BufferDocument._lines doc) p)%Z.
Proof.
  destruct p as [rp cp], q as [rq cq]. intros Hp Hq Hgt.
  apply in_bounds_at_cursor in Hp as [Hrp Hp], Hq as [Hrq Hq].
  unfold offset_of. simpl.
  apply (cursor_gt_offset _ _ _ _ _ Hp Hq).
  by rewrite !Z2Nat.id by done.
Qed.

Lemma in_bounds_offset_le doc p q :
  in_bounds doc p = true → in_bounds doc q = true →
  cursor_gt p q = false →
  (offset_of (BufferDocument._lines doc) p
   ≤ offset_of (BufferDocument._lines doc) q)%Z.
Proof.
  intros Hp Hq Hgt. destruct (cursor_gt q p) eqn:Hgt'.
  - pose proof (in_bounds_offset_lt doc q p Hq Hp Hgt'). lia.
  - by rewrite (cursor_gt_total p q).
Qed.

Lemma get_text_range_swapped b p q :
  in_bounds (document b) p = true →
  in_bounds (document b) q = true →
  cursor_gt p q = true →
  get_text_range p q b
  = Ok (slice (_flatten_lines (BufferDocument._lines (document b)))
          (offset_of (BufferDocument._lines (document b)) q)
          (offset_of (BufferDocument._lines (document b)) p)).
Proof.
  intros Hp Hq Hgt. unfold get_text_range, mbind, result_bind.
  rewrite !ensure_cursor_in_bounds by done. rewrite Hgt.
  by rewrite !offset_for_cursor_of by done.
Qed.

Lemma len_slice {A} (l : list A) (lo hi : Z) :
  (0 ≤ lo ≤ hi)%Z → (hi ≤ len l)%Z → len (slice l lo hi) = (hi - lo)%Z.
Proof.
  intros H1 H2. unfold slice. rewrite !py_bound_nonneg by lia.
  unfold len in *. rewrite length_take, length_drop. lia.
Qed.

(** X7. Between two in-bounds cursors [get_text_range] returns the same
    text whichever comes first: the joined text of the document from the
    smaller of the two offsets to the greater, as many characters as the
    offsets differ by. *)
Theorem get_text_range_symmetric (b : t) (p q : Cursor) :
  in_bounds (document b) p = true →
  in_bounds (document b) q = true →
  ∃ op oq,
    _offset_for_cursor (document b) p = Ok op
    ∧ _offset_for_cursor (document b) q = Ok oq
    ∧ get_text_range p q b
      = Ok (slice (view_text (snapshot b)) (Z.min op oq) (Z.max op oq))
    ∧ get_text_range q p b = get_text_range p q b
    ∧ ∀ text, get_text_range p q b = Ok text → len text = Z.abs (op - oq).
Proof.
  intros Hp Hq.
  set (lines := BufferDocument._lines (document b)).
  exists (offset_of lines p), (offset_of lines q).
  split; [by apply offset_for_cursor_of|].
  split; [by apply offset_for_cursor_of|].
  pose proof (offset_of_range _ _ Hp) as Hop. fold lines in Hop.
  pose proof (offset_of_range _ _ Hq) as Hoq. fold lines in Hoq.
  assert (Hpq : get_text_range p q b
                = Ok (slice (_flatten_lines lines)
                        (Z.min (offset_of lines p) (offset_of lines q))
                        (Z.max (offset_of lines p) (offset_of lines q)))).
  { destruct (cursor_gt p q) eqn:Hgt.
    - rewrite get_text_range_swapped by done. fold lines.
      pose proof (in_bounds_offset_lt _ _ _ Hp Hq Hgt). fold lines in H.
      by rewrite Z.min_r, Z.max_l by lia.
    - rewrite get_text_range_ordered by done. fold lines.
      pose proof (in_bounds_offset_le _ _ _ Hp Hq Hgt). fold lines in H.
      by rewrite Z.min_l, Z.max_r by lia. }
  assert (Hqp : get_text_range q p b = get_text_range p q b).
  { rewrite Hpq. destruct (cursor_gt q p) eqn:Hgt.
    - rewrite get_text_range_swapped by done. fold lines.
      pose proof (in_bounds_offset_lt _ _ _ Hq Hp Hgt). fold lines in H.
      by rewrite Z.min_l, Z.max_r by lia.
    - rewrite get_text_range_ordered by done. fold lines.
      pose proof (in_bounds_offset_le _ _ _ Hq Hp Hgt). fold lines in H.
      by rewrite Z.min_r, Z.max_l by lia. }
  split; [exact Hpq|]. split; [exact Hqp|].
  intros text. rewrite Hpq. intros [= <-].
  rewrite len_slice by lia. lia.
Qed.

Lemma get_text_range_symmetric_witness :
  in_bounds (document buffer_with_state) (1, 1)%Z = true
  ∧ in_bounds (document buffer_with_state) (0, 1)%Z = true
  ∧ get_text_range (1, 1)%Z (0, 1)%Z buffer_with_state = Ok [98; 10; 99]%N
  ∧ get_text_range (0, 1)%Z (1, 1)%Z buffer_with_state
    = get_text_range (1, 1)%Z (0, 1)%Z buffer_with_state.
Proof.
  split; [reflexivity|]. split; [reflexivity|]. split; [reflexivity|].
  destruct (get_text_range_symmetric buffer_with_state (1, 1)%Z (0, 1)%Z
              eq_refl eq_refl) as (op & oq & _ & _ & _ & H & _).
  exact H.
Defined.

(** What [replace_range] does on a document whose lines hold no line
    boundary, for a text whose only boundaries are LF characters. *)
Lemma replace_range_edit b start end_ text label :
  wf_document (document b) →
  in_bounds (document b) start = true →
  in_bounds (document b) end_ = true →
  only_LF text →
  let lines := BufferDocument._lines (document b) in
  let before := _flatten_lines lines in
  let so := offset_of lines start in
  let eo := offset_of lines end_ in
  let new_text := take (Z.to_nat so) before ++ text ++ drop (Z.to_nat eo) before in
  ∃ d b',
    replace_range start end_ text label b = (Ok d, b')
    ∧ delta_text d = new_text
    ∧ delta_cursor d = BufferState.cursor (state b')
    ∧ _flatten_lines (BufferDocument._lines (document b')) = new_text
    ∧ wf_document (document b')
    ∧ in_bounds (document b') start = true
    ∧ offset_of (BufferDocument._lines (document b')) start = so
    ∧ in_bounds (document b') (BufferState.cursor (state b')) = true
    ∧ offset_of (BufferDocument._lines (document b'))
        (BufferState.cursor (state b')) = (so + len text)%Z
    ∧ BufferState.selection (state b') = BufferState.selection (state b)
    ∧ registers b' = registers b.
Proof.
  intros [Hne Hbf] Hs He Htext lines before so eo new_text.
  pose proof (offset_of_range _ _ Hs) as Hso. fold lines before so in Hso.
  pose proof (offset_of_range _ _ He) as Heo. fold lines before eo in Heo.
  assert (Hnew : slice_to before so ++ text ++ slice_from before eo = new_text).
  { unfold new_text. by rewrite slice_to_nonneg, slice_from_nonneg. }
  assert (Hlen_p : length (take (Z.to_nat so) before) = Z.to_nat so).
  { rewrite length_take. unfold len in Hso. lia. }
  assert (Hlf : only_LF new_text).
  { pose proof (flatten_only_LF lines Hbf) as Hb.
    fold before in Hb. unfold only_LF, new_text in *.
    apply Forall_app. split; [by apply Forall_take|].
    apply Forall_app. split; [done | by apply Forall_drop]. }
  set (doc' := BufferDocument.from_text new_text).
  set (lines' := BufferDocument._lines doc').
  assert (Hl' : lines' = split_LF new_text) by by apply from_text_lines.
  assert (Hflat : _flatten_lines lines' = new_text)
    by by rewrite Hl', flatten_split_LF.
  assert (Hne' : lines' ≠ []) by (rewrite Hl'; apply split_LF_nonempty).
  assert (Hbf' : Forall break_free lines')
    by (rewrite Hl'; by apply split_LF_break_free).
  assert (Hlen_new : len new_text
                     = (so + len text + len (drop (Z.to_nat eo) before))%Z).
  { unfold new_text. rewrite !len_app. unfold len at 1. rewrite Hlen_p. lia. }
  pose proof (len_nonneg text) as Hlt.
  pose proof (len_nonneg (drop (Z.to_nat eo) before)) as Hld.
  destruct (cursor_scan_within lines' 0 0 (so + len text) Hne')
    as (r' & c' & Hscan' & Hat' & Hoff'); [rewrite Hflat; lia|].
  rewrite !Z.add_0_l in Hscan'.
  assert (Hdoc : document (replaced b start text label so eo 0 0) = doc').
  { change (document (replaced b start text label so eo 0 0))
      with (BufferDocument.from_text
              (slice_to before so ++ text ++ slice_from before eo)).
    by rewrite Hnew. }
  assert (Hcur : _cursor_from_offset
                   (document (replaced b start text label so eo 0 0))
                   (so + len text) = Ok (Z.of_nat r', c')).
  { rewrite Hdoc. unfold _cursor_from_offset, BufferDocument.snapshot.
    fold lines'. by rewrite Hscan'. }
  pose proof (replace_range_result b start end_ text label (Z.of_nat r') c'
                Hs He Hcur) as Hd.
  cbv zeta in Hd. fold lines before so eo in Hd.
  unfold BufferDocument.snapshot in Hd. fold lines before in Hd.
  rewrite Hnew in Hd.
  eexists _, _. split; [exact Hd|].
  assert (Hdoc' : document (replaced b start text label so eo (Z.of_nat r') c')
                  = doc').
  { change (document (replaced b start text label so eo (Z.of_nat r') c'))
      with (BufferDocument.from_text
              (slice_to before so ++ text ++ slice_from before eo)).
    by rewrite Hnew. }
  rewrite Hdoc'.
  change (BufferState.cursor
            (state (replaced b start text label so eo (Z.of_nat r') c')))
    with (Z.of_nat r', c').
  fold lines'.
  split; [done|]. split; [done|]. split; [done|]. split; [by split|].
  assert (Hin' : in_bounds doc' (Z.of_nat r', c') = true).
  { apply in_bounds_at_cursor. split; [lia|]. by rewrite Nat2Z.id. }
  assert (Hoff_cur : offset_of lines' (Z.of_nat r', c') = (so + len text)%Z).
  { unfold offset_of. simpl. by rewrite Nat2Z.id. }
  destruct start as [rs cs].
  pose proof Hs as Hs'. apply in_bounds_at_cursor in Hs' as [Hrs Hats].
  assert (Hscan_s : cursor_scan lines' 0 0 so = Some (rs, cs)).
  { replace so with (Z.of_nat (Z.to_nat so)) by lia.
    rewrite <- (cursor_scan_prefix lines lines'); try done.
    - replace (Z.of_nat (Z.to_nat so)) with (0 + so)%Z by lia.
      unfold so, offset_of. simpl.
      rewrite cursor_scan_offset by done. f_equal. f_equal. lia.
    - fold before. unfold len in Hso. lia.
    - rewrite Hflat. unfold len in Hlen_new. lia.
    - rewrite Hflat. unfold new_text. fold before.
      by rewrite take_app_length' by done. }
  destruct (cursor_scan_within lines' 0 0 so Hne')
    as (r & c & Hscan & Hat & Hoff); [rewrite Hflat; lia|].
  rewrite !Z.add_0_l in Hscan. rewrite Hscan_s in Hscan.
  injection Hscan as -> ->.
  assert (Hin_s : in_bounds doc' (Z.of_nat r, c) = true).
  { apply in_bounds_at_cursor. split; [lia|]. by rewrite Nat2Z.id. }
  assert (Hoff_s : offset_of lines' (Z.of_nat r, c) = so).
  { unfold offset_of. simpl. by rewrite Nat2Z.id. }
  done.
Qed.

(** X8. On a document whose lines hold no line boundary, for in-bounds
    cursors and a text whose only line boundaries are LF characters, a
    [replace_range] succeeds and the snapshot text after it is the text
    before [start], then [text], then the text from [end_] on; the delta
    carries that same text; the start cursor is still in bounds, at the
    same offset; and the cursor left is at that offset plus the length of
    [text]. *)
Theorem replace_range_splices_text
    (b : t) (start end_ : Cursor) (text : str) (label : string) :
  wf_document (document b) →
  in_bounds (document b) start = true →
  in_bounds (document b) end_ = true →
  only_LF text →
  ∃ d b' so eo,
    replace_range start end_ text label b = (Ok d, b')
    ∧ _offset_for_cursor (document b) start = Ok so
    ∧ _offset_for_cursor (document b) end_ = Ok eo
    ∧ view_text (snapshot b')
      = slice_to (view_text (snapshot b)) so ++ text
          ++ slice_from (view_text (snapshot b)) eo
    ∧ delta_text d = view_text (snapshot b')
    ∧ view_cursor (snapshot b') = delta_cursor d
    ∧ _offset_for_cursor (document b') start = Ok so
    ∧ _offset_for_cursor (document b') (delta_cursor d) = Ok (so + len text)%Z.
Proof.
  intros Hwf Hs He Htext.
  destruct (replace_range_edit b start end_ text label Hwf Hs He Htext)
    as (d & b' & Hd & Hdt & Hdc & Hflat & Hwf' & Hs' & Hso' & Hc' & Hco' & _).
  exists d, b', (offset_of (BufferDocument._lines (document b)) start),
    (offset_of (BufferDocument._lines (document b)) end_).
  pose proof (offset_of_range _ _ Hs) as Hso.
  pose proof (offset_of_range _ _ He) as Heo.
  split; [exact Hd|].
  split; [by apply offset_for_cursor_of|].
  split; [by apply offset_for_cursor_of|].
  unfold snapshot, BufferDocument.snapshot. simpl.
  rewrite slice_to_nonneg, slice_from_nonneg by done.
  split; [exact Hflat|]. split; [by rewrite Hdt, Hflat|].
  split; [done|].
  split; [by rewrite offset_for_cursor_of, Hso' by done|].
  by rewrite Hdc, offset_for_cursor_of, Hco' by done.
Qed.

Lemma replace_range_splices_text_witness :
  wf_document (document buffer_with_state)
  ∧ only_LF [120; 10]%N
  ∧ ∃ d b',
      replace_range (0, 1)%Z (1, 0)%Z [120; 10]%N "edit" buffer_with_state
        = (Ok d, b')
      ∧ view_text (snapshot b') = [97; 120; 10; 99]%N.
Proof.
  assert (Hwf : wf_document (document buffer_with_state)).
  { split; [done|]. repeat constructor; by vm_compute. }
  assert (Htext : only_LF [120; 10]%N).
  { unfold only_LF. repeat constructor; by vm_compute. }
  split; [exact Hwf|]. split; [exact Htext|].
  destruct (replace_range_splices_text buffer_with_state (0, 1)%Z (1, 0)%Z
              [120; 10]%N "edit" Hwf eq_refl eq_refl Htext)
    as (d & b' & so & eo & Hd & Hso & Heo & Hv & _).
  exists d, b'. split; [exact Hd|]. rewrite Hv.
  vm_compute in Hso. vm_compute in Heo.
  injection Hso as <-. injection Heo as <-. reflexivity.
Defined.

(** X9. Inserting a text and deleting it again restores the document: on
    a document whose lines hold no line boundary, after [insert_text] of a
    text whose only line boundaries are LF characters at an in-bounds
    position, [delete_range] from that position to the cursor the
    insertion left succeeds, and gives back the lines of the document and
    the position as the cursor. *)
Theorem insert_then_delete_restores
    (b : t) (text : str) (cursor : option Cursor) :
  let position := default (BufferState.cursor (state b)) cursor in
  wf_document (document b) →
  in_bounds (document b) position = true →
  only_LF text →
  ∃ d1 b1 d2 b2,
    insert_text text cursor b = (Ok d1, b1)
    ∧ delete_range position (delta_cursor d1) b1 = (Ok d2, b2)
    ∧ BufferDocument.snapshot (document b2)
      = BufferDocument.snapshot (document b)
    ∧ delta_text d2 = view_text (snapshot b)
    ∧ BufferState.cursor (state b2) = position.
Proof.
  intros position Hwf Hp Htext.
  set (lines := BufferDocument._lines (document b)).
  set (before := _flatten_lines lines).
  set (so := offset_of lines position).
  pose proof (offset_of_range _ _ Hp) as Hso. fold lines before so in Hso.
  destruct (replace_range_edit b position position text "insert_text"
              Hwf Hp Hp Htext)
    as (d1 & b1 & Hd1 & Hdt1 & Hdc1 & Hflat1 & Hwf1 & Hp1 & Hso1 & Hc1 & Hco1 & _).
  fold lines before so in Hdt1, Hflat1, Hso1, Hco1.
  assert (Hempty : only_LF []) by constructor.
  destruct (replace_range_edit b1 position (BufferState.cursor (state b1)) []
              "delete_range" Hwf1 Hp1 Hc1 Hempty)
    as (d2 & b2 & Hd2 & Hdt2 & Hdc2 & Hflat2 & Hwf2 & Hp2 & Hso2 & Hc2 & Hco2 & _).
  rewrite Hso1, Hco1, Hflat1 in Hdt2, Hflat2. rewrite Hso1 in Hso2, Hco2.
  assert (Hlen_p : length (take (Z.to_nat so) before) = Z.to_nat so).
  { rewrite length_take. unfold len in Hso. lia. }
  assert (Hback : take (Z.to_nat so)
                    (take (Z.to_nat so) before ++ text
                       ++ drop (Z.to_nat so) before)
                  ++ [] ++ drop (Z.to_nat (so + len text))
                       (take (Z.to_nat so) before ++ text
                          ++ drop (Z.to_nat so) before)
                  = before).
  { rewrite take_app_length' by done.
    rewrite (app_assoc (take (Z.to_nat so) before) text).
    rewrite drop_app_length'
      by (rewrite length_app, Hlen_p; unfold len; lia).
    simpl. apply take_drop. }
  rewrite Hback in Hdt2, Hflat2.
  exists d1, b1, d2, b2.
  split; [exact Hd1|]. split; [by rewrite Hdc1|].
  assert (Hlines : BufferDocument._lines (document b2) = lines).
  { destruct Hwf2 as [Hne2 Hbf2]. destruct Hwf as [Hne Hbf].
    rewrite <- (split_LF_flatten _ Hne2 Hbf2), Hflat2.
    by apply split_LF_flatten. }
  split; [exact Hlines|]. split; [exact Hdt2|].
  change (len []) with 0%Z in Hco2. rewrite Z.add_0_r in Hco2.
  rewrite Hlines in Hco2.
  assert (Hdocs : ∀ c, in_bounds (document b2) c = in_bounds (document b) c).
  { intros c. unfold in_bounds, BufferDocument.line_count.
    by rewrite Hlines. }
  rewrite Hdocs in Hc2.
  by apply (offset_of_inj (document b)).
Qed.

Lemma insert_then_delete_restores_witness :
  wf_document (document buffer_with_state)
  ∧ only_LF [120; 10; 121]%N
  ∧ ∃ d1 b1 d2 b2,
      insert_text [120; 10; 121]%N None buffer_with_state = (Ok d1, b1)
      ∧ delete_range (0, 1)%Z (delta_cursor d1) b1 = (Ok d2, b2)
      ∧ BufferDocument.snapshot (document b2) = [[97; 98]; [99]]%N.
Proof.
  assert (Hwf : wf_document (document buffer_with_state)).
  { split; [done|]. repeat constructor; by vm_compute. }
  assert (Htext : only_LF [120; 10; 121]%N).
  { unfold only_LF. repeat constructor; by vm_compute. }
  split; [exact Hwf|]. split; [exact Htext|].
  destruct (insert_then_delete_restores buffer_with_state [120; 10; 121]%N None
              Hwf eq_refl Htext)
    as (d1 & b1 & d2 & b2 & H1 & H2 & H3 & _).
  by exists d1, b1, d2, b2.
Defined.

End buffer_ranges.

(** ** Undo and redo, there and back *)

Section undo_redo.
Import UndoTimeline.

Lemma undo_then_redo s :
  wf s → can_undo s = true →
  ∃ e, undo s = (Ok (Some e), mk (_entries s) (_index s - 1))
       ∧ redo (mk (_entries s) (_index s - 1)) = (Ok (Some e), s).
Proof.
  intros Hwf Hu. unfold can_undo in Hu. apply Z.leb_le in Hu.
  unfold wf in Hwf.
  destruct (py_index_inrange (_entries s) (_index s)) as (e & Hl & He); [lia|].
  exists e. split.
  - unfold undo, can_undo. rewrite (proj2 (Z.leb_le _ _) Hu). simpl.
    by rewrite He.
  - unfold redo, can_redo. simpl.
    rewrite (proj2 (Z.ltb_lt _ _)) by lia. simpl.
    replace (_index s - 1 + 1)%Z with (_index s) by lia.
    rewrite He. by destruct s.
Qed.

Lemma redo_then_undo s :
  wf s → can_redo s = true →
  ∃ e, redo s = (Ok (Some e), mk (_entries s) (_index s + 1))
       ∧ undo (mk (_entries s) (_index s + 1)) = (Ok (Some e), s).
Proof.
  intros Hwf Hr. unfold can_redo in Hr. apply Z.ltb_lt in Hr.
  unfold wf in Hwf.
  destruct (py_index_inrange (_entries s) (_index s + 1)) as (e & Hl & He);
    [lia|].
  exists e. split.
  - unfold redo, can_redo. rewrite (proj2 (Z.ltb_lt _ _) Hr). simpl.
    by rewrite He.
  - unfold undo, can_undo. simpl.
    rewrite (proj2 (Z.leb_le _ _)) by lia. simpl.
    rewrite He. replace (_index s + 1 - 1)%Z with (_index s) by lia.
    by destruct s.
Qed.

(** X10. On a timeline built through [push], [undo] and [redo], the index
    is [-1] or points at an entry, so that neither [undo] nor [redo]
    raises; an [undo] that returns an entry is taken back by the next
    [redo], which returns the same entry and restores the timeline, and
    a [redo] that returns an entry is taken back by the next [undo]. *)
Theorem undo_redo_roundtrip (s : t) :
  reachable s →
  (-1 ≤ _index s < len (_entries s))%Z
  ∧ (∃ r, (undo s).1 = Ok r)
  ∧ (∃ r, (redo s).1 = Ok r)
  ∧ (can_undo s = true →
     ∃ e s', undo s = (Ok (Some e), s') ∧ redo s' = (Ok (Some e), s))
  ∧ (can_redo s = true →
     ∃ e s', redo s = (Ok (Some e), s') ∧ undo s' = (Ok (Some e), s)).
Proof.
  intros Hr. pose proof (reachable_wf s Hr) as Hwf.
  split; [exact Hwf|].
  assert (Hu : can_undo s = true →
               ∃ e s', undo s = (Ok (Some e), s') ∧ redo s' = (Ok (Some e), s)).
  { intros H. destruct (undo_then_redo s Hwf H) as (e & H1 & H2). eauto. }
  assert (Hre : can_redo s = true →
                ∃ e s', redo s = (Ok (Some e), s') ∧ undo s' = (Ok (Some e), s)).
  { intros H. destruct (redo_then_undo s Hwf H) as (e & H1 & H2). eauto. }
  split; [|split; [|by split]].
  - destruct (can_undo s) eqn:E.
    + destruct (Hu eq_refl) as (e & s' & -> & _). eauto.
    + unfold undo. rewrite E. simpl. eauto.
  - destruct (can_redo s) eqn:E.
    + destruct (Hre eq_refl) as (e & s' & -> & _). eauto.
    + unfold redo. rewrite E. simpl. eauto.
Qed.

Lemma undo_redo_roundtrip_witness :
  reachable timeline_after_undo
  ∧ redo timeline_after_undo
    = (Ok (Some entry_b), push entry_b (push entry_a init))
  ∧ ∃ e s', redo timeline_after_undo = (Ok (Some e), s')
            ∧ undo s' = (Ok (Some e), timeline_after_undo).
Proof.
  assert (H : reachable timeline_after_undo).
  { apply reach_undo, reach_push, reach_push, reach_init. }
  split; [exact H|]. split; [reflexivity|].
  exact (proj2 (proj2 (proj2 (proj2 (undo_redo_roundtrip _ H)))) eq_refl).
Defined.

End undo_redo.

(** ** Registers *)

Section registers.
Import RegisterBank.

Lemma get_set name value bank : get name (set name value bank) = value.
Proof.
  unfold get, set. simpl. case_bool_decide as Hn.
  - rewrite lookup_insert_ne by done. by rewrite lookup_insert_eq.
  - by rewrite lookup_insert_eq.
Qed.

Lemma get_set_unnamed name value bank :
  get unnamed_register (set name value bank) = value.
Proof.
  unfold get, set. simpl. case_bool_decide as Hn.
  - by rewrite lookup_insert_eq.
  - subst. by rewrite lookup_insert_eq.
Qed.

Lemma get_set_other name value bank other :
  other ≠ name → other ≠ unnamed_register →
  get other (set name value bank) = get other bank.
Proof.
  intros H1 H2. unfold get, set. simpl. case_bool_decide.
  - by rewrite !lookup_insert_ne by done.
  - by rewrite lookup_insert_ne by done.
Qed.

(** X11. Every write to a register is mirrored into the unnamed register
    and touches no other: after [set], [yank_to] or [append] on a name,
    both that register and the unnamed one hold the value written (for
    [append], the text of the register followed by the appended text,
    under the type the register had), and every other register reads as
    before. A register never written reads as the empty character
    value. *)
Theorem register_writes_mirror_unnamed
    (bank : t) (name : string) (value : RegisterValue) (text : str)
    (register_type : string) :
  let appended :=
    mkRegisterValue (rv_text (get name bank) ++ text) (rv_type (get name bank)) in
  get name (set name value bank) = value
  ∧ get unnamed_register (set name value bank) = value
  ∧ get name (yank_to name text register_type bank)
    = mkRegisterValue text register_type
  ∧ get unnamed_register (yank_to name text register_type bank)
    = mkRegisterValue text register_type
  ∧ get name (append name text bank) = appended
  ∧ get unnamed_register (append name text bank) = appended
  ∧ (∀ other, other ≠ name → other ≠ unnamed_register →
       get other (set name value bank) = get other bank
       ∧ get other (yank_to name text register_type bank) = get other bank
       ∧ get other (append name text bank) = get other bank)
  ∧ get name init = mkRegisterValue [] "character".
Proof.
  intros appended. unfold yank_to, append.
  rewrite !get_set, !get_set_unnamed.
  repeat (split; [done|]). split.
  - intros other H1 H2. by rewrite !get_set_other by done.
  - unfold get, init. simpl.
    destruct (decide (name = unnamed_register)) as [->|Hn].
    + by rewrite lookup_singleton_eq.
    + by rewrite lookup_singleton_ne.
Qed.

Lemma register_writes_mirror_unnamed_witness :
  get "b" (append "a" [98%N] (yank_to "a" [97%N] "line" init))
  = get "b" (yank_to "a" [97%N] "line" init)
  ∧ get unnamed_register (append "a" [98%N] (yank_to "a" [97%N] "line" init))
    = mkRegisterValue [97; 98]%N "line".
Proof.
  pose proof (register_writes_mirror_unnamed
                (yank_to "a" [97%N] "line" init) "a"
                (mkRegisterValue [] "character") [98%N] "character")
    as (_ & _ & _ & _ & _ & Hu & Ho & _).
  split; [|exact Hu].
  refine (proj2 (proj2 (Ho "b" _ _))); by vm_compute.
Defined.

(** X12. Loading what [serialize] returned: a register the data names
    reads as in the serialized bank, any other register as before the
    load; loaded into a new bank, every register reads as in the
    serialized bank. *)
Theorem register_load_serialize (bank other : t) (name : string) :
  get name (RegisterBankStore.load (RegisterBankStore.serialize bank) other)
  = match RegisterBankStore.serialize bank !! name with
    | Some value => value
    | None => get name other
    end
  ∧ get name (RegisterBankStore.load (RegisterBankStore.serialize bank) init)
    = get name bank.
Proof.
  assert (Hcopy : (λ v, mkRegisterValue (rv_text v) (rv_type v))
                    <$> _registers bank = _registers bank).
  { apply map_eq. intros k. rewrite lookup_fmap.
    destruct (_registers bank !! k) as [[tx ty]|]; done. }
  unfold RegisterBankStore.load, RegisterBankStore.serialize, get. simpl.
  rewrite Hcopy.
  destruct (_registers bank !! name) as [v|] eqn:Hv.
  - by rewrite !(lookup_union_Some_l _ _ _ _ Hv).
  - rewrite !lookup_union_r by done. split; [done|]. simpl.
    destruct (decide (name = unnamed_register)) as [->|Hn].
    + by rewrite lookup_singleton_eq.
    + by rewrite lookup_singleton_ne.
Qed.

End registers.

(* ================================================================== *)
(** * Further properties of the keymaps *)

(** ** Guards *)

Section guards.
Import KeymapRegistry.

Lemma contexts_overlap_refl b : _contexts_overlap b b = true.
Proof.
  apply contexts_overlap_rule. unfold conflict_rule.
  destruct (decide (Binding.when b = [])); [by left|by right].
Qed.

Lemma contexts_overlap_sym b1 b2 :
  _contexts_overlap b1 b2 = _contexts_overlap b2 b1.
Proof.
  apply eq_true_iff_eq.
  by rewrite !contexts_overlap_rule, (conflict_rule_sym b1 b2).
Qed.

Lemma contexts_overlap_trans b1 b2 b3 :
  _contexts_overlap b1 b2 = true → _contexts_overlap b2 b3 = true →
  _contexts_overlap b1 b3 = true.
Proof.
  rewrite !contexts_overlap_rule. unfold conflict_rule.
  intros [[H1 H2]|(H1 & H2 & H12)] [[H2' H3]|(H2' & H3 & H23)];
    try done; [by left|right].
  split; [done|]. split; [done|]. congruence.
Qed.

(** X13. [_contexts_overlap], the test behind every conflict the registry
    reports, is an equivalence on bindings: a binding overlaps itself, the
    order of the two bindings does not matter, and two bindings that both
    overlap a third overlap each other. *)
Theorem contexts_overlap_equivalence :
  (∀ b, _contexts_overlap b b = true)
  ∧ (∀ b1 b2, _contexts_overlap b1 b2 = _contexts_overlap b2 b1)
  ∧ (∀ b1 b2 b3,
       _contexts_overlap b1 b2 = true → _contexts_overlap b2 b3 = true →
       _contexts_overlap b1 b3 = true).
Proof.
  split; [exact contexts_overlap_refl|].
  split; [exact contexts_overlap_sym|exact contexts_overlap_trans].
Qed.

(** A binding that allows the context agrees with the context on every
    flag of its map. *)
Lemma when_map_allows context b flag expected :
  Binding.when_map b !! flag = Some expected →
  Binding.allows context b = true →
  default false (context !! flag) = expected.
Proof.
  unfold Binding.when_map, Binding.allows.
  induction (Binding.when b) as [|c clauses IH] using rev_ind;
    [simpl; by rewrite lookup_empty|].
  rewrite foldl_app, forallb_app. simpl.
  intros Hl [Hall Hc]%andb_true_iff.
  rewrite andb_true_r in Hc.
  destruct (decide (WhenClause.flag c = flag)) as [<-|Hne].
  - rewrite lookup_insert_eq in Hl. injection Hl as <-.
    unfold WhenClause.evaluate in Hc. by apply eqb_prop in Hc.
  - rewrite lookup_insert_ne in Hl by done. by apply IH.
Qed.

(** X14. Two bindings whose guards share a flag with opposite expected
    values never overlap for the registry, and no context allows both of
    them. *)
Theorem opposite_guards_exclusive
    (left right : Binding.t) (context : gmap string bool) :
  guards_differ (Binding.when_map left) (Binding.when_map right) = true →
  _contexts_overlap left right = false
  ∧ _contexts_overlap right left = false
  ∧ Binding.allows context left && Binding.allows context right = false.
Proof.
  intros Hd.
  assert (Ho : _contexts_overlap left right = false).
  { apply not_true_iff_false. rewrite contexts_overlap_rule.
    intros [[Hl Hr]|(_ & _ & Heq)].
    - unfold Binding.when_map in Hd. rewrite Hl in Hd. simpl in Hd.
      unfold guards_differ in Hd. by rewrite map_to_list_empty in Hd.
    - rewrite Heq, guards_differ_refl in Hd. done. }
  split; [exact Ho|]. split; [by rewrite contexts_overlap_sym|].
  unfold guards_differ in Hd.
  apply existsb_exists in Hd as [[flag expected] [Hin Hd]].
  apply list_elem_of_In, elem_of_map_to_list in Hin.
  destruct (Binding.when_map right !! flag) as [v|] eqn:Hr; [|done].
  destruct (Binding.allows context left) eqn:Hal; [|done].
  destruct (Binding.allows context right) eqn:Har; [|done].
  pose proof (when_map_allows _ _ _ _ Hin Hal) as H1.
  pose proof (when_map_allows _ _ _ _ Hr Har) as H2.
  rewrite H1 in H2. subst v. by destruct expected.
Qed.

Lemma opposite_guards_exclusive_witness :
  guards_differ (Binding.when_map binding_panel)
    (Binding.when_map binding_no_panel) = true
  ∧ Binding.allows {[ "panel_open" := true ]} binding_panel = true
  ∧ Binding.allows {[ "panel_open" := true ]} binding_no_panel = false.
Proof.
  assert (H : guards_differ (Binding.when_map binding_panel)
                (Binding.when_map binding_no_panel) = true)
    by (vm_compute; reflexivity).
  split; [exact H|].
  pose proof (opposite_guards_exclusive binding_panel binding_no_panel
                {[ "panel_open" := true ]} H) as (_ & _ & Hex).
  assert (Hp : Binding.allows {[ "panel_open" := true ]} binding_panel = true)
    by (vm_compute; reflexivity).
  split; [exact Hp|]. rewrite Hp in Hex. exact Hex.
Defined.

End guards.

(** ** What the calls of the registry do *)

(** The last three statements of [register_binding]: store, index, touch. *)
Definition stored (b : Binding.t) (r : KeymapRegistry.t) : KeymapRegistry.t :=
  KeymapRegistry._touch_bindings
    (KeymapRegistry._index_binding b
       (KeymapRegistry.set_bindings
          (<[Binding.id b := b]> (KeymapRegistry._bindings r)) r)).

(** The registry once [register_binding] with [replace] has dropped the
    conflicts and the binding under the id of the new one. *)
Definition cleared (b : Binding.t) (conflicts : list Binding.t)
    (r : KeymapRegistry.t) : KeymapRegistry.t :=
  let r1 := foldl (λ s conflict, KeymapRegistry.drop_binding conflict s)
              r conflicts in
  match KeymapRegistry._bindings r1 !! Binding.id b with
  | Some existing => KeymapRegistry.drop_binding existing r1
  | None => r1
  end.

Section registry_effects.
Import KeymapRegistry.

#[local] Arguments _remove_binding : simpl never.
#[local] Arguments _index_binding : simpl never.
#[local] Arguments bucket_of : simpl never.

Lemma detect_conflicts_spec b r :
  reg_wf r →
  ∃ conflicts,
    detect_conflicts b [] r = Ok conflicts
    ∧ ∀ c, c ∈ conflicts ↔
           _bindings r !! Binding.id c = Some c
           ∧ Binding.mode c = Binding.mode b
           ∧ Binding.key_signature c = Binding.key_signature b
           ∧ _contexts_overlap b c = true.
Proof.
  intros Hwf. unfold detect_conflicts.
  destruct (conflicts_among_spec b
              (elements (bucket_of (Binding.mode b) (Binding.key_signature b) r))
              r) as (conflicts & Hc & Hspec).
  { apply Forall_forall. intros id Hid. apply elem_of_elements in Hid.
    by apply (reg_wf_index_registered r Hwf) in Hid. }
  exists conflicts. split; [done|]. intros c. rewrite Hspec. split.
  - intros [(id & Hid & Hl) Ho]. apply elem_of_elements in Hid.
    apply (wf_index _ Hwf) in Hid as (b' & Hl' & Hm & Hs).
    assert (b' = c) as -> by congruence.
    pose proof (wf_ids _ Hwf _ _ Hl) as Hidc. by rewrite Hidc.
  - intros (Hl & Hm & Hs & Ho). split; [|done].
    exists (Binding.id c). split; [|done].
    apply elem_of_elements, (wf_index _ Hwf). by exists c.
Qed.

(** [register_binding], branch by branch. *)
Lemma register_binding_cases b replace r conflicts :
  detect_conflicts b [] r = Ok conflicts →
  register_binding b replace r
  = if bool_decide (_actions r !! Binding.action_id b = None) then
      (Raise (KeyError (Binding.action_id b)), r)
    else if negb (bool_decide (conflicts = [])) && negb replace then
      (Raise (KeymapConflictError (Binding.id b) (Binding.id <$> conflicts)), r)
    else if replace then (Ok b, stored b (cleared b conflicts r))
    else if bool_decide (is_Some (_bindings r !! Binding.id b)) then
      (Raise (ValueError (Binding.id b)), r)
    else (Ok b, stored b r).
Proof.
  intros Hc.
  unfold register_binding, mbind, M_bind, get, raise, modify, lift, mret, M_ret.
  simpl.
  destruct (bool_decide (_actions r !! Binding.action_id b = None)); [done|].
  rewrite Hc.
  destruct (negb _ && negb replace); [done|].
  destruct replace; simpl.
  - unfold cleared.
    by destruct (_bindings (foldl _ r conflicts) !! Binding.id b).
  - by destruct (bool_decide (is_Some (_bindings r !! Binding.id b))).
Qed.

Lemma actions_index_binding b r : _actions (_index_binding b r) = _actions r.
Proof. reflexivity. Qed.

Lemma actions_drop_binding c r : _actions (drop_binding c r) = _actions r.
Proof.
  transitivity (_actions (_remove_binding c r)); [reflexivity|].
  apply actions_remove_binding.
Qed.

Lemma drop_bindings_effect conflicts r :
  let r' := foldl (λ s conflict, drop_binding conflict s) r conflicts in
  _actions r' = _actions r
  ∧ _revision r' = _revision r
  ∧ ∀ k, _bindings r' !! k
         = if bool_decide (k ∈ Binding.id <$> conflicts) then None
           else _bindings r !! k.
Proof.
  revert r. induction conflicts as [|c rest IH]; intros r; simpl.
  - split; [done|]. split; [done|]. intros k.
    first [done | by rewrite bool_decide_eq_false_2 by apply not_elem_of_nil].
  - destruct (IH (drop_binding c r)) as (Ha & Hr & Hb).
    split; [by rewrite Ha, actions_drop_binding|].
    split; [by rewrite Hr, revision_drop_binding|].
    intros k. rewrite Hb, bindings_drop_binding.
    destruct (decide (k = Binding.id c)) as [->|Hk].
    + rewrite lookup_delete_eq.
      rewrite (bool_decide_eq_true_2 (_ ∈ _ :: _)) by left.
      by destruct (bool_decide _).
    + rewrite lookup_delete_ne by done.
      destruct (decide (k ∈ Binding.id <$> rest)) as [Hin|Hin].
      * rewrite !bool_decide_eq_true_2; [done|by right|done].
      * rewrite !bool_decide_eq_false_2; [done| |done].
        by intros [?|?]%elem_of_cons.
Qed.

Lemma cleared_effect b conflicts r :
  reg_wf r →
  (∀ c, c ∈ conflicts → _bindings r !! Binding.id c = Some c) →
  reg_wf (cleared b conflicts r)
  ∧ _actions (cleared b conflicts r) = _actions r
  ∧ _revision (cleared b conflicts r) = _revision r
  ∧ ∀ k, _bindings (cleared b conflicts r) !! k
         = if bool_decide (k = Binding.id b) then None
           else if bool_decide (k ∈ Binding.id <$> conflicts) then None
           else _bindings r !! k.
Proof.
  intros Hwf Hreg. unfold cleared.
  destruct (drop_bindings_effect conflicts r) as (Ha & Hr & Hb).
  destruct (drop_bindings_wf conflicts r Hwf) as [Hwf1 _];
    [intros c Hc; left; by apply Hreg|].
  set (r1 := foldl (λ s conflict, drop_binding conflict s) r conflicts) in *.
  destruct (_bindings r1 !! Binding.id b) as [existing|] eqn:Hex.
  - pose proof (wf_ids _ Hwf1 _ _ Hex) as Hid.
    split; [apply drop_binding_wf; [done|left; by rewrite Hid]|].
    split; [by rewrite actions_drop_binding|].
    split; [by rewrite revision_drop_binding|].
    intros k. rewrite bindings_drop_binding, Hid.
    case_bool_decide as Hk.
    + subst k. by rewrite lookup_delete_eq.
    + rewrite lookup_delete_ne by done. apply Hb.
  - split; [done|]. split; [done|]. split; [done|].
    intros k. case_bool_decide as Hk; [by subst k|]. apply Hb.
Qed.

Lemma stored_effect b r :
  _actions (stored b r) = _actions r
  ∧ _revision (stored b r) = (_revision r + 1)%Z
  ∧ _bindings (stored b r) = <[Binding.id b := b]> (_bindings r)
  ∧ ∀ mode sig id,
      id ∈ bucket_of mode sig (stored b r) ↔
      id ∈ bucket_of mode sig r
      ∨ (mode = Binding.mode b ∧ sig = Binding.key_signature b
         ∧ id = Binding.id b).
Proof.
  split; [done|]. split; [done|]. split; [done|].
  intros mode sig id. unfold stored.
  change (bucket_of mode sig (_touch_bindings ?x)) with (bucket_of mode sig x).
  by rewrite elem_of_bucket_index.
Qed.

(** [update_binding], branch by branch. *)
Lemma update_binding_cases binding_id changes r :
  reg_wf r →
  update_binding binding_id changes r
  = match _bindings r !! binding_id with
    | None => (Raise (KeyError binding_id), r)
    | Some current =>
        match Binding.replace current changes with
        | Raise e => (Raise e, r)
        | Ok updated =>
            if bool_decide (_actions r !! Binding.action_id updated = None)
            then (Raise (KeyError (Binding.action_id updated)), r)
            else
              match detect_conflicts updated [] (_remove_binding current r) with
              | Raise e => (Raise e, _remove_binding current r)
              | Ok conflicts =>
                  if bool_decide (conflicts = []) then
                    (Ok updated,
                     _touch_bindings
                       (_index_binding updated
                          (set_bindings
                             (<[binding_id := updated]>
                                (_bindings (_remove_binding current r)))
                             (_remove_binding current r))))
                  else
                    (Raise (KeymapConflictError (Binding.id updated)
                              (Binding.id <$> conflicts)), r)
              end
        end
    end.
Proof.
  intros Hwf.
  unfold update_binding, mbind, M_bind, get, raise, modify, lift, mret, M_ret.
  simpl.
  destruct (_bindings r !! binding_id) as [current|] eqn:Hcur; simpl; [|done].
  pose proof (wf_ids _ Hwf _ _ Hcur) as Hcid.
  destruct (Binding.replace current changes) as [updated|e]; simpl; [|done].
  destruct (bool_decide (_actions r !! Binding.action_id updated = None));
    simpl; [done|].
  destruct (detect_conflicts updated [] (_remove_binding current r))
    as [conflicts|e]; simpl; [|done].
  destruct (bool_decide (conflicts = [])); simpl; [done|].
  rewrite index_remove_restore; [done|].
  apply (wf_index _ Hwf). exists current. by rewrite Hcid.
Qed.

(** X15. A call on the registry that raises leaves the registry as it
    was, in a registry whose index and table agree. [register_action]
    raises only on a known id without [replace]; [register_binding] raises
    only for an unknown action, or, without [replace], for a conflict
    (naming the ids [detect_conflicts] found) or a known binding id;
    [unregister_binding] never raises. *)
Theorem registry_errors_change_nothing (r : t) :
  reg_wf r →
  (∀ action replace e r',
     register_action action replace r = (Raise e, r') →
     r' = r ∧ replace = false ∧ e = ValueError (ActionRef.id action)
     ∧ is_Some (_actions r !! ActionRef.id action))
  ∧ (∀ b replace e r',
       register_binding b replace r = (Raise e, r') →
       r' = r
       ∧ (e = KeyError (Binding.action_id b)
          ∧ _actions r !! Binding.action_id b = None
          ∨ replace = false
            ∧ (∃ conflicts,
                 conflicts ≠ [] ∧ detect_conflicts b [] r = Ok conflicts
                 ∧ e = KeymapConflictError (Binding.id b)
                         (Binding.id <$> conflicts))
          ∨ replace = false ∧ is_Some (_bindings r !! Binding.id b)
            ∧ e = ValueError (Binding.id b)))
  ∧ (∀ binding_id, ∃ removed, (unregister_binding binding_id r).1 = Ok removed)
  ∧ (∀ binding_id changes e r',
       update_binding binding_id changes r = (Raise e, r') → r' = r)
  ∧ (∀ timeout_ms mode binding_ids e r',
       override_sequence_timeouts timeout_ms mode binding_ids r = (Raise e, r') →
       r' = r).
Proof.
  intros Hwf. split; [|split; [|split; [|split]]].
  - intros action replace e r'.
    unfold register_action, mbind, M_bind, get, raise, modify, mret, M_ret.
    simpl. destruct replace; simpl; [done|].
    case_bool_decide as Hk; simpl; [|done].
    by intros [= <- <-].
  - intros b replace e r'.
    destruct (detect_conflicts_spec b r Hwf) as (conflicts & Hc & _).
    rewrite (register_binding_cases b replace r conflicts Hc).
    case_bool_decide as Ha.
    { intros [= <- <-]. split; [done|]. by left. }
    destruct (bool_decide (conflicts = [])) eqn:Hce; simpl.
    + destruct replace; [done|].
      destruct (bool_decide (is_Some (_bindings r !! Binding.id b))) eqn:Hd;
        [|done].
      apply bool_decide_eq_true in Hd.
      intros [= <- <-]. split; [done|]. right. by right.
    + destruct replace; simpl; [done|].
      intros [= <- <-]. split; [done|]. right. left. split; [done|].
      exists conflicts. apply bool_decide_eq_false in Hce. done.
  - intros binding_id.
    unfold unregister_binding, mbind, M_bind, get, modify, mret, M_ret.
    simpl. destruct (_bindings r !! binding_id); simpl; eauto.
  - intros binding_id changes e r'.
    rewrite (update_binding_cases binding_id changes r Hwf).
    destruct (_bindings r !! binding_id) as [current|]; [|by intros [= _ <-]].
    destruct (Binding.replace current changes) as [updated|e'];
      [|by intros [= _ <-]].
    case_bool_decide; [by intros [= _ <-]|].
    destruct (detect_conflicts_wf updated (_remove_binding current r)
                (remove_binding_registered current r Hwf))
      as (conflicts & -> & _).
    case_bool_decide; [done|]. by intros [= _ <-].
  - intros timeout_ms mode binding_ids e r'.
    unfold override_sequence_timeouts.
    destruct (timeout_ms <=? 0)%Z; [by intros [= _ <-]|].
    unfold mbind, M_bind, get, raise, modify, lift, mret, M_ret. simpl.
    destruct (match binding_ids with
              | Some ids => get_bindings ids r
              | None => iter_bindings mode r
              end) as [targets|e']; simpl; [|by intros [= _ <-]].
    by destruct targets.
Qed.

Lemma registry_errors_change_nothing_witness :
  let r := registry_of [binding_default] in
  reg_wf r
  ∧ register_binding (make_binding "again" []) false r
    = (Raise (KeymapConflictError "again" ["default"]), r).
Proof.
  intros r.
  assert (Hwf : reg_wf r).
  { unfold r, registry_of. simpl.
    apply register_binding_ok, register_action_ok, reg_wf_init. }
  split; [exact Hwf|].
  pose proof (proj1 (proj2 (registry_errors_change_nothing r Hwf))
                (make_binding "again" []) false
                (KeymapConflictError "again" ["default"])
                (register_binding (make_binding "again" []) false r).2) as H.
  assert (E : register_binding (make_binding "again" []) false r
              = (Raise (KeymapConflictError "again" ["default"]),
                 (register_binding (make_binding "again" []) false r).2))
    by (vm_compute; reflexivity).
  rewrite E at 1.
  exact (f_equal (pair (Raise (KeymapConflictError "again" ["default"])))
           (proj1 (H E))).
Defined.

End registry_effects.

(** ** Registering, removing and retiming bindings *)

(** No two registered bindings on the same keys of the same mode
    overlap. *)
Definition conflict_free (r : KeymapRegistry.t) : Prop :=
  ∀ k1 k2 b1 b2,
    KeymapRegistry._bindings r !! k1 = Some b1 →
    KeymapRegistry._bindings r !! k2 = Some b2 →
    k1 ≠ k2 →
    Binding.mode b1 = Binding.mode b2 →
    Binding.key_signature b1 = Binding.key_signature b2 →
    _contexts_overlap b1 b2 = false.

(** The action of every registered binding is registered. *)
Definition actions_known (r : KeymapRegistry.t) : Prop :=
  ∀ k b,
    KeymapRegistry._bindings r !! k = Some b →
    is_Some (KeymapRegistry._actions r !! Binding.action_id b).

Record reg_sound (r : KeymapRegistry.t) : Prop := {
  sound_wf : reg_wf r;
  sound_conflicts : conflict_free r;
  sound_actions : actions_known r;
}.

Section registry_bindings.
Import KeymapRegistry.

#[local] Arguments _remove_binding : simpl never.
#[local] Arguments _index_binding : simpl never.
#[local] Arguments bucket_of : simpl never.

(** What a successful [register_binding] leaves. *)
Lemma register_binding_Ok b replace r b' r' :
  reg_wf r →
  register_binding b replace r = (Ok b', r') →
  ∃ conflicts,
    b' = b
    ∧ (∀ c, c ∈ conflicts ↔
            _bindings r !! Binding.id c = Some c
            ∧ Binding.mode c = Binding.mode b
            ∧ Binding.key_signature c = Binding.key_signature b
            ∧ _contexts_overlap b c = true)
    ∧ (replace = false → conflicts = [] ∧ _bindings r !! Binding.id b = None)
    ∧ is_Some (_actions r !! Binding.action_id b)
    ∧ reg_wf r'
    ∧ _actions r' = _actions r
    ∧ _revision r' = (_revision r + 1)%Z
    ∧ (∀ k, _bindings r' !! k
            = if bool_decide (k = Binding.id b) then Some b
              else if bool_decide (k ∈ Binding.id <$> conflicts) then None
              else _bindings r !! k)
    ∧ Binding.id b ∈ bucket_of (Binding.mode b) (Binding.key_signature b) r'.
Proof.
  intros Hwf.
  destruct (detect_conflicts_spec b r Hwf) as (conflicts & Hc & Hspec).
  rewrite (register_binding_cases b replace r conflicts Hc).
  destruct (bool_decide (_actions r !! Binding.action_id b = None)) eqn:Ha;
    [done|].
  apply bool_decide_eq_false in Ha.
  assert (Hact : is_Some (_actions r !! Binding.action_id b))
    by (by apply not_eq_None_Some).
  destruct (negb (bool_decide (conflicts = [])) && negb replace) eqn:Hraise;
    [done|].
  destruct replace.
  - intros [= <- <-]. exists conflicts.
    destruct (cleared_effect b conflicts r Hwf) as (Hwf1 & Ha1 & Hr1 & Hb1).
    { intros c Hc'. by apply Hspec in Hc' as (? & _). }
    destruct (stored_effect b (cleared b conflicts r)) as (Ha2 & Hr2 & Hb2 & Hi2).
    split; [done|]. split; [done|]. split; [done|]. split; [done|].
    split.
    { apply (wf_after_insert (cleared b conflicts r) _ b); try done.
      rewrite Hb1. by rewrite bool_decide_eq_true_2. }
    split; [by rewrite Ha2|]. split; [by rewrite Hr2, Hr1|].
    split.
    { intros k. rewrite Hb2.
      destruct (decide (k = Binding.id b)) as [->|Hk].
      - by rewrite lookup_insert_eq, bool_decide_eq_true_2.
      - rewrite lookup_insert_ne by done. rewrite Hb1.
        by rewrite !(bool_decide_eq_false_2 _ Hk). }
    apply Hi2. by right.
  - destruct (bool_decide (is_Some (_bindings r !! Binding.id b))) eqn:Hd;
      [done|].
    apply bool_decide_eq_false in Hd. apply eq_None_not_Some in Hd.
    intros [= <- <-]. exists conflicts.
    rewrite andb_true_r in Hraise. apply negb_false_iff in Hraise.
    apply bool_decide_eq_true in Hraise. subst conflicts.
    destruct (stored_effect b r) as (Ha2 & Hr2 & Hb2 & Hi2).
    split; [done|]. split; [done|]. split; [done|]. split; [done|].
    split; [by apply (wf_after_insert r _ b)|].
    split; [done|]. split; [done|]. split.
    { intros k. rewrite Hb2.
      destruct (decide (k = Binding.id b)) as [->|Hk].
      - by rewrite lookup_insert_eq, bool_decide_eq_true_2.
      - rewrite lookup_insert_ne by done.
        rewrite (bool_decide_eq_false_2 _ Hk). simpl.
        first [done | by rewrite bool_decide_eq_false_2 by apply not_elem_of_nil]. }
    apply Hi2. by right.
Qed.

(** X16. A successful [register_binding], in a registry whose index and
    table agree, returns the binding and leaves it stored under its id and
    indexed under its mode and keys; the revision is incremented once and
    the actions are as before; in the new registry [detect_conflicts]
    finds for the binding no binding but itself; every other binding still
    registered was registered before, unchanged; and without [replace]
    every other binding is kept. *)
Theorem register_binding_registers
    (r r' : t) (b b' : Binding.t) (replace : bool) :
  reg_wf r →
  register_binding b replace r = (Ok b', r') →
  b' = b
  ∧ get_binding (Binding.id b) r' = Ok b
  ∧ Binding.id b ∈ bucket_of (Binding.mode b) (Binding.key_signature b) r'
  ∧ revision r' = (revision r + 1)%Z
  ∧ _actions r' = _actions r
  ∧ (∃ conflicts, detect_conflicts b [] r' = Ok conflicts
       ∧ ∀ c, c ∈ conflicts ↔ c = b)
  ∧ (∀ k c, k ≠ Binding.id b → _bindings r' !! k = Some c →
       _bindings r !! k = Some c)
  ∧ (replace = false →
     ∀ k, k ≠ Binding.id b → _bindings r' !! k = _bindings r !! k).
Proof.
  intros Hwf Hreg.
  destruct (register_binding_Ok _ _ _ _ _ Hwf Hreg)
    as (conflicts & -> & Hspec & Hnr & Hact & Hwf' & Ha & Hr & Hb & Hi).
  assert (Hself : _bindings r' !! Binding.id b = Some b)
    by (by rewrite Hb, bool_decide_eq_true_2).
  assert (Hold : ∀ k c, k ≠ Binding.id b → _bindings r' !! k = Some c →
                        _bindings r !! k = Some c).
  { intros k c Hk. rewrite Hb, (bool_decide_eq_false_2 _ Hk).
    by destruct (bool_decide (k ∈ Binding.id <$> conflicts)). }
  split; [done|]. split; [unfold get_binding; by rewrite Hself|].
  split; [done|]. split; [done|]. split; [done|]. split; [|split; [done|]].
  - destruct (detect_conflicts_spec b r' Hwf') as (found & Hf & Hfs).
    exists found. split; [done|]. intros c. rewrite Hfs. split.
    + intros (Hl & Hm & Hs & Ho).
      destruct (decide (Binding.id c = Binding.id b)) as [Heq|Hne];
        [rewrite Heq in Hl; congruence|].
      exfalso. pose proof Hl as Hl'.
      rewrite Hb, (bool_decide_eq_false_2 _ Hne) in Hl'.
      destruct (bool_decide (Binding.id c ∈ Binding.id <$> conflicts)) eqn:Hin;
        [done|].
      apply bool_decide_eq_false in Hin. apply Hin.
      apply list_elem_of_fmap. exists c. split; [done|]. by apply Hspec.
    + intros ->. split; [done|]. split; [done|]. split; [done|].
      apply contexts_overlap_refl.
  - intros Hrep k Hk. destruct (Hnr Hrep) as [-> _].
    rewrite Hb, (bool_decide_eq_false_2 _ Hk). simpl.
    first [done | by rewrite bool_decide_eq_false_2 by apply not_elem_of_nil].
Qed.

Lemma register_binding_registers_witness :
  let r := registry_of [binding_default] in
  reg_wf r
  ∧ ∃ r', register_binding binding_panel false r = (Ok binding_panel, r')
          ∧ get_binding "panel" r' = Ok binding_panel
          ∧ _bindings r' !! "default" = Some binding_default.
Proof.
  intros r.
  assert (Hwf : reg_wf r).
  { unfold r, registry_of. simpl.
    apply register_binding_ok, register_action_ok, reg_wf_init. }
  split; [exact Hwf|].
  exists (register_binding binding_panel false r).2.
  assert (E : register_binding binding_panel false r
              = (Ok binding_panel, (register_binding binding_panel false r).2))
    by (vm_compute; reflexivity).
  destruct (register_binding_registers r _ binding_panel binding_panel false
              Hwf E) as (_ & Hg & _ & _ & _ & _ & _ & Hk).
  split; [exact E|]. split; [exact Hg|].
  rewrite (Hk eq_refl "default"); [reflexivity|done].
Defined.

(** X17. Registering a binding without [replace] and unregistering it
    again gives back the registry it started from, two revisions later:
    the same table of bindings, the same actions, and under every mode and
    key signature the same ids. *)
Theorem register_then_unregister (r r1 : t) (b b' : Binding.t) :
  reg_wf r →
  register_binding b false r = (Ok b', r1) →
  ∃ r2,
    unregister_binding (Binding.id b) r1 = (Ok (Some b), r2)
    ∧ _bindings r2 = _bindings r
    ∧ _actions r2 = _actions r
    ∧ (∀ mode sig, bucket_of mode sig r2 = bucket_of mode sig r)
    ∧ revision r2 = (revision r + 2)%Z.
Proof.
  intros Hwf Hreg.
  destruct (detect_conflicts_spec b r Hwf) as (conflicts & Hc & Hspec).
  rewrite (register_binding_cases b false r conflicts Hc) in Hreg.
  destruct (bool_decide (_actions r !! Binding.action_id b = None)); [done|].
  destruct (negb (bool_decide (conflicts = [])) && negb false); [done|].
  destruct (bool_decide (is_Some (_bindings r !! Binding.id b))) eqn:Hd;
    [done|].
  apply bool_decide_eq_false in Hd. apply eq_None_not_Some in Hd.
  injection Hreg as <- <-.
  destruct (stored_effect b r) as (Ha & Hr & Hb & Hi).
  unfold unregister_binding, mbind, M_bind, get, modify, mret, M_ret. simpl.
  rewrite lookup_insert_eq. simpl. eexists. split; [reflexivity|].
  split; [|split; [|split]].
  - simpl. rewrite bindings_remove_binding. simpl.
    rewrite delete_insert_eq. by apply delete_id.
  - simpl. by rewrite actions_remove_binding.
  - intros mode sig. apply set_eq. intros id.
    change (bucket_of mode sig (_touch_bindings ?x)) with (bucket_of mode sig x).
    rewrite elem_of_bucket_remove.
    change (bucket_of mode sig (set_bindings ?m ?x)) with (bucket_of mode sig x).
    change (bucket_of mode sig (_touch_bindings ?x)) with (bucket_of mode sig x).
    rewrite Hi.
    split; [|intros Hin; split; [by left|]].
    + intros [[Hin|Hnew] Hnot]; [done|]. by destruct Hnot.
    + intros (-> & -> & ->).
      apply (wf_index _ Hwf) in Hin as (c & Hl & _). congruence.
  - unfold revision. simpl. rewrite revision_remove_binding. simpl. lia.
Qed.

Lemma register_then_unregister_witness :
  let r := registry_of [binding_default] in
  reg_wf r
  ∧ ∃ r1 r2,
      register_binding binding_panel false r = (Ok binding_panel, r1)
      ∧ unregister_binding "panel" r1 = (Ok (Some binding_panel), r2)
      ∧ _bindings r2 = _bindings r.
Proof.
  intros r.
  assert (Hwf : reg_wf r).
  { unfold r, registry_of. simpl.
    apply register_binding_ok, register_action_ok, reg_wf_init. }
  split; [exact Hwf|].
  exists (register_binding binding_panel false r).2.
  assert (E : register_binding binding_panel false r
              = (Ok binding_panel, (register_binding binding_panel false r).2))
    by (vm_compute; reflexivity).
  destruct (register_then_unregister r _ binding_panel binding_panel Hwf E)
    as (r2 & H1 & H2 & _).
  exists r2. exact (conj E (conj H1 H2)).
Defined.

End registry_bindings.

(** ** Registries built through the calls *)

Section registry_soundness.
Import KeymapRegistry.

#[local] Arguments _remove_binding : simpl never.
#[local] Arguments _index_binding : simpl never.
#[local] Arguments bucket_of : simpl never.

Lemma reg_sound_init : reg_sound init.
Proof.
  split; [apply reg_wf_init| |]; intros ? *; simpl; by rewrite lookup_empty.
Qed.

Lemma register_binding_Raise b replace r e r' :
  reg_wf r → register_binding b replace r = (Raise e, r') → r' = r.
Proof.
  intros Hwf.
  destruct (detect_conflicts_spec b r Hwf) as (conflicts & Hc & _).
  rewrite (register_binding_cases b replace r conflicts Hc).
  destruct (bool_decide _); [by intros [= _ <-]|].
  destruct (negb _ && negb replace); [by intros [= _ <-]|].
  destruct replace; [done|].
  destruct (bool_decide _); [by intros [= _ <-]|done].
Qed.

Lemma sound_register_action action replace r :
  reg_sound r → reg_sound (register_action action replace r).2.
Proof.
  intros [Hwf Hcf Hak].
  pose proof (register_action_ok action replace r Hwf) as [Hwf' _].
  revert Hwf'.
  unfold register_action, mbind, M_bind, get, raise, modify, mret, M_ret.
  simpl. destruct (negb replace && _); simpl; [by split|].
  intros Hwf'. split; [done|done|].
  intros k b Hb. simpl.
  destruct (decide (ActionRef.id action = Binding.action_id b)) as [<-|Hne].
  - by rewrite lookup_insert_eq.
  - rewrite lookup_insert_ne by done. by apply (Hak k).
Qed.

Lemma sound_register_binding b replace r :
  reg_sound r → reg_sound (register_binding b replace r).2.
Proof.
  intros [Hwf Hcf Hak].
  destruct (register_binding b replace r) as [[b'|e] r'] eqn:E; simpl.
  - destruct (register_binding_Ok _ _ _ _ _ Hwf E)
      as (conflicts & -> & Hspec & Hnr & Hact & Hwf' & Ha & Hr & Hb & Hi).
    assert (Hold : ∀ k c, k ≠ Binding.id b → _bindings r' !! k = Some c →
                          _bindings r !! k = Some c
                          ∧ k ∉ Binding.id <$> conflicts).
    { intros k c Hk. rewrite Hb, (bool_decide_eq_false_2 _ Hk).
      destruct (bool_decide (k ∈ Binding.id <$> conflicts)) eqn:Hin; [done|].
      by apply bool_decide_eq_false in Hin. }
    assert (Hnew : ∀ k c, k ≠ Binding.id b → _bindings r' !! k = Some c →
                          Binding.mode c = Binding.mode b →
                          Binding.key_signature c = Binding.key_signature b →
                          _contexts_overlap b c = false).
    { intros k c Hk Hl Hm Hs. destruct (Hold k c Hk Hl) as [Hl0 Hnin].
      apply not_true_iff_false. intros Ho. apply Hnin.
      pose proof (wf_ids _ Hwf _ _ Hl0) as Hid.
      apply list_elem_of_fmap. exists c. split; [done|].
      apply Hspec. by rewrite Hid. }
    split; [done| |].
    + intros k1 k2 b1 b2 H1 H2 Hne Hm Hs.
      destruct (decide (k1 = Binding.id b)) as [->|Hk1].
      * rewrite Hb, bool_decide_eq_true_2 in H1 by done. injection H1 as <-.
        by apply (Hnew k2).
      * destruct (decide (k2 = Binding.id b)) as [->|Hk2].
        -- rewrite Hb, bool_decide_eq_true_2 in H2 by done.
           injection H2 as <-.
           rewrite contexts_overlap_sym. by apply (Hnew k1).
        -- apply (Hcf k1 k2); try done; by eapply Hold.
    + intros k c Hl. rewrite Ha.
      destruct (decide (k = Binding.id b)) as [->|Hk].
      * rewrite Hb, bool_decide_eq_true_2 in Hl by done. by injection Hl as <-.
      * apply (Hak k). by eapply Hold.
  - by rewrite (register_binding_Raise _ _ _ _ _ Hwf E).
Qed.

Lemma sound_unregister_binding binding_id r :
  reg_sound r → reg_sound (unregister_binding binding_id r).2.
Proof.
  intros [Hwf Hcf Hak].
  pose proof (unregister_binding_ok binding_id r Hwf) as [Hwf' _].
  revert Hwf'.
  unfold unregister_binding, mbind, M_bind, get, modify, mret, M_ret. simpl.
  destruct (_bindings r !! binding_id) as [binding|] eqn:Hb; simpl;
    [|by split].
  intros Hwf'.
  assert (Hbs : ∀ x,
            _bindings (_touch_bindings
                         (_remove_binding binding
                            (set_bindings (delete binding_id (_bindings r)) r)))
            !! x = delete binding_id (_bindings r) !! x).
  { intros x. simpl. by rewrite bindings_remove_binding. }
  split; [done| |].
  - intros k1 k2 b1 b2. rewrite !Hbs.
    intros [_ H1]%lookup_delete_Some [_ H2]%lookup_delete_Some.
    by apply Hcf.
  - intros k c. rewrite Hbs. intros [_ H1]%lookup_delete_Some.
    simpl. rewrite actions_remove_binding. simpl. by apply (Hak k).
Qed.

Lemma sound_update_binding binding_id changes r :
  reg_sound r → keeps_id binding_id changes →
  reg_sound (update_binding binding_id changes r).2.
Proof.
  intros [Hwf Hcf Hak] Hkeep.
  pose proof (update_binding_ok binding_id changes r Hwf Hkeep) as [Hwf' _].
  revert Hwf'. rewrite (update_binding_cases binding_id changes r Hwf).
  destruct (_bindings r !! binding_id) as [current|] eqn:Hcur; [|by split].
  pose proof (wf_ids _ Hwf _ _ Hcur) as Hcid.
  destruct (Binding.replace current changes) as [updated|e] eqn:Hrep;
    [|by split].
  destruct (bool_decide (_actions r !! Binding.action_id updated = None))
    eqn:Hact; [by split|].
  apply bool_decide_eq_false in Hact.
  destruct (conflicts_among_spec updated
              (elements (bucket_of (Binding.mode updated)
                           (Binding.key_signature updated)
                           (_remove_binding current r)))
              (_remove_binding current r))
    as (conflicts & Hc & Hspec).
  { apply Forall_forall. intros id Hid. apply elem_of_elements in Hid.
    by apply (remove_binding_registered current r Hwf) in Hid. }
  unfold detect_conflicts. rewrite Hc.
  destruct (bool_decide (conflicts = [])) eqn:Hnil; [|by split].
  apply bool_decide_eq_true in Hnil. subst conflicts.
  set (r' := _touch_bindings _). intros Hwf'.
  assert (Hbs : _bindings r' = <[binding_id := updated]> (_bindings r)).
  { unfold r'. simpl. by rewrite bindings_remove_binding. }
  assert (Has : _actions r' = _actions r).
  { unfold r'. simpl. by rewrite actions_remove_binding. }
  assert (Hnew : ∀ k c, k ≠ binding_id → _bindings r !! k = Some c →
                        Binding.mode c = Binding.mode updated →
                        Binding.key_signature c = Binding.key_signature updated →
                        _contexts_overlap updated c = false).
  { intros k c Hk Hl Hm Hs. apply not_true_iff_false. intros Ho.
    apply (not_elem_of_nil c). apply Hspec. split; [|done].
    exists k. rewrite bindings_remove_binding. split; [|done].
    apply elem_of_elements, elem_of_bucket_remove. split.
    - apply (wf_index _ Hwf). by exists c.
    - intros (_ & _ & Hid). congruence. }
  change (reg_sound r'). split; [done| |].
  - intros k1 k2 b1 b2. rewrite !Hbs. intros H1 H2 Hne Hm Hs.
    destruct (decide (k1 = binding_id)) as [->|Hk1].
    + rewrite lookup_insert_eq in H1. injection H1 as <-.
      rewrite lookup_insert_ne in H2 by done. by apply (Hnew k2).
    + rewrite lookup_insert_ne in H1 by done.
      destruct (decide (k2 = binding_id)) as [->|Hk2].
      * rewrite lookup_insert_eq in H2. injection H2 as <-.
        rewrite contexts_overlap_sym. by apply (Hnew k1).
      * rewrite lookup_insert_ne in H2 by done. by apply (Hcf k1 k2).
  - intros k c. rewrite Hbs, Has.
    destruct (decide (k = binding_id)) as [->|Hk].
    + rewrite lookup_insert_eq. intros [= <-]. by apply not_eq_None_Some.
    + rewrite lookup_insert_ne by done. by apply (Hak k).
Qed.

(** The table after the loop of [override_sequence_timeouts]. *)
Lemma override_targets_bindings timeout_ms targets r :
  let r' := foldl (λ s binding,
                     _update_binding_in_place binding
                       (with_timeout timeout_ms binding) s) r targets in
  _actions r' = _actions r
  ∧ _bindings r'
    = foldl (λ m binding, <[Binding.id binding := with_timeout timeout_ms binding]> m)
        (_bindings r) targets.
Proof.
  revert r. induction targets as [|target rest IH]; intros r; [done|].
  simpl. destruct (IH (_update_binding_in_place target
                         (with_timeout timeout_ms target) r)) as [Ha Hb].
  split.
  - rewrite Ha. unfold _update_binding_in_place. simpl.
    by rewrite actions_remove_binding.
  - by rewrite Hb, bindings_update_in_place.
Qed.

Lemma retimed_lookup timeout_ms targets (m0 m : gmap string Binding.t) k :
  (∀ target, target ∈ targets → m0 !! Binding.id target = Some target) →
  foldl (λ m binding, <[Binding.id binding := with_timeout timeout_ms binding]> m)
    m targets !! k
  = if bool_decide (k ∈ Binding.id <$> targets)
    then with_timeout timeout_ms <$> m0 !! k
    else m !! k.
Proof.
  revert m. induction targets as [|target rest IH]; intros m Hreg; simpl.
  - first [done | by rewrite bool_decide_eq_false_2 by apply not_elem_of_nil].
  - rewrite IH by (intros t Ht; apply Hreg; by right).
    destruct (decide (k ∈ Binding.id <$> rest)) as [Hin|Hin].
    + rewrite !bool_decide_eq_true_2; [done|by right|done].
    + rewrite (bool_decide_eq_false_2 _ Hin).
      destruct (decide (k = Binding.id target)) as [->|Hk].
      * rewrite lookup_insert_eq, bool_decide_eq_true_2 by left.
        by rewrite (Hreg target) by left.
      * rewrite lookup_insert_ne by done.
        rewrite bool_decide_eq_false_2; [done|].
        by intros [?|?]%elem_of_cons.
Qed.

(** What a successful [override_sequence_timeouts] leaves. *)
Lemma override_sequence_timeouts_Ok timeout_ms mode binding_ids r r' :
  reg_wf r →
  override_sequence_timeouts timeout_ms mode binding_ids r = (Ok tt, r') →
  ∃ targets,
    match binding_ids with
    | Some ids => get_bindings ids r
    | None => iter_bindings mode r
    end = Ok targets
    ∧ (0 < timeout_ms)%Z
    ∧ (∀ target, target ∈ targets →
         _bindings r !! Binding.id target = Some target)
    ∧ _actions r' = _actions r
    ∧ _revision r' = (if bool_decide (targets = []) then _revision r
                      else _revision r + 1)%Z
    ∧ ∀ k, _bindings r' !! k
           = if bool_decide (k ∈ Binding.id <$> targets)
             then with_timeout timeout_ms <$> _bindings r !! k
             else _bindings r !! k.
Proof.
  intros Hwf. unfold override_sequence_timeouts.
  destruct (timeout_ms <=? 0)%Z eqn:Ht; [done|]. apply Z.leb_gt in Ht.
  unfold mbind, M_bind, get, raise, modify, lift, mret, M_ret. simpl.
  destruct (match binding_ids with
            | Some ids => get_bindings ids r
            | None => iter_bindings mode r
            end) as [targets|e] eqn:Hts; simpl; [|done].
  assert (Hreg : ∀ target, target ∈ targets →
                           _bindings r !! Binding.id target = Some target).
  { assert (Hf : Forall (λ b, ∃ id, _bindings r !! id = Some b) targets).
    { destruct binding_ids as [ids|];
        [by eapply get_bindings_registered
        |by eapply iter_bindings_registered]. }
    rewrite Forall_forall in Hf. intros t Hin.
    destruct (Hf t Hin) as [id Hl]. by rewrite (wf_ids _ Hwf _ _ Hl). }
  intros Hr. exists targets. split; [done|]. split; [done|]. split; [done|].
  destruct targets as [|target rest].
  - simpl in Hr. injection Hr as <-. split; [done|]. split; [done|].
    intros k. simpl.
    first [done | by rewrite bool_decide_eq_false_2 by apply not_elem_of_nil].
  - destruct (override_targets_bindings timeout_ms (target :: rest) r)
      as [Ha Hb].
    destruct (override_targets_wf timeout_ms (target :: rest) r Hwf)
      as [_ Hrev].
    { apply Forall_forall. intros t Hin. apply registered_is_target; [done|].
      exists (Binding.id t). by apply Hreg. }
    simpl in Hr. injection Hr as <-.
    split; [exact Ha|]. split.
    + rewrite bool_decide_eq_false_2 by done.
      transitivity (_revision
                      (foldl (λ s binding,
                                _update_binding_in_place binding
                                  (with_timeout timeout_ms binding) s)
                         r (target :: rest)) + 1)%Z; [reflexivity|].
      by rewrite Hrev.
    + intros k.
      transitivity (_bindings
                      (foldl (λ s binding,
                                _update_binding_in_place binding
                                  (with_timeout timeout_ms binding) s)
                         r (target :: rest)) !! k); [reflexivity|].
      rewrite Hb. by apply retimed_lookup.
Qed.

Lemma sound_override timeout_ms mode binding_ids r :
  reg_sound r →
  reg_sound (override_sequence_timeouts timeout_ms mode binding_ids r).2.
Proof.
  intros [Hwf Hcf Hak].
  pose proof (override_sequence_timeouts_ok timeout_ms mode binding_ids r Hwf)
    as [Hwf' _].
  destruct (override_sequence_timeouts timeout_ms mode binding_ids r)
    as [[[]|e] r'] eqn:E; simpl in *.
  - destruct (override_sequence_timeouts_Ok _ _ _ _ _ Hwf E)
      as (targets & _ & _ & _ & Ha & _ & Hb).
    assert (Hold : ∀ k c, _bindings r' !! k = Some c →
                          ∃ c0, _bindings r !! k = Some c0
                                ∧ (c = c0 ∨ c = with_timeout timeout_ms c0)).
    { intros k c. rewrite Hb. destruct (bool_decide _).
      - destruct (_bindings r !! k) as [c0|]; [|done].
        intros [= <-]. exists c0. split; [done|by right].
      - intros Hl. exists c. split; [done|by left]. }
    split; [done| |].
    + intros k1 k2 b1 b2 H1 H2 Hne Hm Hs.
      destruct (Hold _ _ H1) as (c1 & Hc1 & E1).
      destruct (Hold _ _ H2) as (c2 & Hc2 & E2).
      transitivity (_contexts_overlap c1 c2).
      { by destruct E1 as [->| ->], E2 as [->| ->]. }
      apply (Hcf k1 k2); try done.
      * by destruct E1 as [->| ->], E2 as [->| ->].
      * by destruct E1 as [->| ->], E2 as [->| ->].
    + intros k c Hl. rewrite Ha.
      destruct (Hold _ _ Hl) as (c0 & Hc0 & E0).
      replace (Binding.action_id c) with (Binding.action_id c0)
        by (by destruct E0 as [->| ->]).
      by apply (Hak k).
  - assert (r' = r) as ->; [|by split].
    revert E. unfold override_sequence_timeouts.
    destruct (timeout_ms <=? 0)%Z; [by intros [= _ <-]|].
    unfold mbind, M_bind, get, raise, modify, lift, mret, M_ret. simpl.
    destruct (match binding_ids with
              | Some ids => get_bindings ids r
              | None => iter_bindings mode r
              end) as [targets|e']; simpl; [|by intros [= _ <-]].
    by destruct targets.
Qed.

Lemma sound_session_step c s :
  reg_sound (registry s) → stable_call c →
  reg_sound (registry (session_step c s)).
Proof.
  intros Hs Hc. destruct c; simpl.
  - by apply sound_register_action.
  - by apply sound_register_binding.
  - by apply sound_unregister_binding.
  - by apply sound_update_binding.
  - by apply sound_override.
  - done.
Qed.

Lemma sound_session_run calls s :
  reg_sound (registry s) → Forall stable_call calls →
  reg_sound (registry (session_run calls s)).
Proof.
  revert s. induction calls as [|c calls IH]; intros s Hs Hcs; [done|].
  apply Forall_cons in Hcs as [Hc Hcs]. simpl.
  apply IH; [|done]. by apply sound_session_step.
Qed.

(** The ids [iter_bindings] walks for a mode. *)
Lemma elem_of_mode_ids mode r id :
  id ∈ mjoin ((λ kv : string * gset string, elements kv.2)
                <$> map_to_list (default ∅ (_mode_index r !! mode)))
  ↔ ∃ sig, id ∈ bucket_of mode sig r.
Proof.
  unfold bucket_of. set (mb := default ∅ (_mode_index r !! mode)).
  rewrite list_elem_of_join. split.
  - intros (ids & Hid & Hin).
    apply list_elem_of_fmap in Hin as ([sig S] & -> & Hin).
    apply elem_of_map_to_list in Hin. simpl in Hid.
    apply elem_of_elements in Hid. exists sig. by rewrite Hin.
  - intros (sig & Hid).
    destruct (mb !! sig) as [S|] eqn:HS; [|by apply elem_of_empty in Hid].
    exists (elements S). split; [by apply elem_of_elements|].
    apply list_elem_of_fmap. exists (sig, S). split; [done|].
    by apply elem_of_map_to_list.
Qed.

Lemma bindings_of_spec ids r :
  Forall (λ id, is_Some (_bindings r !! id)) ids →
  ∃ bindings,
    bindings_of ids r = Ok bindings
    ∧ Forall2 (λ id b, _bindings r !! id = Some b) ids bindings.
Proof.
  induction 1 as [|id ids [b Hb] _ (bs & Hbs & IH)]; simpl.
  - exists []. by split.
  - rewrite Hb, Hbs. simpl. exists (b :: bs). split; [done|].
    by constructor.
Qed.

(** In a registry whose index and table agree, [iter_bindings] of a mode
    returns the registered bindings of the mode. *)
Lemma iter_bindings_mode r mode :
  reg_wf r →
  ∃ bindings,
    iter_bindings (Some mode) r = Ok bindings
    ∧ ∀ b, b ∈ bindings ↔
           _bindings r !! Binding.id b = Some b ∧ Binding.mode b = mode.
Proof.
  intros Hwf. simpl.
  destruct (bindings_of_spec
              (mjoin ((λ kv : string * gset string, elements kv.2)
                        <$> map_to_list (default ∅ (_mode_index r !! mode))))
              r) as (bs & Hbs & Hall).
  { apply Forall_forall. intros id Hid.
    apply elem_of_mode_ids in Hid as [sig Hid].
    by apply (reg_wf_index_registered r Hwf) in Hid. }
  exists bs. split; [done|]. intros b. split.
  - intros Hin. apply list_elem_of_lookup in Hin as [i Hi].
    destruct (Forall2_lookup_r _ _ _ _ _ Hall Hi) as (id & Hid & Hl).
    apply list_elem_of_lookup_2 in Hid.
    apply elem_of_mode_ids in Hid as [sig Hid].
    apply (wf_index _ Hwf) in Hid as (b' & Hl' & Hm & _).
    assert (b' = b) as -> by congruence.
    by rewrite (wf_ids _ Hwf _ _ Hl).
  - intros [Hl Hm].
    assert (Hid : Binding.id b
                  ∈ mjoin ((λ kv : string * gset string, elements kv.2)
                             <$> map_to_list
                                   (default ∅ (_mode_index r !! mode)))).
    { apply elem_of_mode_ids. exists (Binding.key_signature b).
      apply (wf_index _ Hwf). by exists b. }
    apply list_elem_of_lookup in Hid as [i Hi].
    destruct (Forall2_lookup_l _ _ _ _ _ Hall Hi) as (b' & Hb' & Hl').
    assert (b' = b) as -> by congruence.
    by eapply list_elem_of_lookup_2.
Qed.

(** X18. In a registry built from the empty one by any calls (with
    updates that keep the id of their binding), every binding is stored
    under its own id, indexed under its mode and keys, and bound to a
    registered action; the index names registered bindings only; no two
    registered bindings on the same keys of the same mode overlap, so
    that [detect_conflicts] has nothing to report between them; and
    [iter_bindings] of a mode returns the registered bindings of that
    mode, without raising. *)
Theorem registry_stays_sound (calls : list session_call) :
  Forall stable_call calls →
  let r := registry (session_run calls new_session) in
  (∀ k b, _bindings r !! k = Some b →
     Binding.id b = k
     ∧ k ∈ bucket_of (Binding.mode b) (Binding.key_signature b) r
     ∧ ∃ action, get_action (Binding.action_id b) r = Ok action)
  ∧ (∀ mode sig id, id ∈ bucket_of mode sig r →
       ∃ b, get_binding id r = Ok b
            ∧ Binding.mode b = mode ∧ Binding.key_signature b = sig)
  ∧ (∀ b1 b2,
       get_binding (Binding.id b1) r = Ok b1 →
       get_binding (Binding.id b2) r = Ok b2 →
       Binding.id b1 ≠ Binding.id b2 →
       Binding.mode b1 = Binding.mode b2 →
       Binding.key_signature b1 = Binding.key_signature b2 →
       _contexts_overlap b1 b2 = false)
  ∧ (∀ mode, ∃ bindings,
       iter_bindings (Some mode) r = Ok bindings
       ∧ ∀ b, b ∈ bindings ↔
              get_binding (Binding.id b) r = Ok b ∧ Binding.mode b = mode).
Proof.
  intros Hcalls r.
  assert (Hs : reg_sound r).
  { apply sound_session_run; [apply reg_sound_init|done]. }
  destruct Hs as [Hwf Hcf Hak].
  assert (Hget : ∀ id b, get_binding id r = Ok b ↔ _bindings r !! id = Some b).
  { intros id b. unfold get_binding.
    destruct (_bindings r !! id); split; congruence. }
  split; [|split; [|split]].
  - intros k b Hl. pose proof (wf_ids _ Hwf _ _ Hl) as Hid.
    split; [done|]. split; [apply (wf_index _ Hwf); by exists b|].
    destruct (Hak k b Hl) as [action Ha]. exists action.
    unfold get_action. by rewrite Ha.
  - intros mode sig id Hin.
    apply (wf_index _ Hwf) in Hin as (b & Hl & Hm & Hsig).
    exists b. by rewrite Hget.
  - intros b1 b2 H1%Hget H2%Hget Hne. by apply (Hcf _ _ _ _ H1 H2).
  - intros mode. destruct (iter_bindings_mode r mode Hwf) as (bs & Hbs & Hspec).
    exists bs. split; [done|]. intros b. by rewrite Hspec, Hget.
Qed.

Lemma registry_stays_sound_witness :
  Forall stable_call calls_resolving_g
  ∧ ∃ bindings,
      iter_bindings (Some "normal")
        (registry (session_run calls_resolving_g new_session)) = Ok bindings
      ∧ ∀ b, b ∈ bindings ↔
             get_binding (Binding.id b)
               (registry (session_run calls_resolving_g new_session)) = Ok b
             ∧ Binding.mode b = "normal".
Proof.
  assert (H : Forall stable_call calls_resolving_g).
  { repeat constructor. }
  split; [exact H|].
  exact (proj2 (proj2 (proj2 (registry_stays_sound calls_resolving_g H)))
           "normal").
Defined.

(** X19. A successful [override_sequence_timeouts], in a registry whose
    index and table agree: the timeout given is positive; every target
    (the bindings named by [binding_ids], or else those [iter_bindings]
    returns for the mode) ends with that timeout and is otherwise
    unchanged; every other binding is untouched; the actions are as
    before; and the revision is incremented once, or not at all when
    there is no target. *)
Theorem override_sequence_timeouts_retimes
    (r r' : t) (timeout_ms : Z) (mode : option string)
    (binding_ids : option (list string)) :
  reg_wf r →
  override_sequence_timeouts timeout_ms mode binding_ids r = (Ok tt, r') →
  ∃ targets,
    match binding_ids with
    | Some ids => get_bindings ids r
    | None => iter_bindings mode r
    end = Ok targets
    ∧ (0 < timeout_ms)%Z
    ∧ (∀ target, target ∈ targets →
         ∃ retimed,
           get_binding (Binding.id target) r' = Ok retimed
           ∧ KeySequence.timeout_ms (Binding.sequence retimed) = timeout_ms
           ∧ KeySequence.strokes (Binding.sequence retimed)
             = KeySequence.strokes (Binding.sequence target)
           ∧ (Binding.id retimed, Binding.mode retimed,
              Binding.action_id retimed, Binding.description retimed,
              Binding.when retimed, Binding.priority retimed)
             = (Binding.id target, Binding.mode target,
                Binding.action_id target, Binding.description target,
                Binding.when target, Binding.priority target))
    ∧ (∀ k, k ∉ Binding.id <$> targets → _bindings r' !! k = _bindings r !! k)
    ∧ _actions r' = _actions r
    ∧ revision r' = (if bool_decide (targets = []) then revision r
                     else revision r + 1)%Z.
Proof.
  intros Hwf E.
  destruct (override_sequence_timeouts_Ok _ _ _ _ _ Hwf E)
    as (targets & Hts & Ht & Hreg & Ha & Hr & Hb).
  exists targets. split; [done|]. split; [done|].
  split; [|split; [|by split]].
  - intros target Hin. exists (with_timeout timeout_ms target).
    split; [|done].
    unfold get_binding. rewrite Hb, bool_decide_eq_true_2.
    + by rewrite (Hreg target Hin).
    + apply list_elem_of_fmap. by exists target.
  - intros k Hk. by rewrite Hb, bool_decide_eq_false_2.
Qed.

Lemma override_sequence_timeouts_retimes_witness :
  let r := registry_of [binding_default] in
  reg_wf r
  ∧ ∃ r' retimed,
      override_sequence_timeouts 250 (Some "normal") None r = (Ok tt, r')
      ∧ get_binding "default" r' = Ok retimed
      ∧ KeySequence.timeout_ms (Binding.sequence retimed) = 250%Z.
Proof.
  intros r.
  assert (Hwf : reg_wf r).
  { unfold r, registry_of. simpl.
    apply register_binding_ok, register_action_ok, reg_wf_init. }
  split; [exact Hwf|].
  exists (override_sequence_timeouts 250 (Some "normal") None r).2.
  assert (E : override_sequence_timeouts 250 (Some "normal") None r
              = (Ok tt, (override_sequence_timeouts 250 (Some "normal") None r).2))
    by (vm_compute; reflexivity).
  destruct (override_sequence_timeouts_retimes r _ 250 (Some "normal") None
              Hwf E) as (targets & Hts & _ & Hre & _).
  assert (Hin : binding_default ∈ targets).
  { vm_compute in Hts. injection Hts as <-. by left. }
  destruct (Hre binding_default Hin) as (retimed & Hg & Ht & _).
  exists retimed. exact (conj E (conj Hg Ht)).
Defined.

End registry_soundness.

(* ================================================================== *)
(** * Further properties of the resolver *)

From Stdlib Require Import Sorted.

(** ** The trie of a mode *)

(** The node reached from [n] along [path]. *)
Fixpoint node_at (n : TrieNode) (path : list string) : option TrieNode :=
  match path with
  | [] => Some n
  | token :: rest =>
      match children_get token (node_children n) with
      | None => None
      | Some child => node_at child rest
      end
  end.

(** [TrieNode()]. *)
Definition empty_node : TrieNode := Node [] [].

(** The ids held by the node at [path], none where there is no node. *)
Definition ids_at (n : TrieNode) (path : list string) : list string :=
  node_bindings (default empty_node (node_at n path)).

(** The number of leading tokens that [walk] can follow from [n]. *)
Fixpoint matched (n : TrieNode) (tokens : list string) : nat :=
  match tokens with
  | [] => 0
  | token :: rest =>
      match children_get token (node_children n) with
      | None => 0
      | Some child => S (matched child rest)
      end
  end.

(** The keys of the children are distinct, in the node and below it. *)
Fixpoint distinct_keys (n : TrieNode) : Prop :=
  match n with
  | Node _ cs =>
      NoDup (fst <$> cs)
      ∧ (fix all (cs : list (string * TrieNode)) : Prop :=
           match cs with
           | [] => True
           | (_, c) :: rest => distinct_keys c ∧ all rest
           end) cs
  end.

(** The tokens of the key sequence of a binding. *)
Definition binding_tokens (b : Binding.t) : list string :=
  KeySequence.tokens (Binding.sequence b).

(** The root of the trie that [_ensure_trie] builds from [bindings]. *)
Definition trie_of (bindings : list Binding.t) : TrieNode :=
  foldl (λ n b, add_tokens (binding_tokens b) (Binding.id b) n)
        empty_node bindings.

(** [b] is registered in [r], under its id, as a binding of [mode]. *)
Definition bound_in (r : KeymapRegistry.t) (mode : string) (b : Binding.t)
    : Prop :=
  KeymapRegistry.get_binding (Binding.id b) r = Ok b ∧ Binding.mode b = mode.

Section trie.

Lemma TrieNode_nested_ind (P : TrieNode → Prop) :
  (∀ bs cs, Forall (λ kc : string * TrieNode, P kc.2) cs → P (Node bs cs)) →
  ∀ n, P n.
Proof.
  intros H. fix IH 1. intros [bs cs]. apply H.
  induction cs as [|[k c] rest IHcs]; constructor; [apply IH | exact IHcs].
Qed.

Lemma distinct_keys_unfold bs cs :
  distinct_keys (Node bs cs)
  ↔ NoDup (fst <$> cs) ∧ Forall (λ kc : string * TrieNode, distinct_keys kc.2) cs.
Proof.
  simpl. apply and_iff_compat_l.
  induction cs as [|[k c] rest IH]; [by split; [constructor|]|].
  rewrite Forall_cons. simpl. by rewrite IH.
Qed.

Lemma ids_from_unfold n : ids_from n = node_bindings n ++ ids_below n.
Proof.
  destruct n as [bs cs]. unfold ids_below. simpl. f_equal.
  induction cs as [|[k c] rest IH]; [done|].
  rewrite IH. simpl. rewrite reverse_cons, fmap_app, join_app. simpl.
  by rewrite app_nil_r.
Qed.

(** *** Children *)

Lemma children_get_elem t c cs :
  children_get t cs = Some c → (t, c) ∈ cs.
Proof.
  induction cs as [|[k n] rest IH]; simpl; [done|].
  destruct (decide (k = t)) as [->|Hne].
  - rewrite bool_decide_eq_true_2 by done. intros [= ->]. by left.
  - rewrite bool_decide_eq_false_2 by done. intros H. right. by apply IH.
Qed.

Lemma children_get_None t cs :
  children_get t cs = None ↔ t ∉ fst <$> cs.
Proof.
  induction cs as [|[k n] rest IH]; simpl.
  - split; [intros _; apply not_elem_of_nil | done].
  - rewrite not_elem_of_cons. destruct (decide (k = t)) as [->|Hne].
    + rewrite bool_decide_eq_true_2 by done. split; [done|]. by intros [? _].
    + rewrite bool_decide_eq_false_2 by done. rewrite IH. split; [|tauto].
      intros H. split; [by intros ->|done].
Qed.

Lemma children_get_NoDup t c cs :
  NoDup (fst <$> cs) → (t, c) ∈ cs → children_get t cs = Some c.
Proof.
  induction cs as [|[k n] rest IH]; simpl; [by intros _ ?%elem_of_nil|].
  intros [Hk Hnd]%NoDup_cons [[= -> ->]|Hin]%elem_of_cons.
  - by rewrite bool_decide_eq_true_2.
  - rewrite bool_decide_eq_false_2; [by apply IH|].
    intros ->. apply Hk. apply list_elem_of_fmap. by exists (t, c).
Qed.

Lemma children_get_with_child t t' f cs :
  children_get t (with_child t' f cs)
  = if decide (t = t')
    then Some (f (default empty_node (children_get t' cs)))
    else children_get t cs.
Proof.
  induction cs as [|[k n] rest IH]; simpl.
  - destruct (decide (t = t')) as [->|Hne].
    + by rewrite bool_decide_eq_true_2.
    + by rewrite bool_decide_eq_false_2.
  - destruct (decide (k = t')) as [->|Hk].
    + rewrite (bool_decide_eq_true_2 (t' = t')) by done. simpl.
      destruct (decide (t = t')) as [->|Hne].
      * by rewrite bool_decide_eq_true_2.
      * by rewrite bool_decide_eq_false_2.
    + rewrite (bool_decide_eq_false_2 (k = t')) by done. simpl. rewrite IH.
      destruct (decide (t = t')) as [->|Hne].
      * by rewrite bool_decide_eq_false_2.
      * done.
Qed.

Lemma with_child_keys t f cs x :
  x ∈ fst <$> with_child t f cs ↔ x = t ∨ x ∈ fst <$> cs.
Proof.
  induction cs as [|[k n] rest IH]; simpl.
  - rewrite list_elem_of_singleton. split; [by left|].
    by intros [?|?%elem_of_nil].
  - destruct (decide (k = t)) as [->|Hk].
    + rewrite bool_decide_eq_true_2 by done. simpl.
      rewrite elem_of_cons. tauto.
    + rewrite bool_decide_eq_false_2 by done. simpl.
      rewrite !elem_of_cons, IH. tauto.
Qed.

Lemma with_child_NoDup t f cs :
  NoDup (fst <$> cs) → NoDup (fst <$> with_child t f cs).
Proof.
  induction cs as [|[k n] rest IH]; simpl.
  - intros _. apply NoDup_singleton.
  - intros [Hk Hnd]%NoDup_cons. destruct (decide (k = t)) as [->|Hne].
    + rewrite bool_decide_eq_true_2 by done. simpl. by apply NoDup_cons.
    + rewrite bool_decide_eq_false_2 by done. simpl. apply NoDup_cons.
      split; [|by apply IH]. rewrite with_child_keys. by intros [?|?].
Qed.

Lemma with_child_Forall (Q : TrieNode → Prop) t f cs :
  Q (f empty_node) → (∀ c, Q c → Q (f c)) →
  Forall (λ kc : string * TrieNode, Q kc.2) cs →
  Forall (λ kc : string * TrieNode, Q kc.2) (with_child t f cs).
Proof.
  intros He Hf. induction 1 as [|[k n] rest Hn Hrest IH]; simpl.
  - by repeat constructor.
  - destruct (bool_decide (k = t)); constructor; simpl in *; auto.
Qed.

(** *** Adding a binding *)

Lemma add_tokens_distinct_keys toks id n :
  distinct_keys n → distinct_keys (add_tokens toks id n).
Proof.
  revert n. induction toks as [|t rest IH]; intros [bs cs]; simpl add_tokens.
  - by rewrite !distinct_keys_unfold.
  - rewrite !distinct_keys_unfold. intros [Hnd Hall]. split.
    + by apply with_child_NoDup.
    + apply with_child_Forall; [|by apply IH|done].
      apply IH. apply distinct_keys_unfold. split; [apply NoDup_nil_2|done].
Qed.

Lemma node_at_empty path :
  node_at empty_node path = if decide (path = []) then Some empty_node else None.
Proof. by destruct path. Qed.

Lemma node_at_app n path q :
  node_at n (path ++ q)
  = match node_at n path with Some node => node_at node q | None => None end.
Proof.
  revert n. induction path as [|t rest IH]; intros n; simpl; [done|].
  by destruct (children_get t (node_children n)).
Qed.

Lemma node_at_add_prefix path k id n :
  node_at (add_tokens (path ++ k) id n) path
  = Some (add_tokens k id (default empty_node (node_at n path))).
Proof.
  revert n. induction path as [|t rest IH]; intros [bs cs]; [done|].
  simpl. rewrite children_get_with_child, decide_True by done.
  rewrite IH. destruct (children_get t cs) as [c|]; simpl; [done|].
  rewrite node_at_empty. by destruct (decide (rest = [])).
Qed.

Lemma node_at_add_other toks path id n :
  ¬ path `prefix_of` toks →
  node_at (add_tokens toks id n) path = node_at n path.
Proof.
  revert n path. induction toks as [|t0 toks IH]; intros [bs cs] path Hp.
  - destruct path as [|t rest]; [|done]. destruct Hp. apply prefix_nil.
  - destruct path as [|t rest]; [destruct Hp; apply prefix_nil|].
    simpl. rewrite children_get_with_child.
    destruct (decide (t = t0)) as [->|Hne]; [|done].
    assert (Hrest : ¬ rest `prefix_of` toks).
    { intros H. apply Hp. by apply prefix_cons. }
    rewrite IH by done.
    destruct (children_get t0 cs) as [c|]; simpl; [done|].
    rewrite node_at_empty, decide_False; [done|].
    intros ->. apply Hrest, prefix_nil.
Qed.

Lemma node_at_add_is_Some toks path id n :
  is_Some (node_at (add_tokens toks id n) path)
  ↔ is_Some (node_at n path) ∨ path `prefix_of` toks.
Proof.
  destruct (decide (path `prefix_of` toks)) as [[k ->]|Hp].
  - rewrite node_at_add_prefix. split; [intros _; right; by exists k|done].
  - rewrite node_at_add_other by done. tauto.
Qed.

Lemma ids_at_add toks path id n :
  ids_at (add_tokens toks id n) path
  = ids_at n path ++ (if decide (path = toks) then [id] else []).
Proof.
  unfold ids_at. destruct (decide (path `prefix_of` toks)) as [[k ->]|Hp].
  - rewrite node_at_add_prefix. simpl.
    destruct k as [|t k]; simpl.
    + by rewrite app_nil_r, decide_True.
    + rewrite decide_False, app_nil_r; [done|].
      intros H. apply (f_equal length) in H. rewrite length_app in H.
      simpl in H. lia.
  - rewrite node_at_add_other by done. rewrite decide_False, app_nil_r; [done|].
    by intros ->.
Qed.

(** *** The trie of a list of bindings *)

Lemma trie_of_snoc bs b :
  trie_of (bs ++ [b])
  = add_tokens (binding_tokens b) (Binding.id b) (trie_of bs).
Proof. unfold trie_of. by rewrite foldl_app. Qed.

Lemma build_trie_root mode bs :
  root (foldl (λ trie binding, add_binding binding trie)
          (mkKeymapTrie mode (Node [] [])) bs)
  = trie_of bs.
Proof.
  induction bs as [|b bs IH] using rev_ind; [done|].
  rewrite foldl_app, trie_of_snoc. simpl. by rewrite IH.
Qed.

Lemma trie_of_distinct_keys bs : distinct_keys (trie_of bs).
Proof.
  induction bs as [|b bs IH] using rev_ind.
  - apply distinct_keys_unfold. split; [apply NoDup_nil_2|done].
  - rewrite trie_of_snoc. by apply add_tokens_distinct_keys.
Qed.

Lemma trie_of_is_Some bs path :
  is_Some (node_at (trie_of bs) path)
  ↔ path = [] ∨ ∃ b, b ∈ bs ∧ path `prefix_of` binding_tokens b.
Proof.
  induction bs as [|b bs IH] using rev_ind.
  - unfold trie_of. simpl. rewrite node_at_empty.
    destruct (decide (path = [])) as [->|Hne].
    + split; [by left|done].
    + split; [by intros [? ?]|]. intros [?|(b & Hb%elem_of_nil & _)]; done.
  - rewrite trie_of_snoc, node_at_add_is_Some, IH. split.
    + intros [[?|(b' & Hin & Hp)]|Hp]; [by left| |].
      * right. exists b'. split; [|done]. apply elem_of_app. by left.
      * right. exists b. split; [|done]. apply elem_of_app. right. by left.
    + intros [?|(b' & Hin & Hp)]; [by left; left|].
      apply elem_of_app in Hin as [Hin|Hin%list_elem_of_singleton].
      * left. right. by exists b'.
      * subst b'. by right.
Qed.

Lemma trie_of_ids_at bs path id :
  id ∈ ids_at (trie_of bs) path
  ↔ ∃ b, b ∈ bs ∧ binding_tokens b = path ∧ Binding.id b = id.
Proof.
  induction bs as [|b bs IH] using rev_ind.
  - unfold trie_of, ids_at. simpl. rewrite node_at_empty.
    split; [|by intros (b & Hb%elem_of_nil & _)].
    destruct (decide (path = [])); by intros ?%elem_of_nil.
  - rewrite trie_of_snoc, ids_at_add, elem_of_app, IH. split.
    + intros [(b' & Hin & Ht & Hid)|Hin].
      * exists b'. split; [|done]. apply elem_of_app. by left.
      * destruct (decide (path = binding_tokens b)) as [->|];
          [|by apply elem_of_nil in Hin].
        apply list_elem_of_singleton in Hin as ->. exists b.
        split; [|done]. apply elem_of_app. right. by left.
    + intros (b' & Hin & Ht & Hid).
      apply elem_of_app in Hin as [Hin|Hin%list_elem_of_singleton].
      * left. by exists b'.
      * subst b'. right. rewrite decide_True by done. subst id. by left.
Qed.

(** *** The ids below a node *)

Lemma elem_of_ids_below n id :
  distinct_keys n →
  id ∈ ids_below n
  ↔ ∃ t c, children_get t (node_children n) = Some c ∧ id ∈ ids_from c.
Proof.
  destruct n as [bs cs]. intros [Hnd _]%distinct_keys_unfold.
  unfold ids_below. simpl. rewrite list_elem_of_join. split.
  - intros (ids & Hid & Hin).
    apply list_elem_of_fmap in Hin as (c & -> & Hin).
    apply elem_of_reverse, list_elem_of_fmap in Hin as ([t c'] & -> & Hin).
    exists t, c'. split; [by apply children_get_NoDup|done].
  - intros (t & c & Hget & Hid). exists (ids_from c). split; [done|].
    apply list_elem_of_fmap. exists c. split; [done|].
    apply elem_of_reverse, list_elem_of_fmap. exists (t, c).
    split; [done|]. by apply children_get_elem.
Qed.

Lemma elem_of_ids_from n id :
  distinct_keys n →
  id ∈ ids_from n
  ↔ ∃ path node, node_at n path = Some node ∧ id ∈ node_bindings node.
Proof.
  induction n as [bs cs IH] using TrieNode_nested_ind. intros Hd.
  rewrite ids_from_unfold, elem_of_app, elem_of_ids_below by done.
  apply distinct_keys_unfold in Hd as [Hnd Hall]. simpl. split.
  - intros [Hin|(t & c & Hget & Hid)].
    + by exists [], (Node bs cs).
    + pose proof (children_get_elem _ _ _ Hget) as Hc.
      rewrite Forall_forall in IH, Hall.
      apply (IH _ Hc) in Hid as (path & node & Hat & Hid); [|by apply (Hall _ Hc)].
      exists (t :: path), node. simpl. by rewrite Hget.
  - intros ([|t path] & node & Hat & Hid); simpl in Hat.
    + injection Hat as <-. by left.
    + destruct (children_get t cs) as [c|] eqn:Hget; [|done].
      right. exists t, c. split; [done|].
      pose proof (children_get_elem _ _ _ Hget) as Hc.
      rewrite Forall_forall in IH, Hall.
      apply (IH _ Hc); [by apply (Hall _ Hc)|]. by exists path, node.
Qed.

Lemma trie_of_ids_below bs path node id :
  node_at (trie_of bs) path = Some node →
  id ∈ ids_below node
  ↔ ∃ b t rest, b ∈ bs ∧ binding_tokens b = path ++ t :: rest
                ∧ Binding.id b = id.
Proof.
  intros Hat.
  assert (Hsub : ∀ q n', node_at node q = Some n' → distinct_keys n').
  { pose proof (trie_of_distinct_keys bs) as Hd. revert Hd.
    assert (G : ∀ q n n', distinct_keys n → node_at n q = Some n' →
                          distinct_keys n').
    { induction q as [|t q IHq]; intros [bs0 cs0] n' Hd0; simpl.
      - by intros [= <-].
      - destruct (children_get t cs0) as [c|] eqn:Hget; [|done].
        apply distinct_keys_unfold in Hd0 as [_ Hall].
        rewrite Forall_forall in Hall.
        apply IHq. by apply (Hall _ (children_get_elem _ _ _ Hget)). }
    intros Hd q n' Hq. apply (G (path ++ q) (trie_of bs)); [done|].
    by rewrite node_at_app, Hat. }
  rewrite elem_of_ids_below by (by apply (Hsub [])). split.
  - intros (t & c & Hget & Hid).
    apply elem_of_ids_from in Hid as (rest & n' & Hn' & Hid);
      [|apply (Hsub [t]); simpl; by rewrite Hget].
    assert (Hin : id ∈ ids_at (trie_of bs) (path ++ t :: rest)).
    { unfold ids_at. rewrite node_at_app, Hat. simpl. rewrite Hget, Hn'.
      done. }
    apply trie_of_ids_at in Hin as (b & Hb & Ht & Hi). by exists b, t, rest.
  - intros (b & t & rest & Hb & Ht & Hi).
    assert (Hin : id ∈ ids_at (trie_of bs) (path ++ t :: rest)).
    { apply trie_of_ids_at. by exists b. }
    unfold ids_at in Hin. rewrite node_at_app, Hat in Hin. simpl in Hin.
    destruct (children_get t (node_children node)) as [c|] eqn:Hget;
      [|by apply elem_of_nil in Hin].
    exists t, c. split; [done|].
    apply elem_of_ids_from; [apply (Hsub [t]); simpl; by rewrite Hget|].
    destruct (node_at c rest) as [n'|] eqn:Hn'; [|by apply elem_of_nil in Hin].
    by exists rest, n'.
Qed.

(** *** The walk *)

Lemma walk_spec n tokens consumed :
  KeymapResolver.walk n tokens consumed
  = match node_at n tokens with
    | Some node => inl (node, (consumed + len tokens)%Z)
    | None => inr (consumed + Z.of_nat (matched n tokens))%Z
    end.
Proof.
  revert n consumed. induction tokens as [|t rest IH]; intros n consumed; simpl.
  - unfold len. simpl. by rewrite Z.add_0_r.
  - destruct (children_get t (node_children n)) as [c|]; simpl.
    + rewrite IH. unfold len. simpl length.
      destruct (node_at c rest); [do 2 f_equal|f_equal]; lia.
    + by rewrite Z.add_0_r.
Qed.

Lemma matched_le n tokens : matched n tokens ≤ length tokens.
Proof.
  revert n. induction tokens as [|t rest IH]; intros n; simpl; [done|].
  destruct (children_get t (node_children n)) as [c|]; [|lia].
  specialize (IH c). lia.
Qed.

Lemma matched_spec n tokens k :
  k ≤ length tokens →
  k ≤ matched n tokens ↔ is_Some (node_at n (take k tokens)).
Proof.
  revert n k. induction tokens as [|t rest IH]; intros n k Hk; simpl in *.
  - assert (k = 0) as -> by lia. simpl. split; [done|lia].
  - destruct k as [|k]; simpl; [split; [done|lia]|].
    destruct (children_get t (node_children n)) as [c|].
    + rewrite <- IH by lia. lia.
    + split; [lia|by intros [? ?]].
Qed.

Lemma matched_all n tokens node :
  node_at n tokens = Some node → matched n tokens = length tokens.
Proof.
  intros Hat. pose proof (matched_le n tokens) as Hle.
  assert (length tokens ≤ matched n tokens); [|lia].
  apply matched_spec; [done|]. by rewrite firstn_all, Hat.
Qed.

(** *** Sorting the next tokens *)

Lemma elem_of_insert_sorted x y l :
  y ∈ insert_sorted x l ↔ y = x ∨ y ∈ l.
Proof.
  induction l as [|z rest IH]; simpl.
  - rewrite list_elem_of_singleton. split; [by left|].
    by intros [?|?%elem_of_nil].
  - destruct (String.leb x z); rewrite !elem_of_cons; [done|].
    rewrite IH. tauto.
Qed.

Lemma elem_of_sorted y l : y ∈ sorted l ↔ y ∈ l.
Proof.
  unfold sorted. induction l as [|x rest IH]; simpl; [done|].
  by rewrite elem_of_insert_sorted, IH, elem_of_cons.
Qed.

Lemma insert_sorted_Sorted x l :
  Sorted (λ a b, String.leb a b = true) l →
  Sorted (λ a b, String.leb a b = true) (insert_sorted x l).
Proof.
  induction 1 as [|z rest Hs IH Hhd]; simpl.
  - by repeat constructor.
  - destruct (String.leb x z) eqn:Hxz.
    + constructor; [by constructor|by constructor].
    + constructor; [done|].
      assert (Hzx : String.leb z x = true).
      { destruct (String.leb_total x z) as [H|H]; [congruence|done]. }
      destruct rest as [|w rest]; simpl; [by constructor|].
      destruct (String.leb x w); constructor; [done|].
      by inversion Hhd.
Qed.

Lemma sorted_Sorted l : Sorted (λ a b, String.leb a b = true) (sorted l).
Proof.
  unfold sorted. induction l as [|x rest IH]; simpl; [constructor|].
  by apply insert_sorted_Sorted.
Qed.

Lemma elem_of_next_tokens node t :
  t ∈ next_tokens node ↔ is_Some (children_get t (node_children node)).
Proof.
  unfold next_tokens. rewrite elem_of_sorted.
  destruct (children_get t (node_children node)) as [c|] eqn:Hget.
  - split; [done|]. intros _.
    apply list_elem_of_fmap. exists (t, c). split; [done|].
    by apply children_get_elem.
  - apply children_get_None in Hget. split; [done|by intros [? ?]].
Qed.

End trie.

(** ** The answers of the resolver *)

Section resolver_answers.
Import KeymapResolver.

Lemma allowed_matches_spec r ctx ids :
  (∀ id, id ∈ ids →
     ∃ b, KeymapRegistry._bindings r !! id = Some b
          ∧ is_Some (KeymapRegistry._actions r !! Binding.action_id b)) →
  ∃ ms,
    allowed_matches r ctx ids = Ok ms
    ∧ ∀ m, m ∈ ms ↔
           ∃ id, id ∈ ids
                 ∧ KeymapRegistry._bindings r !! id = Some (match_binding m)
                 ∧ Binding.allows ctx (match_binding m) = true
                 ∧ KeymapRegistry._actions r
                     !! Binding.action_id (match_binding m)
                   = Some (match_action m).
Proof.
  induction ids as [|id ids IH]; intros Hids.
  - exists []. split; [done|]. intros m. split; [by intros ?%elem_of_nil|].
    by intros (id & ?%elem_of_nil & _).
  - destruct IH as (ms & Hms & Hspec).
    { intros id' Hin. apply Hids. by right. }
    destruct (Hids id) as (b & Hb & [a Ha]); [by left|].
    simpl. unfold KeymapRegistry.get_binding, KeymapRegistry.get_action.
    rewrite Hb. simpl. destruct (Binding.allows ctx b) eqn:Hal; simpl.
    + rewrite Ha, Hms. simpl. exists (mkResolutionMatch b a :: ms).
      split; [done|]. intros m. rewrite elem_of_cons, Hspec. split.
      * intros [->|(id' & Hin & H)]; [exists id; split; [by left|done]|].
        exists id'. split; [by right|done].
      * intros (id' & [->|Hin]%elem_of_cons & Hb' & Hal' & Ha').
        -- left. destruct m as [mb ma]. simpl in *. congruence.
        -- right. by exists id'.
    + exists ms. split; [done|]. intros m. rewrite Hspec. split.
      * intros (id' & Hin & H). exists id'. split; [by right|done].
      * intros (id' & [->|Hin]%elem_of_cons & Hb' & Hal' & Ha').
        -- congruence.
        -- by exists id'.
Qed.

Lemma match_before_true x best :
  match_before x best = true →
  (Binding.priority (match_binding best)
   ≤ Binding.priority (match_binding x))%Z.
Proof.
  unfold match_before. intros [H|[H _]%andb_true_iff]%orb_true_iff; lia.
Qed.

Lemma match_before_false x best :
  match_before x best = false →
  (Binding.priority (match_binding x)
   ≤ Binding.priority (match_binding best))%Z.
Proof.
  unfold match_before. intros [H _]%orb_false_iff. lia.
Qed.

Lemma first_sorted_spec ms :
  match first_sorted ms with
  | None => ms = []
  | Some m =>
      m ∈ ms
      ∧ ∀ x, x ∈ ms →
             (Binding.priority (match_binding x)
              ≤ Binding.priority (match_binding m))%Z
  end.
Proof.
  destruct ms as [|m0 rest]; simpl; [done|].
  assert (G : ∀ rest best,
            let m := foldl (λ best x, if match_before x best then x else best)
                       best rest in
            (m = best ∨ m ∈ rest)
            ∧ (Binding.priority (match_binding best)
               ≤ Binding.priority (match_binding m))%Z
            ∧ ∀ x, x ∈ rest →
                   (Binding.priority (match_binding x)
                    ≤ Binding.priority (match_binding m))%Z).
  { clear. induction rest as [|y rest IH]; intros best; simpl.
    - split; [by left|]. split; [lia|]. by intros x ?%elem_of_nil.
    - destruct (match_before y best) eqn:Hb.
      + apply match_before_true in Hb.
        destruct (IH y) as ([->|Hin] & Hle & Hall).
        * split; [right; by left|]. split; [lia|].
          intros x [->|Hx]%elem_of_cons; [lia|by apply Hall].
        * split; [right; by right|]. split; [lia|].
          intros x [->|Hx]%elem_of_cons; [lia|by apply Hall].
      + apply match_before_false in Hb.
        destruct (IH best) as ([->|Hin] & Hle & Hall).
        * split; [by left|]. split; [lia|].
          intros x [->|Hx]%elem_of_cons; [lia|by apply Hall].
        * split; [right; by right|]. split; [lia|].
          intros x [->|Hx]%elem_of_cons; [lia|by apply Hall]. }
  destruct (G rest m0) as ([->|Hin] & Hle & Hall).
  - split; [by left|]. intros x [->|Hx]%elem_of_cons; [lia|by apply Hall].
  - split; [by right|]. intros x [->|Hx]%elem_of_cons; [lia|by apply Hall].
Qed.

Lemma select_match_spec r node ctx :
  (∀ id, id ∈ node_bindings node →
     ∃ b, KeymapRegistry._bindings r !! id = Some b
          ∧ is_Some (KeymapRegistry._actions r !! Binding.action_id b)) →
  ∃ ms,
    _select_match r node ctx = Ok (first_sorted ms)
    ∧ ∀ m, m ∈ ms ↔
           ∃ id, id ∈ node_bindings node
                 ∧ KeymapRegistry._bindings r !! id = Some (match_binding m)
                 ∧ Binding.allows ctx (match_binding m) = true
                 ∧ KeymapRegistry._actions r
                     !! Binding.action_id (match_binding m)
                   = Some (match_action m).
Proof.
  intros Hids.
  destruct (allowed_matches_spec r ctx (node_bindings node) Hids)
    as (ms & Hms & Hspec).
  exists ms. split; [|done]. unfold _select_match.
  destruct (node_bindings node) as [|id ids] eqn:E.
  - simpl in Hms. by injection Hms as <-.
  - by rewrite Hms.
Qed.

Lemma timeouts_of_spec r ids :
  (∀ id, id ∈ ids → is_Some (KeymapRegistry._bindings r !! id)) →
  ∃ ts,
    timeouts_of r ids = Ok ts
    ∧ ∀ t, t ∈ ts ↔
           ∃ id b, id ∈ ids
                   ∧ KeymapRegistry._bindings r !! id = Some b
                   ∧ KeySequence.timeout_ms (Binding.sequence b) = t.
Proof.
  induction ids as [|id ids IH]; intros Hids.
  - exists []. split; [done|]. intros t. split; [by intros ?%elem_of_nil|].
    by intros (id & b & ?%elem_of_nil & _).
  - destruct IH as (ts & Hts & Hspec).
    { intros id' Hin. apply Hids. by right. }
    destruct (Hids id) as [b Hb]; [by left|].
    simpl. unfold KeymapRegistry.get_binding. rewrite Hb, Hts. simpl.
    exists (KeySequence.timeout_ms (Binding.sequence b) :: ts).
    split; [done|]. intros t. rewrite elem_of_cons, Hspec. split.
    + intros [->|(id' & b' & Hin & H)].
      * exists id, b. split; [by left|done].
      * exists id', b'. split; [by right|done].
    + intros (id' & b' & [->|Hin]%elem_of_cons & Hb' & Ht).
      * left. congruence.
      * right. by exists id', b'.
Qed.

Lemma min_timeout_spec ts :
  match min_timeout ts with
  | None => ts = []
  | Some t => t ∈ ts ∧ ∀ x, x ∈ ts → (t ≤ x)%Z
  end.
Proof.
  destruct ts as [|t0 rest]; simpl; [done|].
  assert (G : ∀ rest t0,
            let t := foldl Z.min t0 rest in
            (t = t0 ∨ t ∈ rest) ∧ (t ≤ t0)%Z ∧ ∀ x, x ∈ rest → (t ≤ x)%Z).
  { clear. induction rest as [|y rest IH]; intros t0; simpl.
    - split; [by left|]. split; [lia|]. by intros x ?%elem_of_nil.
    - destruct (IH (Z.min t0 y)) as (Hin & Hle & Hall).
      split; [|split; [lia|]].
      + destruct Hin as [Hin|Hin]; [|right; by right].
        rewrite Hin.
        destruct (Z.min_spec t0 y) as [[_ E]|[_ E]]; rewrite E;
          [by left|right; by left].
      + intros x [->|Hx]%elem_of_cons; [lia|by apply Hall]. }
  destruct (G rest t0) as (Hin & Hle & Hall). split.
  - destruct Hin as [->|Hin]; [by left|by right].
  - intros x [->|Hx]%elem_of_cons; [lia|by apply Hall].
Qed.

(** What the resolver answers on a sound registry, with the trie of the
    mode built from it: a match, or a pending result, or a miss, each
    decided by the registered bindings of the mode. *)
Lemma rebuilt_resolve_cases r mode tokens ctx :
  reg_sound r →
  ∃ res,
    (trie ← build_trie r mode; resolve_in r trie tokens ctx) = Ok res
    ∧ ((0 ≤ consumed res ≤ len tokens)%Z
       ∧ ∀ k, 0 < k ≤ length tokens →
              (Z.of_nat k ≤ consumed res)%Z
              ↔ ∃ b, bound_in r mode b
                     ∧ take k tokens `prefix_of` binding_tokens b)
    ∧ ((∃ m, res = mkResolutionResult Match (Some m) (len tokens) [] None
             ∧ bound_in r mode (match_binding m)
             ∧ binding_tokens (match_binding m) = tokens
             ∧ Binding.allows ctx (match_binding m) = true
             ∧ KeymapRegistry.get_action
                 (Binding.action_id (match_binding m)) r
               = Ok (match_action m)
             ∧ ∀ b, bound_in r mode b → binding_tokens b = tokens →
                    Binding.allows ctx b = true →
                    (Binding.priority b
                     ≤ Binding.priority (match_binding m))%Z)
       ∨ ((∀ b, bound_in r mode b → binding_tokens b = tokens →
                Binding.allows ctx b = false)
          ∧ ((∃ next t,
                res = mkResolutionResult Pending None (len tokens) next
                        (Some t)
                ∧ next ≠ []
                ∧ Sorted (λ a b, String.leb a b = true) next
                ∧ (∀ t', t' ∈ next ↔
                         ∃ b rest, bound_in r mode b
                                   ∧ binding_tokens b = tokens ++ t' :: rest)
                ∧ (∃ b t' rest,
                     bound_in r mode b
                     ∧ binding_tokens b = tokens ++ t' :: rest
                     ∧ KeySequence.timeout_ms (Binding.sequence b) = t)
                ∧ ∀ b t' rest,
                    bound_in r mode b →
                    binding_tokens b = tokens ++ t' :: rest →
                    (t ≤ KeySequence.timeout_ms (Binding.sequence b))%Z)
             ∨ ((∀ b t' rest, bound_in r mode b →
                              binding_tokens b ≠ tokens ++ t' :: rest)
                ∧ ∃ c, res = mkResolutionResult Miss None c [] None)))).
Proof.
  intros [Hwf Hcf Hak].
  destruct (iter_bindings_mode r mode Hwf) as (bs & Hbs & Hspec).
  assert (Hbound : ∀ b, b ∈ bs ↔ bound_in r mode b).
  { intros b. rewrite Hspec. unfold bound_in, KeymapRegistry.get_binding.
    destruct (KeymapRegistry._bindings r !! Binding.id b);
      split; intros [? ?]; split; congruence. }
  clear Hspec.
  unfold build_trie. rewrite Hbs. simpl. unfold resolve_in. simpl root.
  rewrite build_trie_root, walk_spec.
  assert (Hprefix : ∀ k, 0 < k ≤ length tokens →
            is_Some (node_at (trie_of bs) (take k tokens))
            ↔ ∃ b, bound_in r mode b
                   ∧ take k tokens `prefix_of` binding_tokens b).
  { intros k Hk. rewrite trie_of_is_Some. split.
    - intros [E|(b & Hb & Hp)].
      + apply (f_equal length) in E. rewrite length_take in E. simpl in E. lia.
      + exists b. by rewrite <- Hbound.
    - intros (b & Hb & Hp). right. exists b. by rewrite Hbound. }
  assert (Hnone : node_at (trie_of bs) tokens = None →
            ∀ b q, bound_in r mode b → binding_tokens b ≠ tokens ++ q).
  { intros Hat b q Hb Ht.
    assert (is_Some (node_at (trie_of bs) tokens)) as [? ?]; [|congruence].
    apply trie_of_is_Some. right. exists b. split; [by apply Hbound|].
    rewrite Ht. by exists q. }
  destruct (node_at (trie_of bs) tokens) as [node|] eqn:Hat.
  - (* the walk reaches a node *)
    assert (Hids : ∀ id, id ∈ node_bindings node ↔
              ∃ b, bound_in r mode b ∧ binding_tokens b = tokens
                   ∧ Binding.id b = id).
    { intros id. pose proof (trie_of_ids_at bs tokens id) as H.
      unfold ids_at in H. rewrite Hat in H. simpl in H. rewrite H.
      split; intros (b & Hb & Ht); exists b; [by rewrite <- Hbound|by rewrite Hbound]. }
    assert (Hreg : ∀ b, bound_in r mode b →
              KeymapRegistry._bindings r !! Binding.id b = Some b).
    { intros b [Hb _]. unfold KeymapRegistry.get_binding in Hb.
      destruct (KeymapRegistry._bindings r !! Binding.id b); congruence. }
    destruct (select_match_spec r node ctx) as (ms & Hsel & Hms).
    { intros id (b & Hb & _ & <-)%Hids. exists b.
      split; [by apply Hreg|]. by apply (Hak _ _ (Hreg _ Hb)). }
    rewrite Hsel. simpl.
    assert (Hcons : (0 ≤ 0 + len tokens ≤ len tokens)%Z
              ∧ ∀ k, 0 < k ≤ length tokens →
                     (Z.of_nat k ≤ 0 + len tokens)%Z
                     ↔ ∃ b, bound_in r mode b
                            ∧ take k tokens `prefix_of` binding_tokens b).
    { unfold len. split; [lia|]. intros k Hk. rewrite <- Hprefix by done.
      split; [intros _|lia].
      assert (Hs : is_Some (node_at (trie_of bs) tokens)) by by rewrite Hat.
      apply trie_of_is_Some in Hs as [->|(b & Hb & Hp)]; [simpl in Hk; lia|].
      apply trie_of_is_Some. right. exists b. split; [done|].
      etrans; [|exact Hp]. apply prefix_take. }
    pose proof (first_sorted_spec ms) as Hfirst.
    destruct (first_sorted ms) as [m|].
    + (* a match *)
      destruct Hfirst as [Hin Hmax]. simpl.
      eexists. split; [done|]. split; [exact Hcons|]. left. exists m.
      rewrite Z.add_0_l. split; [done|].
      apply Hms in Hin as (id & (b & Hb & Ht & <-)%Hids & Hl & Hal & Ha).
      assert (b = match_binding m) as -> by (apply Hreg in Hb; congruence).
      split; [done|]. split; [done|]. split; [done|].
      split; [unfold KeymapRegistry.get_action; by rewrite Ha|].
      intros b' Hb' Ht' Hal'.
      destruct (Hak _ _ (Hreg _ Hb')) as [a' Ha'].
      apply (Hmax (mkResolutionMatch b' a')). apply Hms.
      exists (Binding.id b'). split; [apply Hids; by exists b'|].
      split; [by apply Hreg|done].
    + (* no match *)
      subst ms.
      assert (Hno : ∀ b, bound_in r mode b → binding_tokens b = tokens →
                Binding.allows ctx b = false).
      { intros b Hb Ht. apply not_true_iff_false. intros Hal.
        destruct (Hak _ _ (Hreg _ Hb)) as [a Ha].
        assert (H : mkResolutionMatch b a ∈ @nil ResolutionMatch);
          [|by apply elem_of_nil in H].
        apply Hms. exists (Binding.id b). split; [apply Hids; by exists b|].
        split; [by apply Hreg|done]. }
      assert (Hnext : ∀ t', t' ∈ next_tokens node ↔
                ∃ b rest, bound_in r mode b
                          ∧ binding_tokens b = tokens ++ t' :: rest).
      { intros t'. rewrite elem_of_next_tokens.
        assert (E : node_at (trie_of bs) (tokens ++ [t'])
                    = children_get t' (node_children node)).
        { rewrite node_at_app, Hat. simpl.
          by destruct (children_get t' (node_children node)). }
        rewrite <- E, trie_of_is_Some. split.
        - intros [E'|(b & Hb & [q Hq])]; [by destruct tokens|].
          exists b, q. split; [by apply Hbound|].
          by rewrite Hq, <- app_assoc.
        - intros (b & rest & Hb & Ht). right. exists b.
          split; [by apply Hbound|]. exists rest.
          by rewrite Ht, <- app_assoc. }
      destruct (next_tokens node) as [|t1 next] eqn:Enext; simpl.
      * (* no child: a miss *)
        eexists. split; [done|]. split; [exact Hcons|]. right.
        split; [done|]. right. split; [|by eexists].
        intros b t' rest Hb Ht.
        assert (H : t' ∈ @nil string); [|by apply elem_of_nil in H].
        apply Hnext. by exists b, rest.
      * (* children: pending *)
        assert (Hbelow : ∀ id, id ∈ ids_below node ↔
                  ∃ b t' rest, bound_in r mode b
                               ∧ binding_tokens b = tokens ++ t' :: rest
                               ∧ Binding.id b = id).
        { intros id. rewrite (trie_of_ids_below bs tokens node id Hat).
          split; intros (b & t' & rest & Hb & H); exists b, t', rest;
            [by rewrite <- Hbound|by rewrite Hbound]. }
        unfold _pending_timeout.
        destruct (timeouts_of_spec r (ids_below node)) as (ts & Hts & Htspec).
        { intros id (b & t' & rest & Hb & _ & <-)%Hbelow.
          exists b. by apply Hreg. }
        rewrite Hts. simpl.
        assert (Hext : ∀ t, t ∈ ts ↔
                  ∃ b t' rest, bound_in r mode b
                               ∧ binding_tokens b = tokens ++ t' :: rest
                               ∧ KeySequence.timeout_ms (Binding.sequence b)
                                 = t).
        { intros t. rewrite Htspec. split.
          - intros (id & b & (b' & t' & rest & Hb' & Ht' & <-)%Hbelow
                    & Hl & <-).
            assert (b' = b) as -> by (apply Hreg in Hb'; congruence).
            by exists b, t', rest.
          - intros (b & t' & rest & Hb & Ht & <-).
            exists (Binding.id b), b. split; [|split; [by apply Hreg|done]].
            apply Hbelow. by exists b, t', rest. }
        pose proof (min_timeout_spec ts) as Hmin.
        destruct (min_timeout ts) as [t|].
        -- destruct Hmin as [Hin Hle].
           eexists. split; [done|]. split; [exact Hcons|]. right.
           split; [done|]. left. exists (t1 :: next), t.
           rewrite Z.add_0_l. split; [done|]. split; [done|].
           split; [rewrite <- Enext; apply sorted_Sorted|].
           split; [done|]. split; [by apply Hext|].
           intros b t' rest Hb Ht. apply Hle, Hext. by exists b, t', rest.
        -- subst ts. exfalso.
           assert (H1 : t1 ∈ t1 :: next) by by left.
           apply Hnext in H1 as (b & rest & Hb & Ht).
           assert (H : KeySequence.timeout_ms (Binding.sequence b)
                       ∈ @nil Z); [|by apply elem_of_nil in H].
           apply Hext. by exists b, t1, rest.
  - (* the walk stops before the last token *)
    eexists. split; [done|]. split.
    + pose proof (matched_le (trie_of bs) tokens) as Hle. unfold len.
      cbn [consumed].
      split; [lia|]. intros k Hk. rewrite <- Hprefix by done.
      rewrite <- matched_spec by lia. lia.
    + right. split.
      * intros b Hb Ht. exfalso. apply (Hnone eq_refl b [] Hb).
        by rewrite app_nil_r.
      * right. split; [|by eexists]. intros b t' rest Hb.
        by apply (Hnone eq_refl b (t' :: rest) Hb).
Qed.

(** The answer of the resolver of a session is the one of
    [rebuilt_resolve_cases]. *)
Lemma session_answer calls mode tokens ctx :
  Forall stable_call calls →
  reg_sound (registry (session_run calls new_session))
  ∧ cached_resolve (session_run calls new_session) mode tokens ctx
    = (trie ← build_trie (registry (session_run calls new_session)) mode;
       resolve_in (registry (session_run calls new_session)) trie tokens ctx).
Proof.
  intros Hcalls. split.
  - apply sound_session_run; [apply reg_sound_init|done].
  - destruct (session_run_ok calls new_session session_ok_new Hcalls)
      as [_ Hcache].
    unfold cached_resolve. by apply resolve_spec.
Qed.

End resolver_answers.

Section resolver_results.
Import KeymapResolver.

(** X20. A match returned by the resolver of a session (a registry built
    by any calls, with updates that keep the id of their binding) is a
    registered binding of the mode whose tokens are exactly the tokens
    given, whose guards the context satisfies, paired with its registered
    action; all the tokens are consumed; and no registered binding of the
    mode on the same tokens that the context allows has a higher
    priority. *)
Theorem resolver_match_is_best
    (calls : list session_call) (mode : string) (tokens : list string)
    (context : gmap string bool) (res : ResolutionResult)
    (m : ResolutionMatch) :
  Forall stable_call calls →
  cached_resolve (session_run calls new_session) mode tokens context = Ok res →
  match_ res = Some m →
  status res = Match
  ∧ consumed res = len tokens
  ∧ bound_in (registry (session_run calls new_session)) mode (match_binding m)
  ∧ binding_tokens (match_binding m) = tokens
  ∧ Binding.allows context (match_binding m) = true
  ∧ KeymapRegistry.get_action (Binding.action_id (match_binding m))
      (registry (session_run calls new_session))
    = Ok (match_action m)
  ∧ ∀ b, bound_in (registry (session_run calls new_session)) mode b →
         binding_tokens b = tokens →
         Binding.allows context b = true →
         (Binding.priority b ≤ Binding.priority (match_binding m))%Z.
Proof.
  intros Hcalls Hres Hm.
  destruct (session_answer calls mode tokens context Hcalls) as [Hs Heq].
  destruct (rebuilt_resolve_cases _ mode tokens context Hs)
    as (res' & Hres' & _ & Hcases).
  rewrite Heq, Hres' in Hres. injection Hres as ->.
  destruct Hcases as [(m' & -> & H)|[_ [(next & t & -> & _)|[_ [c ->]]]]];
    simpl in Hm; [|done|done].
  injection Hm as ->. split; [done|]. split; [done|]. exact H.
Qed.

(** Two bindings on the key [x] of mode [m] under different flags, the
    second raised to priority 5. *)
Definition calls_both_allowed : list session_call :=
  [ RegisterAction action_test false;
    RegisterBinding (binding_flagged "b1" "a") false;
    RegisterBinding (binding_flagged "b2" "b") false;
    UpdateBinding "b2" priority_5 ].

Definition binding_b2_raised : Binding.t :=
  Binding.mk "b2" "m" sequence_x "core.test" EmptyString
    [WhenClause.mk "b" true] 5.

Definition context_a_b : gmap string bool :=
  <["a" := true]> {[ "b" := true ]}.

Lemma resolver_match_is_best_witness :
  Forall stable_call calls_both_allowed
  ∧ cached_resolve (session_run calls_both_allowed new_session) "m" ["x"]
      context_a_b
    = Ok (mkResolutionResult Match
            (Some (mkResolutionMatch binding_b2_raised action_test)) 1 []
            None)
  ∧ Binding.allows context_a_b (binding_flagged "b1" "a") = true
  ∧ (Binding.priority (binding_flagged "b1" "a")
     ≤ Binding.priority binding_b2_raised)%Z.
Proof.
  assert (Hstable : Forall stable_call calls_both_allowed).
  { repeat constructor. }
  assert (Hres : cached_resolve (session_run calls_both_allowed new_session)
                   "m" ["x"] context_a_b
                 = Ok (mkResolutionResult Match
                         (Some (mkResolutionMatch binding_b2_raised
                                  action_test)) 1 [] None)).
  { vm_compute. reflexivity. }
  assert (Hal : Binding.allows context_a_b (binding_flagged "b1" "a") = true).
  { vm_compute. reflexivity. }
  assert (Hb : bound_in (registry (session_run calls_both_allowed new_session))
                 "m" (binding_flagged "b1" "a")).
  { split; vm_compute; reflexivity. }
  split; [exact Hstable|]. split; [exact Hres|]. split; [exact Hal|].
  exact (proj2 (proj2 (proj2 (proj2 (proj2 (proj2
           (resolver_match_is_best calls_both_allowed "m" ["x"] context_a_b
              _ _ Hstable Hres eq_refl))))))
           (binding_flagged "b1" "a") Hb eq_refl Hal).
Defined.

(** X21. The resolver of a session always answers, and the registered
    bindings of the mode decide the status: a match exactly when one of
    them has the tokens given and is allowed by the context; otherwise
    pending exactly when one of them has the tokens given followed by
    more; otherwise a miss. A match or a pending result has consumed all
    the tokens; in every case the tokens consumed are the longest prefix
    of the tokens given that starts some registered binding of the
    mode. *)
Theorem resolver_status_decided
    (calls : list session_call) (mode : string) (tokens : list string)
    (context : gmap string bool) :
  Forall stable_call calls →
  ∃ res,
    cached_resolve (session_run calls new_session) mode tokens context = Ok res
    ∧ (status res = Match
       ↔ ∃ b, bound_in (registry (session_run calls new_session)) mode b
              ∧ binding_tokens b = tokens
              ∧ Binding.allows context b = true)
    ∧ (status res = Pending
       ↔ (∀ b, bound_in (registry (session_run calls new_session)) mode b →
               binding_tokens b = tokens →
               Binding.allows context b = false)
         ∧ ∃ b t rest,
             bound_in (registry (session_run calls new_session)) mode b
             ∧ binding_tokens b = tokens ++ t :: rest)
    ∧ (status res ≠ Miss → consumed res = len tokens)
    ∧ (0 ≤ consumed res ≤ len tokens)%Z
    ∧ ∀ k, 0 < k ≤ length tokens →
           (Z.of_nat k ≤ consumed res)%Z
           ↔ ∃ b, bound_in (registry (session_run calls new_session)) mode b
                  ∧ take k tokens `prefix_of` binding_tokens b.
Proof.
  intros Hcalls.
  destruct (session_answer calls mode tokens context Hcalls) as [Hs Heq].
  destruct (rebuilt_resolve_cases _ mode tokens context Hs)
    as (res & Hres & [Hrange Hcons] & Hcases).
  exists res. split; [by rewrite Heq|].
  destruct Hcases
    as [(m & -> & Hb & Ht & Hal & _)
       |[Hno [(next & t & -> & Hne & _ & Hnext & (b & t' & rest & Hb & Ht & _)
               & _)
             |[Hnone [c ->]]]]]; simpl.
  - split; [split; [intros _; by exists (match_binding m)|done]|].
    split; [split; [done|]|done].
    intros [Hno _]. specialize (Hno _ Hb Ht). congruence.
  - split; [split; [done|]|].
    { intros (b0 & Hb0 & Ht0 & Hal0). specialize (Hno _ Hb0 Ht0). congruence. }
    split; [|done]. split; [intros _|done].
    split; [done|]. by exists b, t', rest.
  - split; [split; [done|]|].
    { intros (b0 & Hb0 & Ht0 & Hal0). specialize (Hno _ Hb0 Ht0). congruence. }
    split; [|done]. split; [done|].
    intros [_ (b & t & rest & Hb & Ht)]. by destruct (Hnone b t rest Hb).
Qed.

Lemma resolver_status_decided_witness :
  Forall stable_call calls_resolving_g
  ∧ ∃ res,
      cached_resolve (session_run calls_resolving_g new_session) "normal"
        ["g"; "g"] ∅ = Ok res
      ∧ status res = Miss
      ∧ consumed res = 1%Z
      ∧ ((Z.of_nat 2 ≤ consumed res)%Z
         ↔ ∃ b, bound_in (registry (session_run calls_resolving_g new_session))
                  "normal" b
                ∧ take 2 ["g"; "g"] `prefix_of` binding_tokens b).
Proof.
  assert (Hstable : Forall stable_call calls_resolving_g).
  { repeat constructor. }
  split; [exact Hstable|].
  destruct (resolver_status_decided calls_resolving_g "normal" ["g"; "g"] ∅
              Hstable) as (res & Hres & _ & _ & _ & _ & Hcons).
  assert (Hres' : cached_resolve (session_run calls_resolving_g new_session)
                    "normal" ["g"; "g"] ∅
                  = Ok (mkResolutionResult Miss None 1 [] None)).
  { vm_compute. reflexivity. }
  assert (res = mkResolutionResult Miss None 1 [] None) as E.
  { rewrite Hres' in Hres. injection Hres as <-. reflexivity. }
  exists res. split; [exact Hres|].
  split; [rewrite E; reflexivity|]. split; [rewrite E; reflexivity|].
  apply (Hcons 2). simpl. lia.
Defined.

(** X22. A pending answer of the resolver of a session carries no match
    and has consumed all the tokens; the tokens it expects next are
    sorted, there is at least one, and they are exactly the tokens that
    follow the given ones in some registered binding of the mode; and it
    carries a timeout, the least sequence timeout of the registered
    bindings of the mode that start with the tokens given and go on. *)
Theorem resolver_pending_details
    (calls : list session_call) (mode : string) (tokens : list string)
    (context : gmap string bool) (res : ResolutionResult) :
  Forall stable_call calls →
  cached_resolve (session_run calls new_session) mode tokens context = Ok res →
  status res = Pending →
  match_ res = None
  ∧ consumed res = len tokens
  ∧ next_expected res ≠ []
  ∧ Sorted (λ a b, String.leb a b = true) (next_expected res)
  ∧ (∀ t, t ∈ next_expected res
          ↔ ∃ b rest,
              bound_in (registry (session_run calls new_session)) mode b
              ∧ binding_tokens b = tokens ++ t :: rest)
  ∧ ∃ timeout,
      timeout_ms res = Some timeout
      ∧ (∃ b t rest,
           bound_in (registry (session_run calls new_session)) mode b
           ∧ binding_tokens b = tokens ++ t :: rest
           ∧ KeySequence.timeout_ms (Binding.sequence b) = timeout)
      ∧ ∀ b t rest,
          bound_in (registry (session_run calls new_session)) mode b →
          binding_tokens b = tokens ++ t :: rest →
          (timeout ≤ KeySequence.timeout_ms (Binding.sequence b))%Z.
Proof.
  intros Hcalls Hres Hst.
  destruct (session_answer calls mode tokens context Hcalls) as [Hs Heq].
  destruct (rebuilt_resolve_cases _ mode tokens context Hs)
    as (res' & Hres' & _ & Hcases).
  rewrite Heq, Hres' in Hres. injection Hres as ->.
  destruct Hcases
    as [(m & -> & _)
       |[_ [(next & t & -> & Hne & Hsorted & Hnext & Hex & Hmin)
           |[_ [c ->]]]]]; simpl in Hst; [done| |done].
  simpl. split; [done|]. split; [done|]. split; [done|]. split; [done|].
  split; [done|]. exists t. split; [done|]. split; [done|]. exact Hmin.
Qed.

(** Two bindings of mode [n] that go on after [g], with different
    timeouts. *)
Definition binding_timed (binding_id key : string) (timeout : Z) : Binding.t :=
  Binding.mk binding_id "n"
    (KeySequence.mk [KeyStroke.mk "g" [] None; KeyStroke.mk key [] None]
       timeout)
    "core.test" EmptyString [] 0.

Definition calls_two_timeouts : list session_call :=
  [ RegisterAction action_test false;
    RegisterBinding (binding_timed "n.gu" "u" 700) false;
    RegisterBinding (binding_timed "n.ge" "e" 300) false ].

Lemma resolver_pending_details_witness :
  Forall stable_call calls_two_timeouts
  ∧ cached_resolve (session_run calls_two_timeouts new_session) "n" ["g"] ∅
    = Ok (mkResolutionResult Pending None 1 ["e"; "u"] (Some 300%Z))
  ∧ ∀ b t rest,
      bound_in (registry (session_run calls_two_timeouts new_session)) "n" b →
      binding_tokens b = ["g"] ++ t :: rest →
      (300 ≤ KeySequence.timeout_ms (Binding.sequence b))%Z.
Proof.
  assert (Hstable : Forall stable_call calls_two_timeouts).
  { repeat constructor. }
  assert (Hres : cached_resolve (session_run calls_two_timeouts new_session)
                   "n" ["g"] ∅
                 = Ok (mkResolutionResult Pending None 1 ["e"; "u"]
                         (Some 300%Z))).
  { vm_compute. reflexivity. }
  split; [exact Hstable|]. split; [exact Hres|].
  destruct (resolver_pending_details calls_two_timeouts "n" ["g"] ∅ _
              Hstable Hres eq_refl)
    as (_ & _ & _ & _ & _ & timeout & Ht & _ & Hmin).
  injection Ht as <-. exact Hmin.
Defined.

End resolver_results.
